(** * RuntimeBitset: a shallow embedding of [RuntimeBitset.hpp]

    The class [RunBitset::RuntimeBitset] stores [m_size] bits in [m_blocks]
    words of type [std::size_t], least significant block first, next to an
    array [m_mask] of the same length that marks the significant bits of
    each block.

    Conventions of the embedding.
    - [std::size_t] is a 64-bit unsigned word, held as a [Z] in
      [0, 2^64); every arithmetic result is reduced with [wrap].
      [long long] values are obtained with [to_ll].
    - An owned array pointer is an [option (list Z)]: [None] is [nullptr].
    - [new std::size_t[n]] does not initialise its cells.  The contents
      found there are an explicit argument of type [Junk].
    - A member function is a computation over the receiver [*this]
      (monad [M RuntimeBitset]).  Functions that take two object references
      run over a [store] of objects, so the two references may alias.
    - A computation ends in a value ([Ret]), in a thrown exception
      ([Throw], with the state reached when it was thrown) or in undefined
      behaviour ([Undefined]): a null or out-of-bounds array access, a
      native shift by 64 or more, a loop that cannot end. *)

From Stdlib Require Import ZArith Lia Ascii.
From stdpp Require Import base decidable option list gmap strings.

#[local] Open Scope Z_scope.

(** ** Machine words *)

Module Word.

Definition BLOCK_SIZE : Z := 64.

Definition wrap (z : Z) : Z := z mod 2 ^ BLOCK_SIZE.

(** Conversion of a [std::size_t] to [long long]. *)
Definition to_ll (z : Z) : Z :=
  if decide (z < 2 ^ (BLOCK_SIZE - 1)) then z else z - 2 ^ BLOCK_SIZE.

(** [~x] on a [std::size_t]. *)
Definition bit_not (x : Z) : Z := wrap (Z.lnot x).

(** [ALL_BITS_ONE = ~(0)]. *)
Definition ALL_BITS_ONE : Z := bit_not 0.

(** [x << k] and [x >> k] on a [std::size_t]; the behaviour is undefined
    when [k] is not smaller than the width of the word. *)
Definition shl (x k : Z) : option Z :=
  if decide (0 <= k < BLOCK_SIZE) then Some (wrap (Z.shiftl x k)) else None.

Definition shr (x k : Z) : option Z :=
  if decide (0 <= k < BLOCK_SIZE) then Some (Z.shiftr x k) else None.

Definition is_word (z : Z) : Prop := 0 <= z < 2 ^ BLOCK_SIZE.

End Word.

Import Word.

(** ** Outcomes and the state monad *)

Inductive exn : Type :=
| RuntimeBitsetInvalidSize
| RuntimeBitsetOutOfRange
| RuntimeBitsetSizeDismatch
| RuntimeBitsetUnknownChar.

Inductive outcome (St A : Type) : Type :=
| Ret (a : A) (s : St)
| Throw (e : exn) (s : St)
| Undefined.

Arguments Ret {St A} a s.
Arguments Throw {St A} e s.
Arguments Undefined {St A}.

Definition M (St A : Type) : Type := St -> outcome St A.

#[global] Instance M_ret {St} : MRet (M St) := fun A a s => Ret a s.

#[global] Instance M_bind {St} : MBind (M St) := fun A B k m s =>
  match m s with
  | Ret a s' => k a s'
  | Throw e s' => Throw e s'
  | Undefined => Undefined
  end.

Definition throw {St A} (e : exn) : M St A := fun s => Throw e s.

Definition undefined {St A} : M St A := fun _ => Undefined.

Definition get {St} : M St St := fun s => Ret s s.

Definition put {St} (s : St) : M St unit := fun _ => Ret tt s.

(** A partial primitive: [None] is undefined behaviour. *)
Definition defined {St A} (o : option A) : M St A :=
  match o with
  | Some a => mret a
  | None => undefined
  end.

(** [for (i = i0, n times; i += step) body(i)]. *)
Fixpoint for_range {St} (n : nat) (i step : Z) (body : Z -> M St unit)
  : M St unit :=
  match n with
  | O => mret tt
  | S n' => body i;; for_range n' (i + step) step body
  end.

(** ** The object *)

Record RuntimeBitset : Type := mkRuntimeBitset {
  m_bits : option (list Z);
  m_mask : option (list Z);
  m_size : Z;
  m_blocks : Z
}.

(** Contents of the two arrays that [buildBlocks] allocates, before any
    cell is written. *)
Record Junk : Type := mkJunk {
  junk_bits : nat -> Z;
  junk_mask : nat -> Z
}.

Definition new_array (contents : nat -> Z) (n : Z) : list Z :=
  map (fun i => wrap (contents i)) (seq 0 (Z.to_nat n)).

(** [arr[i]] as an rvalue. *)
Definition load (arr : option (list Z)) (i : Z) : option Z :=
  match arr with
  | Some l => if decide (0 <= i) then l !! Z.to_nat i else None
  | None => None
  end.

(** [arr[i] = x]. *)
Definition store_at (arr : option (list Z)) (i x : Z) : option (list Z) :=
  match arr with
  | Some l =>
      if decide (0 <= i < Z.of_nat (length l))
      then Some (<[Z.to_nat i := x]> l) else None
  | None => None
  end.

Definition with_bits (a : option (list Z)) (v : RuntimeBitset) : RuntimeBitset :=
  {| m_bits := a; m_mask := m_mask v; m_size := m_size v; m_blocks := m_blocks v |}.

Definition with_mask (a : option (list Z)) (v : RuntimeBitset) : RuntimeBitset :=
  {| m_bits := m_bits v; m_mask := a; m_size := m_size v; m_blocks := m_blocks v |}.

Definition with_size (n : Z) (v : RuntimeBitset) : RuntimeBitset :=
  {| m_bits := m_bits v; m_mask := m_mask v; m_size := n; m_blocks := m_blocks v |}.

Definition with_blocks (n : Z) (v : RuntimeBitset) : RuntimeBitset :=
  {| m_bits := m_bits v; m_mask := m_mask v; m_size := m_size v; m_blocks := n |}.

(** Reads and writes of the members of [*this]. *)
Definition get_bits (i : Z) : M RuntimeBitset Z :=
  v ← get; defined (load (m_bits v) i).

Definition get_mask (i : Z) : M RuntimeBitset Z :=
  v ← get; defined (load (m_mask v) i).

Definition set_bits (i x : Z) : M RuntimeBitset unit :=
  v ← get; l ← defined (store_at (m_bits v) i x); put (with_bits (Some l) v).

Definition set_mask (i x : Z) : M RuntimeBitset unit :=
  v ← get; l ← defined (store_at (m_mask v) i x); put (with_mask (Some l) v).

Definition size : M RuntimeBitset Z := v ← get; mret (m_size v).

Definition blocks : M RuntimeBitset Z := v ← get; mret (m_blocks v).

(** [for] loops that carry a local variable, and [for] loops whose body
    may [return]. *)
Fixpoint for_fold {St A} (n : nat) (i step : Z) (body : Z -> A -> M St A)
    (acc : A) : M St A :=
  match n with
  | O => mret acc
  | S n' => acc' ← body i acc; for_fold n' (i + step) step body acc'
  end.

Fixpoint for_return {St A} (n : nat) (i step : Z)
    (body : Z -> M St (option A)) (after : M St A) : M St A :=
  match n with
  | O => after
  | S n' =>
      r ← body i;
      match r with
      | Some a => mret a
      | None => for_return n' (i + step) step body after
      end
  end.

(** [while (t_pos >= BLOCK_SIZE) { ++count; t_pos -= BLOCK_SIZE; }], the
    loop of [getPosition], [bitwiseLeft] and [bitwiseRight]. *)
Fixpoint while_ge_block (fuel : nat) (t_pos count : Z) : option (Z * Z) :=
  match fuel with
  | O => if decide (t_pos >= BLOCK_SIZE) then None else Some (count, t_pos)
  | S fuel' =>
      if decide (t_pos >= BLOCK_SIZE)
      then while_ge_block fuel' (wrap (t_pos - BLOCK_SIZE)) (wrap (count + 1))
      else Some (count, t_pos)
  end.

Definition split_position (t_pos : Z) : option (Z * Z) :=
  while_ge_block (Z.to_nat (t_pos / BLOCK_SIZE)) t_pos 0.

(** ** Storage and lifecycle *)

Definition destroy : M RuntimeBitset unit :=
  v ← get;
  (if m_bits v is Some _ then put (with_bits None v) else mret tt);;
  v ← get;
  (if m_mask v is Some _ then put (with_mask None v) else mret tt);;
  v ← get; put (with_size 0 v);;
  v ← get; put (with_blocks 0 v).

Fixpoint getNumberBlocks_loop (fuel : nat) (i t_size numberOfBlocks : Z)
  : option Z :=
  match fuel with
  | O => if decide (i < t_size) then None else Some numberOfBlocks
  | S fuel' =>
      if decide (i < t_size)
      then getNumberBlocks_loop fuel' (wrap (i + BLOCK_SIZE)) t_size
             (wrap (numberOfBlocks + 1))
      else Some numberOfBlocks
  end.

(** The loop cannot end when [i] wraps around before reaching [t_size];
    the fuel covers every run that ends.  [assert (t_size != 0)] holds at
    the only call site, [build]. *)
Definition getNumberBlocks (t_size : Z) : option Z :=
  getNumberBlocks_loop (S (Z.to_nat (t_size / BLOCK_SIZE))) 0 t_size 0.

Definition buildBlocks (j : Junk) : M RuntimeBitset unit :=
  v ← get; put (with_bits (Some (new_array (junk_bits j) (m_blocks v))) v);;
  v ← get; put (with_mask (Some (new_array (junk_mask j) (m_blocks v))) v).

Definition getLastMask (t_number_bits : Z) : option Z :=
  shr ALL_BITS_ONE (wrap (BLOCK_SIZE - t_number_bits)).

Definition buildMask : M RuntimeBitset unit :=
  n ← blocks;
  for_range (Z.to_nat n) 0 1 (fun i => set_mask i ALL_BITS_ONE);;
  v ← get;
  let lastMask := wrap (m_size v - wrap (wrap (m_blocks v - 1) * BLOCK_SIZE)) in
  x ← defined (getLastMask lastMask);
  set_mask (wrap (m_blocks v - 1)) x.

Definition build (t_size : Z) (j : Junk) : M RuntimeBitset unit :=
  if decide (t_size = 0) then throw RuntimeBitsetInvalidSize
  else
    destroy;;
    v ← get; put (with_size t_size v);;
    n ← defined (getNumberBlocks t_size);
    v ← get; put (with_blocks n v);;
    buildBlocks j;;
    buildMask.

Definition clean : M RuntimeBitset unit :=
  n ← blocks;
  for_range (Z.to_nat n) 0 1 (fun i => set_bits i 0).

(** A newly declared object: both pointers carry their default member
    initialiser [nullptr].  The two scalars are written by [destroy]
    before any function reads them. *)
Definition raw : RuntimeBitset :=
  {| m_bits := None; m_mask := None; m_size := 0; m_blocks := 0 |}.

(** [RuntimeBitset(t_size, t_num)] *)
Definition RuntimeBitset_size_num (t_size t_num : Z) (j : Junk)
  : M RuntimeBitset unit :=
  build t_size j;;
  set_bits 0 t_num.

(** [RuntimeBitset(t_size)] *)
Definition RuntimeBitset_size (t_size : Z) (j : Junk) : M RuntimeBitset unit :=
  build t_size j;;
  clean.

(** [RuntimeBitset()] *)
Definition RuntimeBitset_default (j : Junk) : M RuntimeBitset unit :=
  build BLOCK_SIZE j;;
  clean.

(** ** Addressing and indexed operations *)

Definition getMaskPosition (t_position : Z) : option Z :=
  shl 1 t_position.

Definition getPosition (t_position : Z) : M RuntimeBitset (Z * Z) :=
  v ← get;
  if decide (t_position >= m_size v) then throw RuntimeBitsetOutOfRange
  else
    '(blockPosition, t_position') ← defined (split_position t_position);
    positionMask ← defined (getMaskPosition t_position');
    mret (blockPosition, positionMask).

(** [set()] *)
Definition set_all : M RuntimeBitset unit :=
  n ← blocks;
  for_range (Z.to_nat n) 0 1 (fun i => set_bits i ALL_BITS_ONE).

(** [set(t_position)] *)
Definition set_pos (t_position : Z) : M RuntimeBitset unit :=
  '(blockPosition, positionMask) ← getPosition t_position;
  b ← get_bits blockPosition;
  set_bits blockPosition (Z.lor b positionMask).

Definition getValueInPosition (t_position : Z) : M RuntimeBitset bool :=
  '(blockPosition, positionMask) ← getPosition t_position;
  b ← get_bits blockPosition;
  let auxBlock := Z.land b positionMask in
  if decide (Z.lor auxBlock 0 = 0) then mret false else mret true.

Definition test (t_position : Z) : M RuntimeBitset bool :=
  getValueInPosition t_position.

(** ** Whole-vector predicates and counting *)

Definition all : M RuntimeBitset bool :=
  n ← blocks;
  for_return (Z.to_nat n) 0 1
    (fun i =>
       b ← get_bits i; m ← get_mask i; m' ← get_mask i;
       if decide (Z.land b m ≠ m') then mret (Some false) else mret None)
    (mret true).

Definition any : M RuntimeBitset bool :=
  n ← blocks;
  for_return (Z.to_nat n) 0 1
    (fun i =>
       b ← get_bits i; m ← get_mask i;
       if decide (Z.land b m ≠ 0) then mret (Some true) else mret None)
    (mret false).

Definition none : M RuntimeBitset bool :=
  n ← blocks;
  for_return (Z.to_nat n) 0 1
    (fun i =>
       b ← get_bits i; m ← get_mask i;
       if decide (Z.land b m ≠ 0) then mret (Some false) else mret None)
    (mret true).

(** The inner loop of [count]: [n] iterations over [block]. *)
Fixpoint count_block (n : nat) (block numberOfActive : Z) : Z :=
  match n with
  | O => numberOfActive
  | S n' =>
      count_block n' (Z.shiftr block 1)
        (if decide (block mod 2 ≠ 0) then wrap (numberOfActive + 1)
         else numberOfActive)
  end.

Definition count : M RuntimeBitset Z :=
  n ← blocks;
  for_fold (Z.to_nat n) 0 1
    (fun i numberOfActive =>
       b ← get_bits i; m ← get_mask i;
       mret (count_block (Z.to_nat BLOCK_SIZE) (Z.land b m) numberOfActive))
    0.

(** ** Conversions *)

Definition chr0 : ascii := "0"%char.
Definition chr1 : ascii := "1"%char.

(** The inner loop of [to_string]: [n] iterations that append to
    [buffer]. *)
Fixpoint to_string_block (n : nat) (block mask : Z) (buffer : list ascii)
  : list ascii :=
  match n with
  | O => buffer
  | S n' =>
      to_string_block n' (Z.shiftr block 1) (Z.shiftr mask 1)
        (if decide (mask mod 2 ≠ 0)
         then (if decide (block mod 2 ≠ 0) then buffer ++ [chr1]
               else buffer ++ [chr0])
         else buffer)
  end.

Definition to_string : M RuntimeBitset (list ascii) :=
  n ← blocks;
  let i0 := to_ll (wrap (n - 1)) in
  for_fold (Z.to_nat (i0 + 1)) i0 (-1)
    (fun i toReturn =>
       b ← get_bits i; m ← get_mask i;
       let block := Z.land b m in
       mask ← get_mask i;
       let buffer := to_string_block (Z.to_nat BLOCK_SIZE) block mask [] in
       let aux := reverse buffer in
       mret (toReturn ++ aux))
    [].

Definition to_ullong : M RuntimeBitset Z :=
  b ← get_bits 0; m ← get_mask 0; mret (Z.land b m).

(** [buildFromString]; [t_string.size()] is a [std::size_t]. *)
Definition buildFromString (t_string : list ascii) (j : Junk)
  : M RuntimeBitset unit :=
  let len := Z.of_nat (length t_string) in
  destroy;;
  build len j;;
  let sizeAux := wrap (len - 1) in
  for_range (length t_string) 0 1
    (fun i =>
       c ← defined (t_string !! Z.to_nat i);
       if decide (c = chr1) then set_pos (wrap (sizeAux - i))
       else if decide (c = chr0) then mret tt
       else throw RuntimeBitsetUnknownChar).

(** [RuntimeBitset(t_string)] *)
Definition RuntimeBitset_string (t_string : list ascii) (j : Junk)
  : M RuntimeBitset unit :=
  buildFromString t_string j.

(** ** Shifting *)

Definition shiftBlocksLeft (t_pos : Z) : M RuntimeBitset unit :=
  n ← blocks;
  let i0 := to_ll (wrap (n - 1)) in
  for_range (Z.to_nat (i0 + 1)) i0 (-1)
    (fun i =>
       let newPos := to_ll (wrap (i + t_pos)) in
       n ← blocks;
       (if decide (newPos < to_ll n)
        then b ← get_bits i; m ← get_mask i; set_bits newPos (Z.land b m)
        else mret tt);;
       set_bits i 0).

Definition shiftBlocksRight (t_pos : Z) : M RuntimeBitset unit :=
  n ← blocks;
  for_range (Z.to_nat n) 0 1
    (fun i =>
       let newPos := to_ll (wrap (i - t_pos)) in
       (if decide (newPos >= 0)
        then b ← get_bits i; m ← get_mask i; set_bits newPos (Z.land b m)
        else mret tt);;
       set_bits i 0).

Definition bitwiseLeft (t_pos : Z) : M RuntimeBitset unit :=
  '(blockWise, t_pos) ← defined (split_position t_pos);
  (if decide (blockWise > 0) then shiftBlocksLeft blockWise else mret tt);;
  n ← blocks;
  let i0 := to_ll (wrap (n - 1)) in
  for_range (Z.to_nat (i0 + 1)) i0 (-1)
    (fun i =>
       b ← get_bits i; m ← get_mask i;
       remain ← defined (shr (Z.land b m) (wrap (BLOCK_SIZE - t_pos)));
       b ← get_bits i; m ← get_mask i;
       x ← defined (shl (Z.land b m) t_pos);
       set_bits i x;;
       n ← blocks;
       if decide (i + 1 < to_ll n)
       then b' ← get_bits (i + 1); set_bits (i + 1) (Z.lor b' remain)
       else mret tt).

Definition bitwiseRight (t_pos : Z) : M RuntimeBitset unit :=
  '(blockWise, t_pos) ← defined (split_position t_pos);
  (if decide (blockWise > 0) then shiftBlocksRight blockWise else mret tt);;
  n ← blocks;
  for_range (Z.to_nat (to_ll n)) 0 1
    (fun i =>
       b ← get_bits i; m ← get_mask i;
       remain ← defined (shl (Z.land b m) (wrap (BLOCK_SIZE - t_pos)));
       b ← get_bits i; m ← get_mask i;
       x ← defined (shr (Z.land b m) t_pos);
       set_bits i x;;
       if decide (i - 1 >= 0)
       then b' ← get_bits (i - 1); set_bits (i - 1) (Z.lor b' remain)
       else mret tt).

(** [operator<<=] and [operator>>=] *)
Definition shl_assign (t_pos : Z) : M RuntimeBitset unit := bitwiseLeft t_pos.
Definition shr_assign (t_pos : Z) : M RuntimeBitset unit := bitwiseRight t_pos.

(** ** Objects in a store *)

(** References to objects are addresses in a [store]; two references with
    the same address denote the same object. *)
Abbreviation store := (gmap nat RuntimeBitset).

(** Run a member function on the object at address [a]. *)
Definition on {A} (a : nat) (m : M RuntimeBitset A) : M store A :=
  fun σ =>
    match σ !! a with
    | None => Undefined
    | Some v =>
        match m v with
        | Ret x v' => Ret x (<[a := v']> σ)
        | Throw e v' => Throw e (<[a := v']> σ)
        | Undefined => Undefined
        end
    end.

(** A local object or a temporary holding [init], alive during [body] and
    gone when [body] ends, normally or by an exception. *)
Definition with_local {A} (init : RuntimeBitset) (body : nat -> M store A)
  : M store A :=
  fun σ =>
    let a := fresh (dom σ) in
    match body a (<[a := init]> σ) with
    | Ret x σ' => Ret x (delete a σ')
    | Throw e σ' => Throw e (delete a σ')
    | Undefined => Undefined
    end.

(** The value of the object at [a], as returned by [return aux;]. *)
Definition value_of (a : nat) : M store RuntimeBitset := on a get.

Definition copy (t_copy t_toCopy : nat) (j : Junk) : M store unit :=
  on t_copy destroy;;
  n ← on t_toCopy size;
  on t_copy (build n j);;
  k ← on t_copy blocks;
  for_range (Z.to_nat k) 0 1
    (fun i =>
       blockToCopy ← on t_toCopy (get_bits i);
       on t_copy (set_bits i blockToCopy)).

Definition move (t_move t_toMove : nat) (j : Junk) : M store unit :=
  on t_move destroy;;
  src ← on t_toMove get;
  dst ← on t_move get;
  on t_move (put (with_bits (m_bits src) dst));;
  dst ← on t_move get;
  on t_move (put (with_mask (m_mask src) dst));;
  dst ← on t_move get;
  on t_move (put (with_size (m_size src) dst));;
  dst ← on t_move get;
  on t_move (put (with_blocks (m_blocks src) dst));;
  src ← on t_toMove get;
  on t_toMove (put (with_bits None src));;
  src ← on t_toMove get;
  on t_toMove (put (with_mask None src));;
  src ← on t_toMove get;
  on t_toMove (put (with_size 0 src));;
  src ← on t_toMove get;
  on t_toMove (put (with_blocks 0 src));;
  on t_toMove (build 1 j).

(** Copy and move assignment, [operator=]. *)
Definition copy_assign (this t_RuntimeBitset : nat) (j : Junk) : M store unit :=
  copy this t_RuntimeBitset j.

Definition move_assign (this t_RuntimeBitset : nat) (j : Junk) : M store unit :=
  move this t_RuntimeBitset j.

(** ** Logic operators *)

(** The three friend operators differ in the word operation only. *)
Definition binary_operator (op : Z -> Z -> Z) (t_1 t_2 : nat) (j : Junk)
  : M store RuntimeBitset :=
  n1 ← on t_1 size;
  n2 ← on t_2 size;
  if decide (n1 ≠ n2) then throw RuntimeBitsetSizeDismatch
  else
    n ← on t_1 size;
    with_local raw (fun aux =>
      on aux (RuntimeBitset_size n j);;
      k ← on aux blocks;
      for_range (Z.to_nat k) 0 1
        (fun i =>
           x ← on t_1 (get_bits i);
           y ← on t_2 (get_bits i);
           on aux (set_bits i (op x y)));;
      value_of aux).

Definition operator_and := binary_operator Z.land.
Definition operator_or := binary_operator Z.lor.
Definition operator_xor := binary_operator Z.lxor.

(** [*this = *this OP t_other]: the right-hand side is a temporary, so
    the move assignment is the one selected. [j] serves the operator and
    [j'] the rebuilding of the moved-from temporary. *)
Definition compound_assign (op : Z -> Z -> Z) (this t_other : nat)
    (j j' : Junk) : M store unit :=
  tmp ← binary_operator op this t_other j;
  with_local tmp (fun t => move_assign this t j').

Definition operator_and_assign := compound_assign Z.land.
Definition operator_or_assign := compound_assign Z.lor.
Definition operator_xor_assign := compound_assign Z.lxor.

(** [operator<<] and [operator>>]: a copy of [*this] is shifted and
    returned. *)
Definition operator_shl (this : nat) (t_pos : Z) (j : Junk)
  : M store RuntimeBitset :=
  with_local raw (fun aux =>
    copy aux this j;;
    on aux (bitwiseLeft t_pos);;
    value_of aux).

Definition operator_shr (this : nat) (t_pos : Z) (j : Junk)
  : M store RuntimeBitset :=
  with_local raw (fun aux =>
    copy aux this j;;
    on aux (bitwiseRight t_pos);;
    value_of aux).

(** ** Further member functions *)

(** [reset()] *)
Definition reset_all : M RuntimeBitset unit := clean.

(** [reset(t_position)] *)
Definition reset_pos (t_position : Z) : M RuntimeBitset unit :=
  '(blockPosition, mask) ← getPosition t_position;
  let positionMask := bit_not mask in
  b ← get_bits blockPosition;
  set_bits blockPosition (Z.land b positionMask).

(** [flip()] *)
Definition flip_all : M RuntimeBitset unit :=
  n ← blocks;
  for_range (Z.to_nat n) 0 1
    (fun i => b ← get_bits i; set_bits i (bit_not b)).

(** [flip(t_position)] *)
Definition flip_pos (t_position : Z) : M RuntimeBitset unit :=
  '(blockPosition, positionMask) ← getPosition t_position;
  b ← get_bits blockPosition;
  let positionValueReversed := Z.land (bit_not b) positionMask in
  b' ← get_bits blockPosition;
  let allExceptPositionValue := Z.land b' (bit_not positionMask) in
  set_bits blockPosition (Z.lor allExceptPositionValue positionValueReversed).

(** [operator[] const] *)
Definition operator_index_const (t_position : Z) : M RuntimeBitset bool :=
  getValueInPosition t_position.

(** [to_ulong]: [unsigned long] has the width of [std::size_t]. *)
Definition to_ulong : M RuntimeBitset Z :=
  b ← get_bits 0; m ← get_mask 0; mret (Z.land b m).

(** [operator~]: flips [*this] in place and returns a copy of it. *)
Definition operator_not (this : nat) (j : Junk) : M store RuntimeBitset :=
  k ← on this blocks;
  for_range (Z.to_nat k) 0 1
    (fun i => b ← on this (get_bits i); on this (set_bits i (bit_not b)));;
  with_local raw (fun r => copy r this j;; value_of r).

(** The copy and the move constructor, run on a newly declared object at
    [this]. *)
Definition copy_construct (this t_RuntimeBitset : nat) (j : Junk)
  : M store unit :=
  copy this t_RuntimeBitset j.

Definition move_construct (this t_RuntimeBitset : nat) (j : Junk)
  : M store unit :=
  move this t_RuntimeBitset j.

(** [RuntimeBitset::Reference]: a position and a reference to a vector. *)
Record Reference : Type := mkReference {
  m_position : Z;
  m_bitset : nat
}.

(** [operator[]] on a non-const vector. *)
Definition operator_index (this : nat) (t_pos : Z) : M store Reference :=
  n ← on this size;
  if decide (t_pos >= n) then throw RuntimeBitsetOutOfRange
  else mret {| m_position := t_pos; m_bitset := this |}.

(** [Reference::operator=(bool)] *)
Definition Reference_assign (r : Reference) (t_value : bool) : M store unit :=
  if decide (t_value = true) then on (m_bitset r) (set_pos (m_position r))
  else on (m_bitset r) (reset_pos (m_position r)).

(** [Reference::operator bool] *)
Definition Reference_bool (r : Reference) : M store bool :=
  on (m_bitset r) (getValueInPosition (m_position r)).

(** [Reference::operator~] *)
Definition Reference_not (r : Reference) : M store bool :=
  b ← on (m_bitset r) (getValueInPosition (m_position r));
  mret (negb b).

(** [Reference::flip] *)
Definition Reference_flip (r : Reference) : M store unit :=
  on (m_bitset r) (flip_pos (m_position r)).

(** ** Shifts as the machine computes them *)

(** The language leaves [x << k] and [x >> k] undefined when [k] is not
    below the width of the word, and [shl] and [shr] follow it.  The
    compiled program executes a shift instruction all the same; a
    [Machine] says which word that instruction leaves for such a count. *)
Record Machine : Type := mkMachine {
  wide_shl : Z -> Z -> Z;
  wide_shr : Z -> Z -> Z
}.




Definition draining : Machine :=
  {| wide_shl := fun _ _ => 0; wide_shr := fun _ _ => 0 |}.

(** Whatever the count, the shift instructions leave the word 0 as 0. *)
Definition keeps_zero (hw : Machine) : Prop :=
  forall k, wide_shl hw 0 k = 0 /\ wide_shr hw 0 k = 0.





(** ** Specification vocabulary *)

(** [ceil (n / BLOCK_SIZE)], the number of blocks of an [n]-bit vector. *)
Definition num_blocks (n : Z) : Z := (n + BLOCK_SIZE - 1) / BLOCK_SIZE.

(** The mask array of an [n]-bit vector: all-ones blocks below a last
    block with [n - (num_blocks n - 1) * BLOCK_SIZE] low bits set. *)
Definition mask_of (n : Z) : list Z :=
  replicate (Z.to_nat (num_blocks n - 1)) ALL_BITS_ONE
  ++ [Z.ones (n - (num_blocks n - 1) * BLOCK_SIZE)].

(** The class invariant: what every constructor establishes.  The upper
    bound on [m_size] is the largest size for which [getNumberBlocks]
    ends. *)
Definition wf (v : RuntimeBitset) : Prop :=
  1 <= m_size v <= 2 ^ BLOCK_SIZE - BLOCK_SIZE /\
  m_blocks v = num_blocks (m_size v) /\
  m_mask v = Some (mask_of (m_size v)) /\
  match m_bits v with
  | Some l => Z.of_nat (length l) = m_blocks v /\ Forall is_word l
  | None => False
  end.

(** Number of set bits among the [n] low bits of [x]. *)
Fixpoint popcount (n : nat) (x : Z) : Z :=
  match n with
  | O => 0
  | S n' => (if Z.odd x then 1 else 0) + popcount n' (Z.shiftr x 1)
  end.

(** Sum over all blocks of the number of set bits of the block. *)
Definition popcount_blocks (mb : list Z) : Z :=
  foldr (fun x r => popcount (Z.to_nat BLOCK_SIZE) x + r) 0 mb.

(** Number of ['1'] characters of a string. *)
Definition count_ones (s : list ascii) : Z :=
  Z.of_nat (length (filter (fun c => c = chr1) s)).

(** The blocks of a vector after masking: all that a read may depend on. *)
Definition masked_blocks (v : RuntimeBitset) : option (list Z) :=
  match m_bits v, m_mask v with
  | Some l, Some m => Some (zip_with Z.land l m)
  | _, _ => None
  end.

(** Two vectors of the same shape that agree on every significant bit. *)
Definition same_significant (v v' : RuntimeBitset) : Prop :=
  m_size v' = m_size v /\ m_blocks v' = m_blocks v /\
  m_mask v' = m_mask v /\ masked_blocks v' = masked_blocks v.

(** What [build] leaves behind: the size, the block count, blocks with
    the contents that [new] found, and the mask. *)
Definition built (t_size : Z) (j : Junk) : RuntimeBitset :=
  {| m_bits := Some (new_array (junk_bits j) (num_blocks t_size));
     m_mask := Some (mask_of t_size);
     m_size := t_size;
     m_blocks := num_blocks t_size |}.

(** Bit [pos] of a vector: bit [pos mod BLOCK_SIZE] of block
    [pos / BLOCK_SIZE]. *)
Definition bit_at (v : RuntimeBitset) (pos : Z) : bool :=
  match m_bits v with
  | Some l =>
      Z.testbit (default 0 (l !! Z.to_nat (pos / BLOCK_SIZE)))
        (pos mod BLOCK_SIZE)
  | None => false
  end.

(** The vector with the blocks [l] in place of its own. *)
Definition with_blocks_list (l : list Z) (v : RuntimeBitset) : RuntimeBitset :=
  with_bits (Some l) v.

(** The character printed for a bit. *)
Definition digit (b : bool) : ascii := if b then chr1 else chr0.

(** The first [Some] that [g] gives along a list. *)
Fixpoint first_some {X A} (g : X -> option A) (L : list X) : option A :=
  match L with
  | [] => None
  | x :: L' =>
      match g x with
      | Some a => Some a
      | None => first_some g L'
      end
  end.

(** Tests made by [any], [none] and [all] on a block. *)
Definition nonzero (x : Z) : bool := bool_decide (x ≠ 0).

Definition unfilled (bm : Z * Z) : bool := bool_decide (Z.land bm.1 bm.2 ≠ bm.2).

(** The bits of a vector from position 0 up to its size. *)
Definition bits_of (v : RuntimeBitset) : list bool :=
  (fun p : nat => bit_at v (Z.of_nat p)) <$> seq 0 (Z.to_nat (m_size v)).

(** The digits of the [n] low bits of a block, lowest first. *)
Definition digits_of_block (b : Z) (n : nat) : list ascii :=
  (fun i : nat => digit (Z.testbit b (Z.of_nat i))) <$> seq 0 n.

(** A character that [buildFromString] accepts. *)
Definition is_digit (c : ascii) : Prop := c = chr0 \/ c = chr1.

(** The bits after the first [k] characters have been read. *)
Definition read_prefix (s : list ascii) (j : Junk) (k : nat)
    (v : RuntimeBitset) : Prop :=
  let len := Z.of_nat (length s) in
  wf v /\ m_size v = len /\
  forall q, 0 <= q < len ->
    bit_at v q
    = bit_at (built len j) q
      || (bool_decide (len - Z.of_nat k <= q)
          && bool_decide (s !! Z.to_nat (len - 1 - q) = Some chr1)).

(** An allocation that finds zeroed memory for the blocks. *)
Definition zeroed (j : Junk) : Prop := forall i, wrap (junk_bits j i) = 0.

(** A list given by its entries, and the update of one entry. *)
Definition tabulate (F : nat -> Z) (n : nat) : list Z := F <$> seq 0 n.

Definition upd (F : nat -> Z) (i : nat) (x : Z) : nat -> Z :=
  fun t => if decide (t = i) then x else F t.

(** Entry [t] of a list of blocks, 0 beyond its end. *)
Definition entry (l : list Z) (t : nat) : Z := default 0 (l !! t).

(** Block [t] of the blocks [Y] under its mask. *)
Definition masked (Y : nat -> Z) (ms : list Z) (t : nat) : Z :=
  Z.land (Y t) (entry ms t).

(** The blocks while [shiftBlocksLeft Q] runs downwards over [B] blocks
    [Y] with masks [ms]: entry [t] after [j] iterations. *)
Definition after_left (Y : nat -> Z) (ms : list Z) (B Q j : nat) : nat -> Z :=
  fun t =>
    if decide (t < B - j)%nat then Y t
    else if decide (B - j + Q <= t)%nat then masked Y ms (t - Q)
    else 0.

(** The blocks while [shiftBlocksRight Q] runs upwards: entry [t] after
    [j] iterations. *)
Definition after_right (Y : nat -> Z) (ms : list Z) (Q j : nat) : nat -> Z :=
  fun t =>
    if decide (j <= t)%nat then Y t
    else if decide (t + Q < j)%nat then masked Y ms (t + Q)
    else 0.

(** The blocks while the loop of [bitwiseLeft] shifts by [r] bits inside
    the blocks, downwards from block [B - 1]: entry [t] after [j]
    iterations. *)
Definition carried_left (Y : nat -> Z) (ms : list Z) (r : Z) (B j : nat)
  : nat -> Z :=
  fun t =>
    if decide (t < B - j)%nat then Y t
    else if decide (t = B - j)%nat then wrap (Z.shiftl (masked Y ms t) r)
    else Z.lor (wrap (Z.shiftl (masked Y ms t) r))
               (Z.shiftr (masked Y ms (t - 1)) (BLOCK_SIZE - r)).

(** The same for the loop of [bitwiseRight], upwards from block 0. *)
Definition carried_right (Y : nat -> Z) (ms : list Z) (r : Z) (j : nat)
  : nat -> Z :=
  fun t =>
    if decide (j <= t)%nat then Y t
    else if decide (S t = j)%nat then Z.shiftr (masked Y ms t) r
    else Z.lor (Z.shiftr (masked Y ms t) r)
               (wrap (Z.shiftl (masked Y ms (t + 1)) (BLOCK_SIZE - r))).

(** The blocks that the block shift of [bitwiseLeft k] and
    [bitwiseRight k] leaves, when there is one. *)
Definition moved_left (Y : nat -> Z) (ms : list Z) (B : nat) (k : Z)
  : nat -> Z :=
  if decide (k / BLOCK_SIZE > 0)
  then after_left Y ms B (Z.to_nat (k / BLOCK_SIZE)) B else Y.

Definition moved_right (Y : nat -> Z) (ms : list Z) (B : nat) (k : Z)
  : nat -> Z :=
  if decide (k / BLOCK_SIZE > 0)
  then after_right Y ms (Z.to_nat (k / BLOCK_SIZE)) B else Y.

(** The vector has [n] blocks. *)
Definition keeps_blocks (n : Z) (v : RuntimeBitset) : Prop := m_blocks v = n.



(** Postconditions of a run: [R] after a normal return, [E] after a
    throw, [U] for undefined behaviour. *)
Definition sat {St A} (o : outcome St A) (R : A -> St -> Prop)
    (E : exn -> St -> Prop) (U : Prop) : Prop :=
  match o with
  | Ret a s => R a s
  | Throw e s => E e s
  | Undefined => U
  end.

(** Allocations that happen to find zeroed, or all-ones, memory. *)
Definition zero_junk : Junk :=
  {| junk_bits := fun _ => 0; junk_mask := fun _ => 0 |}.

Definition ones_junk : Junk :=
  {| junk_bits := fun _ => 1; junk_mask := fun _ => 1 |}.

Definition str (s : string) : list ascii :=
  String.list_ascii_of_string s.

(** Sample objects. *)
Definition bits8 : RuntimeBitset :=
  {| m_bits := Some [180]; m_mask := Some [255]; m_size := 8; m_blocks := 1 |}.

Definition bits65 : RuntimeBitset :=
  {| m_bits := Some [1; 0]; m_mask := Some [ALL_BITS_ONE; 1];
     m_size := 65; m_blocks := 2 |}.

Definition two_objects : store := <[0%nat := bits8]> {[ 1%nat := bits65 ]}.

Definition bits8b : RuntimeBitset :=
  {| m_bits := Some [77]; m_mask := Some [255]; m_size := 8; m_blocks := 1 |}.

Definition same_size_objects : store := <[0%nat := bits8]> {[ 1%nat := bits8b ]}.

(** * Properties *)

(** ** The monad *)

Lemma bind_run {St A B} (m : M St A) (k : A -> M St B) (s : St) :
  (m ≫= k) s =
  match m s with
  | Ret a s' => k a s'
  | Throw e s' => Throw e s'
  | Undefined => Undefined
  end.
Proof. reflexivity. Qed.

Lemma bind_ret {St A B} (m : M St A) (k : A -> M St B) (s s' : St) (a : A) :
  m s = Ret a s' -> (m ≫= k) s = k a s'.
Proof. intros H. by rewrite bind_run, H. Qed.

Lemma bind_throw {St A B} (m : M St A) (k : A -> M St B) (s s' : St) e :
  m s = Throw e s' -> (m ≫= k) s = Throw e s'.
Proof. intros H. by rewrite bind_run, H. Qed.

Lemma bind_undefined {St A B} (m : M St A) (k : A -> M St B) (s : St) :
  m s = Undefined -> (m ≫= k) s = Undefined.
Proof. intros H. by rewrite bind_run, H. Qed.

Lemma sat_bind {St A B} (m : M St A) (k : A -> M St B) (s : St) R E U :
  sat (m s) (fun a s' => sat (k a s') R E U) E U -> sat ((m ≫= k) s) R E U.
Proof. rewrite bind_run. by destruct (m s). Qed.

Lemma sat_mono {St A} (o : outcome St A) (R R' : A -> St -> Prop)
    (E E' : exn -> St -> Prop) (U U' : Prop) :
  sat o R E U ->
  (forall a s, R a s -> R' a s) -> (forall e s, E e s -> E' e s) ->
  (U -> U') -> sat o R' E' U'.
Proof. destruct o; simpl; eauto. Qed.

(** A loop keeps an invariant that each run of its body keeps. *)
Lemma sat_for_range {St} (I : St -> Prop) E U n i step
    (body : Z -> M St unit) :
  (forall i s, I s -> sat (body i s) (fun _ s' => I s') E U) ->
  forall s, I s -> sat (for_range n i step body s) (fun _ s' => I s') E U.
Proof.
  intros Hbody. revert i. induction n as [|n IH]; intros i s Hs; [done|].
  simpl. apply sat_bind.
  eapply sat_mono; [apply (Hbody i s Hs) | | done | done].
  intros [] s' Hs'. by apply IH.
Qed.

(** ** Objects in the store *)

Lemma on_ret {A} (a : nat) (m : M RuntimeBitset A) (σ : store) v x v' :
  σ !! a = Some v -> m v = Ret x v' -> on a m σ = Ret x (<[a := v']> σ).
Proof. intros Ha Hm. unfold on. by rewrite Ha, Hm. Qed.

Lemma on_throw {A} (a : nat) (m : M RuntimeBitset A) (σ : store) v e v' :
  σ !! a = Some v -> m v = Throw e v' -> on a m σ = Throw e (<[a := v']> σ).
Proof. intros Ha Hm. unfold on. by rewrite Ha, Hm. Qed.

(** Reading the size of an object leaves the store as it is. *)
Lemma on_size (a : nat) (σ : store) v :
  σ !! a = Some v -> on a size σ = Ret (m_size v) σ.
Proof.
  intros Ha. rewrite (on_ret a size σ v (m_size v) v Ha eq_refl).
  by rewrite insert_id.
Qed.

Lemma destroy_run v : destroy v = Ret tt raw.
Proof. by destruct v as [[b|] [m|] s n]. Qed.

Lemma build_zero j v : build 0 j v = Throw RuntimeBitsetInvalidSize v.
Proof. reflexivity. Qed.

(** ** Logic operators on operands of different sizes *)

Lemma binary_operator_mismatch op (t_1 t_2 : nat) j (σ : store) v1 v2 :
  σ !! t_1 = Some v1 -> σ !! t_2 = Some v2 -> m_size v1 ≠ m_size v2 ->
  binary_operator op t_1 t_2 j σ = Throw RuntimeBitsetSizeDismatch σ.
Proof.
  intros H1 H2 Hne. unfold binary_operator.
  rewrite (bind_ret _ _ _ _ _ (on_size _ _ _ H1)).
  rewrite (bind_ret _ _ _ _ _ (on_size _ _ _ H2)).
  by rewrite decide_True.
Qed.

Lemma compound_assign_mismatch op (this t_other : nat) j j' (σ : store) v1 v2 :
  σ !! this = Some v1 -> σ !! t_other = Some v2 -> m_size v1 ≠ m_size v2 ->
  compound_assign op this t_other j j' σ = Throw RuntimeBitsetSizeDismatch σ.
Proof.
  intros H1 H2 Hne. unfold compound_assign.
  apply bind_throw. by apply (binary_operator_mismatch op _ _ j σ v1 v2).
Qed.

(** C7. When the sizes of the two operands differ, each of [a & b],
    [a | b] and [a ^ b] throws [RuntimeBitsetSizeDismatch] and the store,
    hence both operands, is what it was.  Nothing is assumed about the
    arrays of the operands: the size test comes before any access to a
    block (an access to a missing block would be [Undefined]). *)
Theorem binary_operators_size_mismatch (a b : nat) (j : Junk) (σ : store)
    (va vb : RuntimeBitset) :
  σ !! a = Some va -> σ !! b = Some vb -> m_size va ≠ m_size vb ->
  operator_and a b j σ = Throw RuntimeBitsetSizeDismatch σ /\
  operator_or a b j σ = Throw RuntimeBitsetSizeDismatch σ /\
  operator_xor a b j σ = Throw RuntimeBitsetSizeDismatch σ.
Proof.
  intros Ha Hb Hne.
  repeat split; by eapply binary_operator_mismatch.
Qed.

(** C9. When the sizes differ, each of [a &= b], [a |= b] and [a ^= b]
    throws [RuntimeBitsetSizeDismatch] and leaves the store, hence the
    receiver, unchanged. *)
Theorem compound_assignments_size_mismatch (a b : nat) (j j' : Junk)
    (σ : store) (va vb : RuntimeBitset) :
  σ !! a = Some va -> σ !! b = Some vb -> m_size va ≠ m_size vb ->
  operator_and_assign a b j j' σ = Throw RuntimeBitsetSizeDismatch σ /\
  operator_or_assign a b j j' σ = Throw RuntimeBitsetSizeDismatch σ /\
  operator_xor_assign a b j j' σ = Throw RuntimeBitsetSizeDismatch σ.
Proof.
  intros Ha Hb Hne.
  repeat split; by eapply compound_assign_mismatch.
Qed.

(** ** Self-assignment *)

(** C8. Copy-assigning the object at [a] to itself throws
    [RuntimeBitsetInvalidSize] and leaves that object with size 0, no
    blocks and both arrays released; an object of non-zero size is
    therefore not preserved. *)
Theorem copy_assign_self (a : nat) (j : Junk) (σ : store) (v : RuntimeBitset) :
  σ !! a = Some v ->
  exists σ',
    copy_assign a a j σ = Throw RuntimeBitsetInvalidSize σ' /\
    σ' !! a = Some {| m_bits := None; m_mask := None;
                      m_size := 0; m_blocks := 0 |} /\
    (m_size v ≠ 0 -> σ' !! a ≠ Some v).
Proof.
  intros Ha. exists (<[a := raw]> σ). split; [|split].
  - unfold copy_assign, copy.
    rewrite (bind_ret _ _ _ _ _ (on_ret a destroy σ v tt raw Ha (destroy_run v))).
    rewrite (bind_ret _ _ _ _ _ (on_size a _ raw (lookup_insert_eq _ _ _))).
    apply bind_throw.
    rewrite (on_throw a _ _ raw RuntimeBitsetInvalidSize raw
               (lookup_insert_eq _ _ _) (build_zero j raw)).
    by rewrite insert_insert_eq.
  - apply lookup_insert_eq.
  - intros Hv. rewrite lookup_insert_eq. intros [= <-]. by apply Hv.
Qed.

(** ** Words *)

Lemma wrap_small z : is_word z -> wrap z = z.
Proof. unfold is_word, wrap. intros H. by apply Z.mod_small. Qed.

Lemma wrap_is_word z : is_word (wrap z).
Proof. unfold is_word, wrap. by apply Z.mod_pos_bound. Qed.

Lemma ALL_BITS_ONE_eq : ALL_BITS_ONE = Z.ones BLOCK_SIZE.
Proof. reflexivity. Qed.

Lemma to_ll_small z : 0 <= z < 2 ^ (BLOCK_SIZE - 1) -> to_ll z = z.
Proof. intros H. unfold to_ll. rewrite decide_True; [done|lia]. Qed.

Lemma shr_full x : shr x BLOCK_SIZE = None.
Proof. unfold shr. rewrite decide_False; [done|lia]. Qed.

Lemma shl_full x : shl x BLOCK_SIZE = None.
Proof. unfold shl. rewrite decide_False; [done|lia]. Qed.

(** ** Splitting a position into a block count and a remainder *)

Lemma while_ge_block_spec fuel t c :
  0 <= t < 2 ^ BLOCK_SIZE -> 0 <= c -> c + t / BLOCK_SIZE < 2 ^ BLOCK_SIZE ->
  t / BLOCK_SIZE <= Z.of_nat fuel ->
  while_ge_block fuel t c = Some (c + t / BLOCK_SIZE, t mod BLOCK_SIZE).
Proof.
  unfold BLOCK_SIZE. revert t c.
  induction fuel as [|fuel IH]; intros t c Ht Hc Hsum Hfuel; simpl.
  - assert (t / 64 = 0) as Hq by (pose proof (Z.div_pos t 64); lia).
    assert (t < 64) by (apply Z.div_small_iff in Hq; lia).
    rewrite decide_False by (unfold BLOCK_SIZE; lia).
    by rewrite Hq, Z.add_0_r, Z.mod_small by lia.
  - destruct (decide (t >= BLOCK_SIZE)) as [Hge|Hlt]; unfold BLOCK_SIZE in *.
    + assert (t / 64 = (t - 64) / 64 + 1) as Hq.
      { replace t with ((t - 64) + 1 * 64) at 1 by lia.
        by rewrite Z.div_add by lia. }
      assert (t mod 64 = (t - 64) mod 64) as Hr.
      { replace t with ((t - 64) + 1 * 64) at 1 by lia.
        by rewrite Z.mod_add by lia. }
      assert (0 <= (t - 64) / 64) by (apply Z.div_pos; lia).
      rewrite (wrap_small (t - 64)) by (unfold is_word, BLOCK_SIZE; lia).
      rewrite (wrap_small (c + 1)) by (unfold is_word, BLOCK_SIZE; lia).
      rewrite IH by lia. rewrite Hq, Hr. f_equal. f_equal. lia.
    + rewrite Z.div_small, Z.mod_small by lia. by rewrite Z.add_0_r.
Qed.

Lemma split_position_spec t :
  0 <= t < 2 ^ BLOCK_SIZE ->
  split_position t = Some (t / BLOCK_SIZE, t mod BLOCK_SIZE).
Proof.
  intros Ht. unfold split_position.
  assert (0 <= t / BLOCK_SIZE) by (apply Z.div_pos; unfold BLOCK_SIZE; lia).
  assert (t / BLOCK_SIZE <= t)
    by (apply Z.div_le_upper_bound; unfold BLOCK_SIZE in *; lia).
  rewrite while_ge_block_spec; [done|done|done|lia|lia].
Qed.

(** ** The shifts never change the shape of the vector *)

Lemma get_bits_keeps n i v :
  keeps_blocks n v ->
  sat (get_bits i v) (fun _ v' => keeps_blocks n v') (fun _ _ => False) True.
Proof.
  intros Hv. unfold get_bits. rewrite bind_run. simpl.
  by destruct (load (m_bits v) i).
Qed.

Lemma get_mask_keeps n i v :
  keeps_blocks n v ->
  sat (get_mask i v) (fun _ v' => keeps_blocks n v') (fun _ _ => False) True.
Proof.
  intros Hv. unfold get_mask. rewrite bind_run. simpl.
  by destruct (load (m_mask v) i).
Qed.

Lemma set_bits_keeps n i x v :
  keeps_blocks n v ->
  sat (set_bits i x v) (fun _ v' => keeps_blocks n v') (fun _ _ => False) True.
Proof.
  intros Hv. unfold set_bits. rewrite bind_run. simpl.
  by destruct (store_at (m_bits v) i x).
Qed.

Lemma blocks_run v : blocks v = Ret (m_blocks v) v.
Proof. reflexivity. Qed.

Ltac keeps_step :=
  lazymatch goal with
  | |- sat ((blocks ≫= _) _) _ _ _ =>
      rewrite (bind_ret blocks _ _ _ _ (blocks_run _))
  | |- sat (((if ?c then _ else _) ≫= _) _) _ _ _ => destruct c
  | |- sat ((_ ≫= _) _) _ _ _ => apply sat_bind
  | |- sat (get_bits _ _) _ _ _ =>
      eapply sat_mono;
      [by apply get_bits_keeps | cbv beta; intros | done | done]
  | |- sat (get_mask _ _) _ _ _ =>
      eapply sat_mono;
      [by apply get_mask_keeps | cbv beta; intros | done | done]
  | |- sat (set_bits _ _ _) _ _ _ =>
      eapply sat_mono;
      [by apply set_bits_keeps | cbv beta; intros | done | done]
  | |- sat ((if ?c then _ else _) _) _ _ _ => destruct c
  | |- sat (mret _ _) _ _ _ => unfold mret, M_ret; cbn [sat]
  end.

Lemma shiftBlocksLeft_keeps t_pos v :
  sat (shiftBlocksLeft t_pos v) (fun _ v' => keeps_blocks (m_blocks v) v')
    (fun _ _ => False) True.
Proof.
  unfold shiftBlocksLeft. rewrite (bind_ret blocks _ _ _ _ (blocks_run v)).
  apply sat_for_range; [|done].
  intros i s Hs. repeat keeps_step; done.
Qed.

Lemma shiftBlocksRight_keeps t_pos v :
  sat (shiftBlocksRight t_pos v) (fun _ v' => keeps_blocks (m_blocks v) v')
    (fun _ _ => False) True.
Proof.
  unfold shiftBlocksRight. rewrite (bind_ret blocks _ _ _ _ (blocks_run v)).
  apply sat_for_range; [|done].
  intros i s Hs. repeat keeps_step; done.
Qed.

(** ** Shift amounts that are multiples of the word width *)

Lemma bind_undefined_after {St A B} (m : M St A) (k : A -> M St B) (s : St)
    (P : St -> Prop) :
  sat (m s) (fun _ s' => P s') (fun _ _ => False) True ->
  (forall a s', P s' -> k a s' = Undefined) ->
  (m ≫= k) s = Undefined.
Proof.
  intros Hm Hk. rewrite bind_run. destruct (m s); simpl in Hm; [auto|done|done].
Qed.

Lemma block_shift_keeps (shift : Z -> M RuntimeBitset unit) q v :
  (forall v, sat (shift q v) (fun _ v' => keeps_blocks (m_blocks v) v')
               (fun _ _ => False) True) ->
  sat ((if decide (q > 0) then shift q else mret tt) v)
    (fun _ v' => keeps_blocks (m_blocks v) v') (fun _ _ => False) True.
Proof. intros H. destruct (decide (q > 0)); [apply H|done]. Qed.

(** With a remainder of 0 the intra-block loop still runs, and its first
    statement shifts a word by [BLOCK_SIZE - 0]. *)
Lemma bitwiseLeft_aligned t_pos v :
  0 <= t_pos < 2 ^ BLOCK_SIZE -> t_pos mod BLOCK_SIZE = 0 ->
  1 <= m_blocks v < 2 ^ (BLOCK_SIZE - 1) ->
  bitwiseLeft t_pos v = Undefined.
Proof.
  intros Ht Hr Hn. unfold bitwiseLeft.
  rewrite (split_position_spec t_pos Ht), Hr.
  erewrite bind_ret by reflexivity. cbv beta iota.
  eapply bind_undefined_after.
  { apply block_shift_keeps, shiftBlocksLeft_keeps. }
  intros [] v' Hv'. unfold keeps_blocks in Hv'.
  rewrite (bind_ret blocks _ _ _ _ (blocks_run v')), Hv'. cbv zeta.
  rewrite (wrap_small (m_blocks v - 1)) by (unfold is_word, BLOCK_SIZE in *; lia).
  rewrite to_ll_small by lia.
  replace (Z.to_nat (m_blocks v - 1 + 1)) with (S (Z.to_nat (m_blocks v - 1)))
    by lia.
  cbn [for_range]. apply bind_undefined. rewrite bind_run.
  unfold get_bits. rewrite (bind_run get). cbn [get].
  destruct (load (m_bits v') (m_blocks v - 1)); [cbn|done].
  rewrite bind_run. unfold get_mask. rewrite (bind_run get). cbn [get].
  by destruct (load (m_mask v') (m_blocks v - 1)).
Qed.

Lemma bitwiseRight_aligned t_pos v :
  0 <= t_pos < 2 ^ BLOCK_SIZE -> t_pos mod BLOCK_SIZE = 0 ->
  1 <= m_blocks v < 2 ^ (BLOCK_SIZE - 1) ->
  bitwiseRight t_pos v = Undefined.
Proof.
  intros Ht Hr Hn. unfold bitwiseRight.
  rewrite (split_position_spec t_pos Ht), Hr.
  erewrite bind_ret by reflexivity. cbv beta iota.
  eapply bind_undefined_after.
  { apply block_shift_keeps, shiftBlocksRight_keeps. }
  intros [] v' Hv'. unfold keeps_blocks in Hv'.
  rewrite (bind_ret blocks _ _ _ _ (blocks_run v')), Hv'.
  rewrite to_ll_small by lia.
  replace (Z.to_nat (m_blocks v)) with (S (Z.to_nat (m_blocks v - 1))) by lia.
  cbn [for_range]. apply bind_undefined. rewrite bind_run.
  unfold get_bits. rewrite (bind_run get). cbn [get].
  destruct (load (m_bits v') 0); [cbn|done].
  rewrite bind_run. unfold get_mask. rewrite (bind_run get). cbn [get].
  by destruct (load (m_mask v') 0).
Qed.

(** ** Concrete runs *)

(** The 8-bit vector [RuntimeBitset(8, 0xFF)]. *)
Example byte_vector :
  RuntimeBitset_size_num 8 255 zero_junk raw =
  Ret tt {| m_bits := Some [255]; m_mask := Some [255];
            m_size := 8; m_blocks := 1 |}.
Proof. reflexivity. Qed.

(** C1. Running the shifts of the 8-bit vector [RuntimeBitset(8, 0xFF)]
    with a shift amount whose remainder modulo the word width is 0 (0 and
    64) ends in undefined behaviour: the intra-block loop is not bypassed,
    and its first statement is a native shift of the masked block by
    [BLOCK_SIZE - 0], the full word width.  A shift by 4 returns
    normally. *)
Theorem aligned_shift_runs_full_width_shift :
  let v := {| m_bits := Some [255]; m_mask := Some [255];
              m_size := 8; m_blocks := 1 |} in
  bitwiseLeft 0 v = Undefined /\ bitwiseRight 0 v = Undefined /\
  bitwiseLeft 64 v = Undefined /\ bitwiseRight 64 v = Undefined /\
  shr (Z.land 255 255) (wrap (BLOCK_SIZE - 0)) = None /\
  shl (Z.land 255 255) (wrap (BLOCK_SIZE - 0)) = None /\
  bitwiseLeft 4 v = Ret tt (with_bits (Some [4080]) v).
Proof. repeat split; vm_compute; reflexivity. Qed.

(** C2. Shifting the 65-bit vector with only bit 0 set by 0 positions,
    in place or into a copy, in either direction, does not return the
    vector: the run ends in undefined behaviour. *)
Theorem shift_by_zero_is_undefined :
  let v := {| m_bits := Some [1; 0]; m_mask := Some [ALL_BITS_ONE; 1];
              m_size := 65; m_blocks := 2 |} in
  (RuntimeBitset_size 65 zero_junk;; set_pos 0) raw = Ret tt v /\
  shl_assign 0 v = Undefined /\ shr_assign 0 v = Undefined /\
  operator_shl 0%nat 0 zero_junk {[ 0%nat := v ]} = Undefined /\
  operator_shr 0%nat 0 zero_junk {[ 0%nat := v ]} = Undefined.
Proof. repeat split; vm_compute; reflexivity. Qed.

(** The same defect at the width of the word: as the language defines
    it, the run that shifts the 8-bit vector [RuntimeBitset(8, 0xFF)] by
    64, or the 64-bit vector with every bit set by 64, ends in undefined
    behaviour, in place and into a copy. *)
Theorem shift_by_word_width_is_undefined :
  let v8 := {| m_bits := Some [255]; m_mask := Some [255];
               m_size := 8; m_blocks := 1 |} in
  let v64 := {| m_bits := Some [ALL_BITS_ONE]; m_mask := Some [ALL_BITS_ONE];
                m_size := 64; m_blocks := 1 |} in
  (RuntimeBitset_default zero_junk;; set_all) raw = Ret tt v64 /\
  shl_assign 64 v8 = Undefined /\ shr_assign 64 v8 = Undefined /\
  shl_assign 64 v64 = Undefined /\ shr_assign 64 v64 = Undefined /\
  operator_shl 0%nat 64 zero_junk {[ 0%nat := v8 ]} = Undefined /\
  operator_shr 0%nat 64 zero_junk {[ 0%nat := v8 ]} = Undefined.
Proof. repeat split; vm_compute; reflexivity. Qed.

(** C4. [RuntimeBitset(65, 0)], built where the memory handed out by
    [new] holds the word 1, has a second block equal to 1 and not to 0,
    and [test(64)] is true: the constructor writes block 0 and leaves
    the other blocks as allocated. *)
Theorem seeded_constructor_keeps_uninitialised_blocks :
  let v := {| m_bits := Some [0; 1]; m_mask := Some [ALL_BITS_ONE; 1];
              m_size := 65; m_blocks := 2 |} in
  RuntimeBitset_size_num 65 0 ones_junk raw = Ret tt v /\
  test 64 v = Ret true v.
Proof. repeat split; vm_compute; reflexivity. Qed.

(** C5. The 1-bit vector [RuntimeBitset(1)] prints as ["0"]; the vector
    built from that string, where the memory handed out by [new] holds
    the word 1, has bit 0 set and prints as ["1"]: [buildFromString]
    only ORs the ['1'] digits into the blocks as allocated. *)
Theorem string_round_trip_keeps_uninitialised_blocks :
  let v := {| m_bits := Some [0]; m_mask := Some [1];
              m_size := 1; m_blocks := 1 |} in
  let v' := {| m_bits := Some [1]; m_mask := Some [1];
               m_size := 1; m_blocks := 1 |} in
  RuntimeBitset_size 1 zero_junk raw = Ret tt v /\
  to_string v = Ret (str "0") v /\
  RuntimeBitset_string (str "0") ones_junk raw = Ret tt v' /\
  test 0 v = Ret false v /\ test 0 v' = Ret true v' /\
  to_string v' = Ret (str "1") v'.
Proof. repeat split; vm_compute; reflexivity. Qed.

(** ** Loops that only read the vector *)

Lemma for_fold_list {St A X} (L : list X) (f : A -> X -> A)
    (body : Z -> A -> M St A) (i step : Z) (s : St) (acc : A) :
  (forall k x a, L !! k = Some x ->
     body (i + Z.of_nat k * step) a s = Ret (f a x) s) ->
  for_fold (length L) i step body acc s = Ret (fold_left f L acc) s.
Proof.
  revert i acc. induction L as [|x L IH]; intros i acc Hbody; [done|].
  cbn [length for_fold fold_left].
  pose proof (Hbody 0%nat x acc eq_refl) as H0.
  replace (i + Z.of_nat 0 * step) with i in H0 by lia.
  rewrite (bind_ret _ _ _ _ _ H0). apply IH.
  intros k y a Hk. rewrite <- (Hbody (S k) y a Hk). f_equal. lia.
Qed.

Lemma for_return_list_none {St A X} (L : list X) (body : Z -> M St (option A))
    (after : M St A) (i step : Z) (s : St) :
  (forall k x, L !! k = Some x -> body (i + Z.of_nat k * step) s = Ret None s) ->
  for_return (length L) i step body after s = after s.
Proof.
  revert i. induction L as [|x L IH]; intros i Hbody; [done|].
  cbn [length for_return].
  pose proof (Hbody 0%nat x eq_refl) as H0.
  replace (i + Z.of_nat 0 * step) with i in H0 by lia.
  rewrite (bind_ret _ _ _ _ _ H0). apply IH.
  intros k y Hk. rewrite <- (Hbody (S k) y Hk). f_equal. lia.
Qed.

Lemma get_bits_run v l i b :
  m_bits v = Some l -> l !! i = Some b -> get_bits (Z.of_nat i) v = Ret b v.
Proof.
  intros Hl Hb. unfold get_bits. rewrite bind_run. cbn [get].
  unfold load. rewrite Hl, decide_True by lia. by rewrite Nat2Z.id, Hb.
Qed.

Lemma get_mask_run v l i b :
  m_mask v = Some l -> l !! i = Some b -> get_mask (Z.of_nat i) v = Ret b v.
Proof.
  intros Hl Hb. unfold get_mask. rewrite bind_run. cbn [get].
  unfold load. rewrite Hl, decide_True by lia. by rewrite Nat2Z.id, Hb.
Qed.

Lemma set_bits_run v l i x :
  m_bits v = Some l -> (i < length l)%nat ->
  set_bits (Z.of_nat i) x v = Ret tt (with_bits (Some (<[i := x]> l)) v).
Proof.
  intros Hl Hi. unfold set_bits. rewrite bind_run. cbn [get].
  unfold store_at. rewrite Hl, decide_True by lia. by rewrite Nat2Z.id.
Qed.

Lemma set_mask_run v l i x :
  m_mask v = Some l -> (i < length l)%nat ->
  set_mask (Z.of_nat i) x v = Ret tt (with_mask (Some (<[i := x]> l)) v).
Proof.
  intros Hl Hi. unfold set_mask. rewrite bind_run. cbn [get].
  unfold store_at. rewrite Hl, decide_True by lia. by rewrite Nat2Z.id.
Qed.

(** A vector whose two arrays are allocated with [m_blocks] cells. *)
Lemma count_run v l ms :
  m_bits v = Some l -> m_mask v = Some ms ->
  Z.of_nat (length l) = m_blocks v -> length ms = length l ->
  count v =
  Ret (fold_left (fun acc x => count_block (Z.to_nat BLOCK_SIZE) x acc)
         (zip_with Z.land l ms) 0) v.
Proof.
  intros Hl Hms Hn Hlen. unfold count.
  rewrite (bind_ret blocks _ _ _ _ (blocks_run v)), <- Hn, Nat2Z.id.
  replace (length l) with (length (zip_with Z.land l ms))
    by (rewrite length_zip_with; lia).
  apply for_fold_list. intros k x a Hk.
  apply lookup_zip_with_Some in Hk as (b & m & -> & Hb & Hm).
  replace (0 + Z.of_nat k * 1) with (Z.of_nat k) by lia.
  rewrite (bind_ret _ _ _ _ _ (get_bits_run v l k b Hl Hb)).
  by rewrite (bind_ret _ _ _ _ _ (get_mask_run v ms k m Hms Hm)).
Qed.

Lemma to_string_run v l ms :
  m_bits v = Some l -> m_mask v = Some ms ->
  Z.of_nat (length l) = m_blocks v -> length ms = length l ->
  m_blocks v < 2 ^ (BLOCK_SIZE - 1) ->
  to_string v =
  Ret (fold_left
         (fun (s : list ascii) (xm : Z * Z) =>
            s ++ reverse (to_string_block (Z.to_nat BLOCK_SIZE) xm.1 xm.2 []))
         (reverse (zip (zip_with Z.land l ms) ms)) []) v.
Proof.
  intros Hl Hms Hn Hlen Hbig. unfold to_string.
  rewrite (bind_ret blocks _ _ _ _ (blocks_run v)). cbv zeta.
  assert (length (reverse (zip (zip_with Z.land l ms) ms)) = length l) as HL.
  { rewrite length_reverse, length_zip_with, length_zip_with. lia. }
  destruct (decide (m_blocks v = 0)) as [H0|H0].
  - rewrite H0 in *. destruct l; [|simpl in Hn; lia]. by destruct ms.
  - rewrite (wrap_small (m_blocks v - 1))
      by (unfold is_word, BLOCK_SIZE in *; lia).
    rewrite to_ll_small by lia.
    replace (Z.to_nat (m_blocks v - 1 + 1)) with (length l) by lia.
    rewrite <- HL.
    apply for_fold_list. intros k [x m] a Hk.
    assert (k < length l)%nat as Hlt
      by (apply lookup_lt_Some in Hk; by rewrite HL in Hk).
    rewrite reverse_lookup in Hk
      by (rewrite length_zip_with, length_zip_with; lia).
    rewrite length_zip_with, length_zip_with in Hk.
    replace (_ - S k)%nat with (length l - S k)%nat in Hk by lia.
    apply lookup_zip_with_Some in Hk as (x' & m' & Heq & Hx & Hm).
    inversion Heq; subst x' m'; clear Heq.
    apply lookup_zip_with_Some in Hx as (b & m'' & -> & Hb & Hm').
    assert (m'' = m) as -> by congruence.
    replace (m_blocks v - 1 + Z.of_nat k * -1)
      with (Z.of_nat (length l - S k)) by lia.
    rewrite (bind_ret _ _ _ _ _ (get_bits_run v l _ b Hl Hb)).
    rewrite (bind_ret _ _ _ _ _ (get_mask_run v ms _ m Hms Hm)).
    by rewrite (bind_ret _ _ _ _ _ (get_mask_run v ms _ m Hms Hm)).
Qed.

(** ** Counting bits *)

Lemma popcount_bounds n x : 0 <= popcount n x <= Z.of_nat n.
Proof.
  revert x. induction n as [|n IH]; intros x; [simpl; lia|].
  cbn [popcount]. specialize (IH (Z.shiftr x 1)). destruct (Z.odd x); lia.
Qed.

Lemma odd_mod2 x : x mod 2 ≠ 0 <-> Z.odd x = true.
Proof. rewrite Zmod_odd. destruct (Z.odd x); split; (done || lia). Qed.

Lemma count_block_popcount n x acc :
  0 <= acc -> acc + Z.of_nat n < 2 ^ BLOCK_SIZE ->
  count_block n x acc = acc + popcount n x.
Proof.
  revert x acc. induction n as [|n IH]; intros x acc H0 Hlt.
  - simpl. lia.
  - cbn [count_block popcount].
    destruct (decide (x mod 2 ≠ 0)) as [Ho|Ho]; rewrite odd_mod2 in Ho.
    + rewrite Ho, wrap_small by (unfold is_word; lia). rewrite IH by lia. lia.
    + apply not_true_is_false in Ho. rewrite Ho, IH by lia. lia.
Qed.

Lemma count_ones_app s1 s2 : count_ones (s1 ++ s2) = count_ones s1 + count_ones s2.
Proof. unfold count_ones. rewrite filter_app, length_app. lia. Qed.

Lemma count_ones_reverse s : count_ones (reverse s) = count_ones s.
Proof. unfold count_ones. by rewrite filter_reverse, length_reverse. Qed.

Lemma count_ones_chr0 : count_ones [chr0] = 0.
Proof. by vm_compute. Qed.

Lemma count_ones_chr1 : count_ones [chr1] = 1.
Proof. by vm_compute. Qed.

Lemma odd_land b m : Z.odd (Z.land b m) = Z.odd b && Z.odd m.
Proof. by rewrite <- !Z.bit0_odd, Z.land_spec. Qed.

Lemma to_string_block_ones n b m buffer :
  count_ones (to_string_block n b m buffer)
  = count_ones buffer + popcount n (Z.land b m).
Proof.
  revert b m buffer. induction n as [|n IH]; intros b m buffer.
  - simpl. lia.
  - cbn [to_string_block popcount]. rewrite IH, <- Z.shiftr_land, odd_land.
    destruct (decide (m mod 2 ≠ 0)) as [Hm|Hm]; rewrite odd_mod2 in Hm;
      [rewrite Hm|apply not_true_is_false in Hm; rewrite Hm].
    + destruct (decide (b mod 2 ≠ 0)) as [Hb|Hb]; rewrite odd_mod2 in Hb;
        [rewrite Hb|apply not_true_is_false in Hb; rewrite Hb];
        rewrite count_ones_app, ?count_ones_chr0, ?count_ones_chr1;
        cbn [andb]; lia.
    + rewrite andb_false_r. lia.
Qed.

Lemma count_fold_popcount_gen (n : nat) mb acc :
  0 <= acc -> acc + Z.of_nat n * Z.of_nat (length mb) < 2 ^ BLOCK_SIZE ->
  fold_left (fun acc x => count_block n x acc) mb acc
  = acc + foldr (fun x r => popcount n x + r) 0 mb.
Proof.
  revert acc. induction mb as [|x mb IH]; intros acc H0 Hlt.
  - simpl. lia.
  - cbn [fold_left foldr]. cbn [length] in Hlt.
    pose proof (popcount_bounds n x) as Hp.
    rewrite count_block_popcount by lia.
    rewrite IH by lia. lia.
Qed.

Lemma count_fold_popcount mb acc :
  0 <= acc -> acc + BLOCK_SIZE * Z.of_nat (length mb) < 2 ^ BLOCK_SIZE ->
  fold_left (fun acc x => count_block (Z.to_nat BLOCK_SIZE) x acc) mb acc
  = acc + popcount_blocks mb.
Proof.
  intros H0 Hlt. unfold popcount_blocks.
  apply count_fold_popcount_gen; [done|].
  by rewrite Z2Nat.id by (unfold BLOCK_SIZE; lia).
Qed.

Lemma sum_blocks_app {X} (p : X -> Z) (l1 l2 : list X) :
  foldr (fun x r => p x + r) 0 (l1 ++ l2)
  = foldr (fun x r => p x + r) 0 l1 + foldr (fun x r => p x + r) 0 l2.
Proof. induction l1 as [|x l1 IH]; cbn [app foldr]; lia. Qed.

Lemma popcount_blocks_app l1 l2 :
  popcount_blocks (l1 ++ l2) = popcount_blocks l1 + popcount_blocks l2.
Proof. apply sum_blocks_app. Qed.

Lemma popcount_blocks_cons x l :
  popcount_blocks (x :: l)
  = popcount (Z.to_nat BLOCK_SIZE) x + popcount_blocks l.
Proof. reflexivity. Qed.

Lemma popcount_blocks_reverse l : popcount_blocks (reverse l) = popcount_blocks l.
Proof.
  induction l as [|x l IH]; [done|].
  rewrite reverse_cons, popcount_blocks_app, IH, !popcount_blocks_cons.
  change (popcount_blocks []) with 0. lia.
Qed.

Lemma string_fold_ones (L : list (Z * Z)) (s : list ascii) :
  count_ones
    (fold_left
       (fun (s : list ascii) (xm : Z * Z) =>
          s ++ reverse (to_string_block (Z.to_nat BLOCK_SIZE) xm.1 xm.2 []))
       L s)
  = count_ones s
    + popcount_blocks ((fun xm : Z * Z => Z.land xm.1 xm.2) <$> L).
Proof.
  revert s. induction L as [|[x m] L IH]; intros s.
  - cbn [fold_left fmap list_fmap]. change (popcount_blocks []) with 0. lia.
  - cbn [fold_left fmap list_fmap fst snd].
    rewrite IH, count_ones_app, count_ones_reverse, to_string_block_ones.
    rewrite popcount_blocks_cons. change (count_ones []) with 0. lia.
Qed.

(** Masking a masked block again changes nothing. *)
Lemma remask l ms :
  (fun xm : Z * Z => Z.land xm.1 xm.2) <$> zip (zip_with Z.land l ms) ms
  = zip_with Z.land l ms.
Proof.
  revert ms. induction l as [|b l IH]; intros [|m ms]; [done..|].
  cbn. rewrite <- Z.land_assoc, Z.land_diag. f_equal. apply IH.
Qed.

Lemma string_ones_eq_count l ms :
  BLOCK_SIZE * Z.of_nat (length l) < 2 ^ BLOCK_SIZE ->
  count_ones
    (fold_left
       (fun (s : list ascii) (xm : Z * Z) =>
          s ++ reverse (to_string_block (Z.to_nat BLOCK_SIZE) xm.1 xm.2 []))
       (reverse (zip (zip_with Z.land l ms) ms)) [])
  = fold_left (fun acc x => count_block (Z.to_nat BLOCK_SIZE) x acc)
      (zip_with Z.land l ms) 0.
Proof.
  intros Hlen.
  rewrite string_fold_ones, count_fold_popcount; [|done|].
  - by rewrite fmap_reverse, popcount_blocks_reverse, remask.
  - rewrite length_zip_with. unfold BLOCK_SIZE in *. lia.
Qed.

(** ** The class invariant *)

Lemma num_blocks_bounds n :
  1 <= n <= 2 ^ BLOCK_SIZE - BLOCK_SIZE ->
  1 <= num_blocks n < 2 ^ (BLOCK_SIZE - 6) /\
  (num_blocks n - 1) * BLOCK_SIZE < n <= num_blocks n * BLOCK_SIZE.
Proof.
  unfold num_blocks, BLOCK_SIZE. intros Hn.
  change (2 ^ (64 - 6)) with 288230376151711744.
  change (2 ^ 64) with 18446744073709551616 in Hn.
  pose proof (Z.div_mod (n + 64 - 1) 64 ltac:(lia)).
  pose proof (Z.mod_pos_bound (n + 64 - 1) 64 ltac:(lia)).
  lia.
Qed.

Lemma length_mask_of n :
  1 <= n <= 2 ^ BLOCK_SIZE - BLOCK_SIZE ->
  length (mask_of n) = Z.to_nat (num_blocks n).
Proof.
  intros Hn. pose proof (num_blocks_bounds n Hn) as [Hb _].
  unfold mask_of. rewrite length_app, length_replicate. simpl. lia.
Qed.

Lemma wf_shape v :
  wf v ->
  exists l,
    m_bits v = Some l /\ m_mask v = Some (mask_of (m_size v)) /\
    Z.of_nat (length l) = m_blocks v /\
    length (mask_of (m_size v)) = length l /\
    1 <= m_blocks v < 2 ^ (BLOCK_SIZE - 6) /\ Forall is_word l.
Proof.
  intros (Hsize & Hblocks & Hmask & Hbits).
  destruct (m_bits v) as [l|] eqn:Hl; [|done]. destruct Hbits as [Hlen Hw].
  pose proof (num_blocks_bounds _ Hsize) as [Hb _].
  exists l. repeat split; try done; try lia.
  rewrite length_mask_of by done. lia.
Qed.

(** ** [count] and [to_string] *)

(** C6. For a vector that satisfies the class invariant, [count] and
    [to_string] return, leave the vector unchanged, and the count is the
    number of ['1'] characters of the string.  Both results depend on the
    masked blocks only: a second vector with the same mask and the same
    blocks after masking (whatever its bits outside the mask) yields the
    same count and the same string. *)
Theorem count_equals_ones_of_to_string (v : RuntimeBitset) :
  wf v ->
  exists (n : Z) (s : list ascii),
    count v = Ret n v /\ to_string v = Ret s v /\ n = count_ones s /\
    forall v', wf v' -> same_significant v v' ->
      count v' = Ret n v' /\ to_string v' = Ret s v'.
Proof.
  intros Hwf.
  destruct (wf_shape v Hwf) as (l & Hl & Hms & Hlen & Hlm & Hn & _).
  assert (m_blocks v < 2 ^ (BLOCK_SIZE - 1)) as Hbig.
  { unfold BLOCK_SIZE in *. simpl in *. lia. }
  eexists _, _. split; [|split; [|split]].
  - by apply (count_run v l (mask_of (m_size v))).
  - by apply (to_string_run v l (mask_of (m_size v))).
  - symmetry. apply string_ones_eq_count.
    unfold BLOCK_SIZE in *. simpl in *. lia.
  - intros v' Hwf' (Hsz & Hbl & Hmk & Hmb).
    destruct (wf_shape v' Hwf') as (l' & Hl' & Hms' & Hlen' & Hlm' & _).
    unfold masked_blocks in Hmb. rewrite Hl, Hl', Hms, Hms', Hsz in Hmb.
    injection Hmb as Hmb. rewrite Hsz in Hms', Hlm'.
    rewrite (count_run v' l' (mask_of (m_size v))) by (done || lia).
    rewrite (to_string_run v' l' (mask_of (m_size v))) by (done || lia).
    by rewrite Hmb.
Qed.

Lemma count_equals_ones_of_to_string_witness :
  wf bits8 /\
  exists (n : Z) (s : list ascii),
    count bits8 = Ret n bits8 /\ to_string bits8 = Ret s bits8 /\
    n = count_ones s /\
    forall v', wf v' -> same_significant bits8 v' ->
      count v' = Ret n v' /\ to_string v' = Ret s v'.
Proof.
  assert (wf bits8) as Hwf.
  { unfold wf, bits8; cbn [m_bits m_mask m_size m_blocks].
    split; [unfold BLOCK_SIZE; lia|].
    split; [reflexivity|]. split; [reflexivity|]. split; [reflexivity|].
    repeat constructor; unfold is_word, BLOCK_SIZE; lia. }
  split; [exact Hwf|]. apply (count_equals_ones_of_to_string bits8 Hwf).
Defined.

(** ** Loops that write the vector *)

Lemma sat_for_range_idx {St} (I : nat -> St -> Prop) E U n i step
    (body : Z -> M St unit) :
  (forall k s, (k < n)%nat -> I k s ->
     sat (body (i + Z.of_nat k * step) s) (fun _ s' => I (S k) s') E U) ->
  forall s, I 0%nat s ->
    sat (for_range n i step body s) (fun _ s' => I n s') E U.
Proof.
  revert I i. induction n as [|n IH]; intros I i Hbody s Hs; [done|].
  cbn [for_range]. apply sat_bind.
  pose proof (Hbody 0%nat s ltac:(lia) Hs) as H0.
  replace (i + Z.of_nat 0 * step) with i in H0 by lia.
  eapply sat_mono; [exact H0| |done|done].
  intros [] s' Hs'. apply (IH (fun k => I (S k))); [|done].
  intros k s'' Hk Hs''.
  replace (i + step + Z.of_nat k * step) with (i + Z.of_nat (S k) * step)
    by lia.
  apply Hbody; [lia|done].
Qed.

(** The same for loops whose body always returns. *)
Lemma for_range_run {St} (I : nat -> St -> Prop) n i step
    (body : Z -> M St unit) :
  (forall k s, (k < n)%nat -> I k s ->
     exists s', body (i + Z.of_nat k * step) s = Ret tt s' /\ I (S k) s') ->
  forall s, I 0%nat s ->
    exists s', for_range n i step body s = Ret tt s' /\ I n s'.
Proof.
  intros Hbody s Hs.
  assert (forall k s, (k < n)%nat -> I k s ->
            sat (body (i + Z.of_nat k * step) s) (fun _ s' => I (S k) s')
              (fun _ _ => False) False) as Hsat.
  { intros k s0 Hk Hs0. by destruct (Hbody k s0 Hk Hs0) as (s1 & -> & Hs1). }
  pose proof (sat_for_range_idx I _ _ n i step body Hsat s Hs) as H.
  destruct (for_range n i step body s) as [[] s'| |]; simpl in H; [|done..].
  by exists s'.
Qed.

Lemma with_bits_with_bits a b v : with_bits a (with_bits b v) = with_bits a v.
Proof. reflexivity. Qed.

Lemma with_mask_with_mask a b v : with_mask a (with_mask b v) = with_mask a v.
Proof. reflexivity. Qed.

Lemma fill_step {A} (l : list A) (k : nat) (x : A) :
  (k < length l)%nat ->
  <[k := x]> (replicate k x ++ drop k l) = replicate (S k) x ++ drop (S k) l.
Proof.
  intros Hk. apply list_eq. intros i.
  destruct (decide (i = k)) as [->|Hne].
  - rewrite list_lookup_insert_eq
      by (rewrite length_app, length_replicate, length_drop; lia).
    rewrite lookup_app_l by (rewrite length_replicate; lia).
    by rewrite lookup_replicate_2 by lia.
  - rewrite list_lookup_insert_ne by done.
    destruct (decide (i < k)%nat).
    + rewrite !lookup_app_l by (rewrite length_replicate; lia).
      by rewrite !lookup_replicate_2 by lia.
    + rewrite !lookup_app_r by (rewrite length_replicate; lia).
      rewrite !length_replicate, !lookup_drop. f_equal. lia.
Qed.

(** [for (i = 0; i < n; ++i) m_bits[i] = x;] over the whole array. *)
Lemma fill_bits_run v l x :
  m_bits v = Some l ->
  for_range (length l) 0 1 (fun i => set_bits i x) v
  = Ret tt (with_bits (Some (replicate (length l) x)) v).
Proof.
  intros Hl.
  destruct (for_range_run
              (fun k s => s = with_bits (Some (replicate k x ++ drop k l)) v)
              (length l) 0 1 (fun i => set_bits i x)) with (s := v)
    as (s' & -> & ->).
  - intros k s Hk ->. replace (0 + Z.of_nat k * 1) with (Z.of_nat k) by lia.
    eexists. split; [|reflexivity].
    erewrite set_bits_run; [|reflexivity|].
    + by rewrite with_bits_with_bits, fill_step.
    + rewrite length_app, length_replicate, length_drop. lia.
  - rewrite drop_0. by destruct v; simpl in *; subst.
  - by rewrite drop_all, app_nil_r.
Qed.

Lemma fill_mask_run v l x :
  m_mask v = Some l ->
  for_range (length l) 0 1 (fun i => set_mask i x) v
  = Ret tt (with_mask (Some (replicate (length l) x)) v).
Proof.
  intros Hl.
  destruct (for_range_run
              (fun k s => s = with_mask (Some (replicate k x ++ drop k l)) v)
              (length l) 0 1 (fun i => set_mask i x)) with (s := v)
    as (s' & -> & ->).
  - intros k s Hk ->. replace (0 + Z.of_nat k * 1) with (Z.of_nat k) by lia.
    eexists. split; [|reflexivity].
    erewrite set_mask_run; [|reflexivity|].
    + by rewrite with_mask_with_mask, fill_step.
    + rewrite length_app, length_replicate, length_drop. lia.
  - rewrite drop_0. by destruct v; simpl in *; subst.
  - by rewrite drop_all, app_nil_r.
Qed.

Lemma set_all_run v l :
  m_bits v = Some l -> Z.of_nat (length l) = m_blocks v ->
  set_all v = Ret tt (with_bits (Some (replicate (length l) ALL_BITS_ONE)) v).
Proof.
  intros Hl Hn. unfold set_all.
  rewrite (bind_ret blocks _ _ _ _ (blocks_run v)), <- Hn, Nat2Z.id.
  by apply fill_bits_run.
Qed.

Lemma clean_run v l :
  m_bits v = Some l -> Z.of_nat (length l) = m_blocks v ->
  clean v = Ret tt (with_bits (Some (replicate (length l) 0)) v).
Proof.
  intros Hl Hn. unfold clean.
  rewrite (bind_ret blocks _ _ _ _ (blocks_run v)), <- Hn, Nat2Z.id.
  by apply fill_bits_run.
Qed.

(** ** The masks *)

Lemma ones_is_word k : 0 <= k <= BLOCK_SIZE -> is_word (Z.ones k).
Proof.
  intros Hk. unfold is_word. rewrite Z.ones_equiv.
  assert (0 < 2 ^ k) by (apply Z.pow_pos_nonneg; lia).
  assert (2 ^ k <= 2 ^ BLOCK_SIZE) by (apply Z.pow_le_mono_r; lia).
  lia.
Qed.

Lemma ones_step k : 1 <= k -> Z.ones k = 2 * Z.ones (k - 1) + 1.
Proof.
  intros Hk. rewrite !Z.ones_equiv.
  replace k with (Z.succ (k - 1)) at 1 by lia.
  rewrite Z.pow_succ_r by lia. lia.
Qed.

Lemma land_ALL m : is_word m -> Z.land ALL_BITS_ONE m = m.
Proof.
  intros Hm. rewrite ALL_BITS_ONE_eq, Z.land_comm, Z.land_ones
    by (unfold BLOCK_SIZE; lia).
  by apply Z.mod_small.
Qed.

Lemma mask_of_words n :
  1 <= n <= 2 ^ BLOCK_SIZE - BLOCK_SIZE ->
  Forall (fun m => is_word m /\ m ≠ 0) (mask_of n).
Proof.
  intros Hn. pose proof (num_blocks_bounds n Hn) as [Hb Hr].
  unfold mask_of. apply Forall_app. split.
  - apply Forall_replicate. by vm_compute.
  - apply Forall_singleton. split.
    + apply ones_is_word. unfold BLOCK_SIZE in *. lia.
    + rewrite ones_step by lia.
      pose proof (ones_is_word (n - (num_blocks n - 1) * BLOCK_SIZE - 1)
                    ltac:(unfold BLOCK_SIZE in *; lia)) as [? _].
      lia.
Qed.

Lemma popcount_zero n : popcount n 0 = 0.
Proof. induction n as [|n IH]; [done|]. cbn [popcount]. by rewrite Z.shiftr_0_l, IH. Qed.

Lemma popcount_ones n k :
  0 <= k -> popcount n (Z.ones k) = Z.min (Z.of_nat n) k.
Proof.
  revert k. induction n as [|n IH]; intros k Hk; [simpl; lia|].
  cbn [popcount]. destruct (decide (k = 0)) as [->|Hne].
  - change (Z.ones 0) with 0. rewrite Z.shiftr_0_l, popcount_zero. simpl. lia.
  - rewrite (ones_step k) by lia.
    replace (Z.odd (2 * Z.ones (k - 1) + 1)) with true
      by (rewrite Z.add_comm, Z.odd_add_mul_2; done).
    replace (Z.shiftr (2 * Z.ones (k - 1) + 1) 1) with (Z.ones (k - 1)).
    + rewrite IH by lia. lia.
    + rewrite Z.shiftr_div_pow2 by lia. change (2 ^ 1) with 2.
      apply (Z.div_unique_pos _ _ _ 1); lia.
Qed.

Lemma popcount_blocks_replicate k :
  popcount_blocks (replicate k ALL_BITS_ONE) = BLOCK_SIZE * Z.of_nat k.
Proof.
  induction k as [|k IH]; [done|].
  cbn [replicate popcount_blocks foldr]. fold (popcount_blocks (replicate k ALL_BITS_ONE)).
  rewrite IH. replace (popcount (Z.to_nat BLOCK_SIZE) ALL_BITS_ONE) with BLOCK_SIZE
    by (by vm_compute).
  lia.
Qed.

Lemma popcount_blocks_mask_of n :
  1 <= n <= 2 ^ BLOCK_SIZE - BLOCK_SIZE -> popcount_blocks (mask_of n) = n.
Proof.
  intros Hn. pose proof (num_blocks_bounds n Hn) as [Hb Hr].
  unfold mask_of. rewrite popcount_blocks_app, popcount_blocks_replicate.
  cbn [popcount_blocks foldr]. rewrite popcount_ones by lia.
  unfold BLOCK_SIZE in *. lia.
Qed.

Lemma land_ALL_list ms :
  Forall (fun m => is_word m /\ m ≠ 0) ms ->
  zip_with Z.land (replicate (length ms) ALL_BITS_ONE) ms = ms.
Proof.
  induction 1 as [|m ms [Hm _] _ IH]; [done|].
  cbn. by rewrite land_ALL, IH.
Qed.

(** ** The whole-vector [set()] *)

(** C10. For a vector that satisfies the class invariant, [set()] writes
    [ALL_BITS_ONE] into every block, bits outside the mask of the last
    block included, and on the result [all()] returns true, [count()]
    returns the value of [size()], and [none()] returns false. *)
Theorem set_all_then_masked_reads (v : RuntimeBitset) :
  wf v ->
  exists v',
    set_all v = Ret tt v' /\
    m_bits v' = Some (replicate (Z.to_nat (m_blocks v)) ALL_BITS_ONE) /\
    all v' = Ret true v' /\
    count v' = Ret (m_size v) v' /\ size v' = Ret (m_size v) v' /\
    none v' = Ret false v'.
Proof.
  intros Hwf.
  destruct (wf_shape v Hwf) as (l & Hl & Hms & Hlen & Hlm & Hn & _).
  destruct Hwf as (Hsize & _).
  pose proof (mask_of_words _ Hsize) as Hwords.
  set (ms := mask_of (m_size v)) in *.
  set (v' := with_bits (Some (replicate (length l) ALL_BITS_ONE)) v).
  assert (m_bits v' = Some (replicate (length l) ALL_BITS_ONE)) as Hl' by done.
  assert (m_mask v' = Some ms) as Hms' by done.
  assert (forall k m, ms !! k = Some m ->
            get_bits (Z.of_nat k) v' = Ret ALL_BITS_ONE v' /\
            get_mask (Z.of_nat k) v' = Ret m v' /\
            Z.land ALL_BITS_ONE m = m /\ m ≠ 0) as Hread.
  { intros k m Hk. pose proof (lookup_lt_Some _ _ _ Hk).
    destruct (proj1 (Forall_lookup _ _) Hwords k m Hk) as [Hw Hnz].
    repeat split; [| |by apply land_ALL|done].
    - apply (get_bits_run v' _ k _ Hl'), lookup_replicate_2. lia.
    - by apply (get_mask_run v' ms k m Hms'). }
  exists v'. split; [|split; [|split; [|split; [|split]]]].
  - by apply set_all_run.
  - simpl. f_equal. f_equal. lia.
  - unfold all. rewrite (bind_ret blocks _ _ _ _ (blocks_run v')).
    replace (Z.to_nat (m_blocks v')) with (length ms) by (simpl; lia).
    rewrite (for_return_list_none ms); [done|].
    intros k m Hk. destruct (Hread k m Hk) as (Hb & Hm & Hland & _).
    replace (0 + Z.of_nat k * 1) with (Z.of_nat k) by lia.
    rewrite (bind_ret _ _ _ _ _ Hb), (bind_ret _ _ _ _ _ Hm),
      (bind_ret _ _ _ _ _ Hm), Hland.
    by rewrite decide_False by (intros H; by apply H).
  - rewrite (count_run v' _ ms Hl' Hms')
      by (rewrite ?length_replicate; simpl; lia).
    rewrite <- Hlm, land_ALL_list by done.
    rewrite count_fold_popcount; [|done|].
    + unfold ms. by rewrite popcount_blocks_mask_of by done.
    + unfold BLOCK_SIZE in *. simpl in *. lia.
  - done.
  - unfold none. rewrite (bind_ret blocks _ _ _ _ (blocks_run v')).
    replace (Z.to_nat (m_blocks v')) with (S (Z.to_nat (m_blocks v') - 1))
      by (simpl; lia).
    cbn [for_return].
    destruct (ms !! 0%nat) as [m|] eqn:Hm0;
      [|apply lookup_ge_None in Hm0; lia].
    destruct (Hread 0%nat m Hm0) as (Hb & Hm & Hland & Hnz).
    change (Z.of_nat 0) with 0 in Hb, Hm.
    assert ((b ← get_bits 0; m ← get_mask 0;
             if decide (Z.land b m ≠ 0) then mret (Some false)
             else mret (M := M RuntimeBitset) None) v'
            = Ret (Some false) v') as Hbody.
    { rewrite (bind_ret _ _ _ _ _ Hb), (bind_ret _ _ _ _ _ Hm), Hland.
      by rewrite decide_True. }
    by rewrite (bind_ret _ _ _ _ _ Hbody).
Qed.

Lemma set_all_then_masked_reads_witness :
  wf bits65 /\
  exists v',
    set_all bits65 = Ret tt v' /\
    m_bits v' = Some (replicate (Z.to_nat (m_blocks bits65)) ALL_BITS_ONE) /\
    all v' = Ret true v' /\
    count v' = Ret (m_size bits65) v' /\ size v' = Ret (m_size bits65) v' /\
    none v' = Ret false v'.
Proof.
  assert (wf bits65) as Hwf.
  { unfold wf, bits65; cbn [m_bits m_mask m_size m_blocks].
    split; [unfold BLOCK_SIZE; lia|].
    split; [reflexivity|]. split; [reflexivity|]. split; [reflexivity|].
    repeat constructor; unfold is_word, BLOCK_SIZE; lia. }
  split; [exact Hwf|]. apply (set_all_then_masked_reads bits65 Hwf).
Defined.

(** ** Construction *)

Lemma getNumberBlocks_loop_spec fuel i c n :
  1 <= n <= 2 ^ BLOCK_SIZE - BLOCK_SIZE ->
  0 <= c -> i = BLOCK_SIZE * c -> i < n + BLOCK_SIZE ->
  num_blocks n - c <= Z.of_nat fuel ->
  getNumberBlocks_loop fuel i n c = Some (num_blocks n).
Proof.
  intros Hn. pose proof (num_blocks_bounds n Hn) as [Hb Hr].
  revert i c. induction fuel as [|fuel IH]; intros i c Hc Hi Hlt Hfuel;
    cbn [getNumberBlocks_loop]; unfold BLOCK_SIZE in *.
  - rewrite decide_False by lia. f_equal. lia.
  - destruct (decide (i < n)) as [Hin|Hin].
    + rewrite (wrap_small (i + 64)) by (unfold is_word, BLOCK_SIZE; lia).
      rewrite (wrap_small (c + 1)) by (unfold is_word, BLOCK_SIZE; lia).
      apply IH; lia.
    + f_equal. lia.
Qed.

Lemma getNumberBlocks_spec n :
  1 <= n <= 2 ^ BLOCK_SIZE - BLOCK_SIZE ->
  getNumberBlocks n = Some (num_blocks n).
Proof.
  intros Hn. pose proof (num_blocks_bounds n Hn) as [Hb Hr].
  unfold getNumberBlocks.
  apply getNumberBlocks_loop_spec; [done|lia|reflexivity| |].
  - unfold BLOCK_SIZE in *. lia.
  - assert (num_blocks n - 1 <= n / BLOCK_SIZE); [|lia].
    apply Z.div_le_lower_bound; unfold BLOCK_SIZE in *; lia.
Qed.

Lemma getNumberBlocks_loop_wraps fuel i c n :
  2 ^ BLOCK_SIZE - BLOCK_SIZE < n ->
  0 <= i < 2 ^ BLOCK_SIZE -> i mod BLOCK_SIZE = 0 ->
  getNumberBlocks_loop fuel i n c = None.
Proof.
  intros Hn. revert i c.
  assert (forall i, 0 <= i < 2 ^ BLOCK_SIZE -> i mod BLOCK_SIZE = 0 ->
            i < n /\ 0 <= wrap (i + BLOCK_SIZE) < 2 ^ BLOCK_SIZE /\
            wrap (i + BLOCK_SIZE) mod BLOCK_SIZE = 0) as Hstep.
  { intros i Hi Hm. unfold wrap, BLOCK_SIZE in *.
    change (2 ^ 64) with (64 * 288230376151711744) in *.
    apply Z.mod_divide in Hm as [q ->]; [|lia].
    split; [lia|]. split; [apply Z.mod_pos_bound; lia|].
    replace (q * 64 + 64) with ((q + 1) * 64) by lia.
    rewrite Z.mul_comm, Zmult_mod_distr_l, Z.mul_comm. by apply Z_mod_mult. }
  induction fuel as [|fuel IH]; intros i c Hi Hm;
    destruct (Hstep i Hi Hm) as (Hlt & Hw & Hwm); cbn [getNumberBlocks_loop];
    rewrite decide_True by done; [done|by apply IH].
Qed.

Lemma ones_shiftr a b : 0 <= a <= b -> Z.shiftr (Z.ones b) a = Z.ones (b - a).
Proof.
  intros Hab. apply Z.bits_inj'. intros i Hi.
  rewrite Z.shiftr_spec, !Z.testbit_ones_nonneg by lia.
  destruct (Z.ltb_spec (i + a) b), (Z.ltb_spec i (b - a)); (done || lia).
Qed.

Lemma getLastMask_spec k :
  1 <= k <= BLOCK_SIZE -> getLastMask k = Some (Z.ones k).
Proof.
  intros Hk. unfold getLastMask, shr.
  rewrite (wrap_small (BLOCK_SIZE - k)) by (unfold is_word, BLOCK_SIZE in *; lia).
  rewrite decide_True by (unfold BLOCK_SIZE in *; lia).
  rewrite ALL_BITS_ONE_eq, ones_shiftr by (unfold BLOCK_SIZE in *; lia).
  do 2 f_equal. lia.
Qed.

Lemma length_new_array c n : length (new_array c n) = Z.to_nat n.
Proof. unfold new_array. by rewrite length_map, length_seq. Qed.

Lemma new_array_words c n : Forall is_word (new_array c n).
Proof.
  unfold new_array. apply List.Forall_map, Forall_true.
  intros i. apply wrap_is_word.
Qed.

Lemma insert_last_replicate {A} (n : nat) (x y : A) :
  <[n := y]> (replicate (S n) x) = replicate n x ++ [y].
Proof.
  induction n as [|n IH]; [done|].
  change (replicate (S (S n)) x) with (x :: replicate (S n) x).
  change (replicate (S n) x ++ [y]) with (x :: (replicate n x ++ [y])).
  by rewrite <- IH.
Qed.

Lemma buildMask_run v l :
  1 <= m_size v <= 2 ^ BLOCK_SIZE - BLOCK_SIZE ->
  m_blocks v = num_blocks (m_size v) ->
  m_mask v = Some l -> Z.of_nat (length l) = m_blocks v ->
  buildMask v = Ret tt (with_mask (Some (mask_of (m_size v))) v).
Proof.
  intros Hsize Hblocks Hl Hlen.
  pose proof (num_blocks_bounds _ Hsize) as [Hb Hr].
  unfold buildMask.
  rewrite (bind_ret blocks _ _ _ _ (blocks_run v)), <- Hlen, Nat2Z.id.
  rewrite (bind_ret _ _ _ _ _ (fill_mask_run v l ALL_BITS_ONE Hl)).
  rewrite bind_run. cbn [get with_mask m_size m_blocks].
  rewrite Hblocks.
  rewrite (wrap_small (num_blocks (m_size v) - 1))
    by (unfold is_word, BLOCK_SIZE in *; simpl in *; lia).
  rewrite (wrap_small ((num_blocks (m_size v) - 1) * BLOCK_SIZE))
    by (unfold is_word, BLOCK_SIZE in *; lia).
  rewrite (wrap_small (m_size v - _))
    by (unfold is_word, BLOCK_SIZE in *; lia).
  rewrite getLastMask_spec by (unfold BLOCK_SIZE in *; lia).
  erewrite bind_ret by reflexivity.
  replace (num_blocks (m_size v) - 1)
    with (Z.of_nat (Z.to_nat (num_blocks (m_size v) - 1))) at 1 by lia.
  erewrite set_mask_run; [|reflexivity|rewrite length_replicate; lia].
  rewrite with_mask_with_mask. do 3 f_equal. unfold mask_of.
  replace (length l) with (S (Z.to_nat (num_blocks (m_size v) - 1))) by lia.
  apply insert_last_replicate.
Qed.

Lemma build_run t_size j v :
  1 <= t_size <= 2 ^ BLOCK_SIZE - BLOCK_SIZE ->
  build t_size j v = Ret tt (built t_size j).
Proof.
  intros Hsize. pose proof (num_blocks_bounds _ Hsize) as [Hb Hr].
  unfold build. rewrite decide_False by lia.
  rewrite (bind_ret _ _ _ _ _ (destroy_run v)).
  do 2 (erewrite bind_ret by reflexivity).
  rewrite (getNumberBlocks_spec _ Hsize).
  do 3 (erewrite bind_ret by reflexivity).
  erewrite (bind_ret (buildBlocks j)) by reflexivity.
  erewrite buildMask_run; [reflexivity|done|done|reflexivity|].
  rewrite length_new_array. cbn. lia.
Qed.

Lemma built_wf t_size j :
  1 <= t_size <= 2 ^ BLOCK_SIZE - BLOCK_SIZE -> wf (built t_size j).
Proof.
  intros Hsize. pose proof (num_blocks_bounds _ Hsize) as [Hb Hr].
  unfold wf, built. cbn [m_bits m_mask m_size m_blocks].
  repeat split; try done; try lia.
  - rewrite length_new_array. lia.
  - apply new_array_words.
Qed.

(** ** Loops that may return early *)

Lemma for_return_list {St A X} (L : list X) (g : X -> option A)
    (body : Z -> M St (option A)) (after : M St A) (i step : Z) (s : St) :
  (forall k x, L !! k = Some x -> body (i + Z.of_nat k * step) s = Ret (g x) s) ->
  for_return (length L) i step body after s =
  match first_some g L with
  | Some a => Ret a s
  | None => after s
  end.
Proof.
  revert i. induction L as [|x L IH]; intros i Hbody; [done|].
  cbn [length for_return first_some].
  pose proof (Hbody 0%nat x eq_refl) as H0.
  replace (i + Z.of_nat 0 * step) with i in H0 by lia.
  rewrite (bind_ret _ _ _ _ _ H0). destruct (g x) as [a|]; [done|].
  apply IH. intros k y Hk. rewrite <- (Hbody (S k) y Hk). f_equal. lia.
Qed.

Lemma first_some_test {X A} (p : X -> bool) (r : A) (L : list X) :
  first_some (fun x => if p x then Some r else None) L
  = if existsb p L then Some r else None.
Proof.
  induction L as [|x L IH]; [done|].
  cbn [first_some existsb]. by destruct (p x).
Qed.

Lemma any_run v l ms :
  m_bits v = Some l -> m_mask v = Some ms ->
  Z.of_nat (length l) = m_blocks v -> length ms = length l ->
  any v = Ret (existsb nonzero (zip_with Z.land l ms)) v.
Proof.
  intros Hl Hms Hn Hlen. unfold any.
  rewrite (bind_ret blocks _ _ _ _ (blocks_run v)), <- Hn, Nat2Z.id.
  replace (length l) with (length (zip_with Z.land l ms))
    by (rewrite length_zip_with; lia).
  rewrite (for_return_list _ (fun x => if nonzero x then Some true else None)).
  - rewrite first_some_test. by destruct (existsb _ _).
  - intros k x Hk.
    apply lookup_zip_with_Some in Hk as (b & m & -> & Hb & Hm).
    replace (0 + Z.of_nat k * 1) with (Z.of_nat k) by lia.
    rewrite (bind_ret _ _ _ _ _ (get_bits_run v l k b Hl Hb)).
    rewrite (bind_ret _ _ _ _ _ (get_mask_run v ms k m Hms Hm)).
    unfold nonzero. by destruct (decide (Z.land b m ≠ 0));
      [rewrite bool_decide_true|rewrite bool_decide_false].
Qed.

Lemma none_run v l ms :
  m_bits v = Some l -> m_mask v = Some ms ->
  Z.of_nat (length l) = m_blocks v -> length ms = length l ->
  none v = Ret (negb (existsb nonzero (zip_with Z.land l ms))) v.
Proof.
  intros Hl Hms Hn Hlen. unfold none.
  rewrite (bind_ret blocks _ _ _ _ (blocks_run v)), <- Hn, Nat2Z.id.
  replace (length l) with (length (zip_with Z.land l ms))
    by (rewrite length_zip_with; lia).
  rewrite (for_return_list _ (fun x => if nonzero x then Some false else None)).
  - rewrite first_some_test. by destruct (existsb _ _).
  - intros k x Hk.
    apply lookup_zip_with_Some in Hk as (b & m & -> & Hb & Hm).
    replace (0 + Z.of_nat k * 1) with (Z.of_nat k) by lia.
    rewrite (bind_ret _ _ _ _ _ (get_bits_run v l k b Hl Hb)).
    rewrite (bind_ret _ _ _ _ _ (get_mask_run v ms k m Hms Hm)).
    unfold nonzero. by destruct (decide (Z.land b m ≠ 0));
      [rewrite bool_decide_true|rewrite bool_decide_false].
Qed.

Lemma all_run v l ms :
  m_bits v = Some l -> m_mask v = Some ms ->
  Z.of_nat (length l) = m_blocks v -> length ms = length l ->
  all v = Ret (negb (existsb unfilled (zip l ms))) v.
Proof.
  intros Hl Hms Hn Hlen. unfold all.
  rewrite (bind_ret blocks _ _ _ _ (blocks_run v)), <- Hn, Nat2Z.id.
  replace (length l) with (length (zip l ms))
    by (rewrite length_zip_with; lia).
  rewrite (for_return_list _ (fun x => if unfilled x then Some false else None)).
  - rewrite first_some_test. by destruct (existsb _ _).
  - intros k x Hk.
    apply lookup_zip_with_Some in Hk as (b & m & -> & Hb & Hm).
    replace (0 + Z.of_nat k * 1) with (Z.of_nat k) by lia.
    rewrite (bind_ret _ _ _ _ _ (get_bits_run v l k b Hl Hb)).
    rewrite (bind_ret _ _ _ _ _ (get_mask_run v ms k m Hms Hm)).
    rewrite (bind_ret _ _ _ _ _ (get_mask_run v ms k m Hms Hm)).
    unfold unfilled. cbn [fst snd].
    by destruct (decide (Z.land b m ≠ m));
      [rewrite bool_decide_true|rewrite bool_decide_false].
Qed.

(** ** Bits of a word *)

Lemma is_word_land_ones x : is_word x <-> Z.land x (Z.ones BLOCK_SIZE) = x.
Proof.
  rewrite Z.land_ones by (unfold BLOCK_SIZE; lia). unfold is_word. split.
  - intros H. by apply Z.mod_small.
  - intros <-. apply Z.mod_pos_bound. unfold BLOCK_SIZE. lia.
Qed.

Lemma land_is_word x y : is_word y -> is_word (Z.land x y).
Proof.
  rewrite !is_word_land_ones. intros Hy.
  by rewrite <- Z.land_assoc, Hy.
Qed.

Lemma land_is_word_l x y : is_word x -> is_word (Z.land x y).
Proof. rewrite Z.land_comm. apply land_is_word. Qed.

Lemma lor_is_word x y : is_word x -> is_word y -> is_word (Z.lor x y).
Proof.
  rewrite !is_word_land_ones. intros Hx Hy.
  by rewrite Z.land_lor_distr_l, Hx, Hy.
Qed.

Lemma lxor_is_word x y : is_word x -> is_word y -> is_word (Z.lxor x y).
Proof.
  rewrite !is_word_land_ones. intros Hx Hy.
  apply Z.bits_inj'. intros i Hi.
  rewrite Z.land_spec, Z.lxor_spec, <- Hx, <- Hy, !Z.land_spec.
  destruct (Z.testbit x i), (Z.testbit y i), (Z.testbit (Z.ones BLOCK_SIZE) i);
    done.
Qed.

Lemma word_testbit_high x i : is_word x -> BLOCK_SIZE <= i -> Z.testbit x i = false.
Proof.
  intros Hx Hi. apply is_word_land_ones in Hx. rewrite <- Hx, Z.land_spec.
  rewrite Z.testbit_ones_nonneg by (unfold BLOCK_SIZE in *; lia).
  destruct (Z.ltb_spec i BLOCK_SIZE); [lia|]. apply andb_false_r.
Qed.

(** Two words with the same 64 low bits are equal. *)
Lemma word_eq x y :
  is_word x -> is_word y ->
  (forall i, 0 <= i < BLOCK_SIZE -> Z.testbit x i = Z.testbit y i) -> x = y.
Proof.
  intros Hx Hy H. apply Z.bits_inj'. intros i Hi.
  destruct (decide (i < BLOCK_SIZE)); [apply H; lia|].
  by rewrite !word_testbit_high by (done || lia).
Qed.

Lemma bit_not_testbit x i :
  0 <= i < BLOCK_SIZE -> Z.testbit (bit_not x) i = negb (Z.testbit x i).
Proof.
  intros Hi. unfold bit_not, wrap.
  rewrite Z.mod_pow2_bits_low by lia. apply Z.lnot_spec. lia.
Qed.

Lemma bit_not_is_word x : is_word (bit_not x).
Proof. apply wrap_is_word. Qed.

Lemma bit_not_involutive x : is_word x -> bit_not (bit_not x) = x.
Proof.
  intros Hx. apply word_eq; [apply bit_not_is_word|done|].
  intros i Hi. rewrite !bit_not_testbit by done. apply negb_involutive.
Qed.

(** ** Counting through the bits *)

Lemma popcount_shift n x :
  popcount (S n) x = (if Z.testbit x 0 then 1 else 0) + popcount n (Z.shiftr x 1).
Proof. cbn [popcount]. by rewrite Z.bit0_odd. Qed.

Lemma shiftr1_testbit x i : 0 <= i -> Z.testbit (Z.shiftr x 1) i = Z.testbit x (i + 1).
Proof. intros Hi. by rewrite Z.shiftr_spec. Qed.

Lemma popcount_zero_iff n x :
  popcount n x = 0 <->
  forall i, 0 <= i < Z.of_nat n -> Z.testbit x i = false.
Proof.
  revert x. induction n as [|n IH]; intros x.
  - split; [intros _ i Hi; lia|done].
  - rewrite popcount_shift.
    pose proof (popcount_bounds n (Z.shiftr x 1)) as Hb. split.
    + intros H i Hi. destruct (Z.testbit x 0) eqn:H0; [lia|].
      destruct (decide (i = 0)) as [->|Hne]; [done|].
      replace i with ((i - 1) + 1) by lia.
      rewrite <- shiftr1_testbit by lia. apply IH; lia.
    + intros H. rewrite (H 0) by lia.
      replace (popcount n (Z.shiftr x 1)) with 0; [done|].
      symmetry. apply IH. intros i Hi.
      rewrite shiftr1_testbit by lia. apply H. lia.
Qed.

Lemma popcount_word_zero_iff x :
  is_word x -> popcount (Z.to_nat BLOCK_SIZE) x = 0 <-> x = 0.
Proof.
  intros Hx. rewrite popcount_zero_iff. split.
  - intros H. apply word_eq; [done|unfold is_word, BLOCK_SIZE; lia|].
    intros i Hi. rewrite Z.bits_0. apply H. unfold BLOCK_SIZE in *. lia.
  - intros -> i _. apply Z.bits_0.
Qed.

(** A block can only lose bits by masking; it keeps their number exactly
    when it keeps them all. *)
Lemma popcount_land_le n x m :
  popcount n (Z.land x m) <= popcount n m /\
  (popcount n (Z.land x m) = popcount n m <->
   forall i, 0 <= i < Z.of_nat n -> Z.testbit (Z.land x m) i = Z.testbit m i).
Proof.
  revert x m. induction n as [|n IH]; intros x m.
  - split; [done|]. split; [intros _ i Hi; lia|done].
  - rewrite !popcount_shift, Z.shiftr_land.
    destruct (IH (Z.shiftr x 1) (Z.shiftr m 1)) as [Hle Heq].
    rewrite Z.land_spec. split.
    + destruct (Z.testbit x 0), (Z.testbit m 0); simpl; lia.
    + split.
      * intros H i Hi.
        assert (Z.testbit x 0 && Z.testbit m 0 = Z.testbit m 0 /\
                popcount n (Z.land (Z.shiftr x 1) (Z.shiftr m 1))
                = popcount n (Z.shiftr m 1)) as [H0 Hn].
        { destruct (Z.testbit x 0), (Z.testbit m 0); simpl in *;
            split; (done || lia). }
        destruct (decide (i = 0)) as [->|Hne]; [by rewrite Z.land_spec|].
        replace i with ((i - 1) + 1) by lia.
        rewrite <- !shiftr1_testbit, Z.shiftr_land by lia.
        apply Heq; [done|lia].
      * intros H.
        pose proof (H 0 ltac:(lia)) as H0. rewrite Z.land_spec in H0.
        rewrite H0. f_equal. apply Heq. intros i Hi.
        rewrite <- Z.shiftr_land, !shiftr1_testbit by lia. apply H. lia.
Qed.

Lemma popcount_land_eq_iff x m :
  is_word m ->
  popcount (Z.to_nat BLOCK_SIZE) (Z.land x m) = popcount (Z.to_nat BLOCK_SIZE) m
  <-> Z.land x m = m.
Proof.
  intros Hm. destruct (popcount_land_le (Z.to_nat BLOCK_SIZE) x m) as [_ ->].
  split.
  - intros H. apply word_eq; [by apply land_is_word|done|].
    intros i Hi. apply H. unfold BLOCK_SIZE in *. lia.
  - intros H i _. by rewrite H.
Qed.

(** ** Predicates and the count *)

Lemma count_value v :
  wf v ->
  exists l,
    m_bits v = Some l /\ length (mask_of (m_size v)) = length l /\
    Z.of_nat (length l) = m_blocks v /\
    count v = Ret (popcount_blocks (zip_with Z.land l (mask_of (m_size v)))) v.
Proof.
  intros Hwf.
  destruct (wf_shape v Hwf) as (l & Hl & Hms & Hlen & Hlm & Hn & _).
  exists l. repeat split; try done.
  rewrite (count_run v l _ Hl Hms Hlen Hlm), count_fold_popcount; [done..|].
  rewrite length_zip_with. unfold BLOCK_SIZE in *. simpl in *. lia.
Qed.

Lemma popcount_blocks_nonneg L : 0 <= popcount_blocks L.
Proof.
  induction L as [|x L IH]; [done|]. rewrite popcount_blocks_cons.
  pose proof (popcount_bounds (Z.to_nat BLOCK_SIZE) x). lia.
Qed.

Lemma popcount_blocks_zero_iff L :
  Forall is_word L -> popcount_blocks L = 0 <-> existsb nonzero L = false.
Proof.
  induction 1 as [|x L Hx _ IH]; [done|].
  rewrite popcount_blocks_cons. cbn [existsb].
  pose proof (popcount_bounds (Z.to_nat BLOCK_SIZE) x) as Hb.
  pose proof (popcount_blocks_nonneg L) as HL.
  pose proof (popcount_word_zero_iff x Hx) as Hz.
  unfold nonzero at 1. destruct (decide (x = 0)) as [->|Hne].
  - rewrite bool_decide_false by (intros H; by apply H).
    rewrite (proj2 Hz eq_refl). cbn [orb]. rewrite <- IH. lia.
  - rewrite bool_decide_true by done. cbn [orb]. split; [|done].
    intros H. exfalso. apply Hne, Hz. lia.
Qed.

Lemma masked_words l ms :
  Forall is_word ms -> Forall is_word (zip_with Z.land l ms).
Proof.
  intros Hms. revert l. induction Hms as [|m ms Hm _ IH]; intros [|b l];
    cbn; try constructor; [by apply land_is_word|apply IH].
Qed.

Lemma popcount_blocks_filled l ms :
  length l = length ms -> Forall is_word ms ->
  popcount_blocks (zip_with Z.land l ms) <= popcount_blocks ms /\
  (popcount_blocks (zip_with Z.land l ms) = popcount_blocks ms
   <-> existsb unfilled (zip l ms) = false).
Proof.
  intros Hlen Hms. revert l Hlen.
  induction Hms as [|m ms Hm _ IH]; intros [|b l] Hlen; try done.
  cbn [zip_with existsb]. rewrite !popcount_blocks_cons.
  destruct (IH l ltac:(simpl in Hlen; lia)) as [Hle Heq].
  destruct (popcount_land_le (Z.to_nat BLOCK_SIZE) b m) as [Hle1 _].
  pose proof (popcount_land_eq_iff b m Hm) as Heq1.
  split; [lia|]. unfold unfilled at 1. cbn [fst snd].
  destruct (decide (Z.land b m = m)) as [He|Hne].
  - rewrite bool_decide_false by (intros H; by apply H). cbn [orb].
    rewrite <- Heq. rewrite (proj2 Heq1 He). lia.
  - rewrite bool_decide_true by done. cbn [orb]. split; [|done].
    intros H. exfalso. apply Hne, Heq1. lia.
Qed.

Lemma mask_of_is_words n :
  1 <= n <= 2 ^ BLOCK_SIZE - BLOCK_SIZE -> Forall is_word (mask_of n).
Proof.
  intros Hn. eapply Forall_impl; [by apply mask_of_words|]. by intros m [? _].
Qed.

Lemma Ret_inj {St A} (a b : A) (s : St) : Ret a s = Ret b s <-> a = b.
Proof. split; [by intros [= ->]|by intros ->]. Qed.

Lemma none_any_count_spec (v : RuntimeBitset) :
  wf v ->
  exists b : bool,
    any v = Ret b v /\ none v = Ret (negb b) v /\
    (b = false <-> count v = Ret 0 v).
Proof.
  intros Hwf. destruct (count_value v Hwf) as (l & Hl & Hlm & Hlen & Hcount).
  destruct (wf_shape v Hwf) as (l' & Hl' & Hms & _).
  destruct Hwf as (Hsize & _).
  exists (existsb nonzero (zip_with Z.land l (mask_of (m_size v)))).
  split; [by apply any_run|]. split; [by apply none_run|].
  rewrite Hcount, Ret_inj, popcount_blocks_zero_iff; [done|].
  by apply masked_words, mask_of_is_words.
Qed.

(** [any()] is the negation of [none()], and [none()] holds exactly when
    [count()] is 0. *)
Theorem any_none_count (v : RuntimeBitset) :
  wf v ->
  exists b : bool,
    any v = Ret b v /\ none v = Ret (negb b) v /\
    (b = false <-> count v = Ret 0 v).
Proof. intros. eapply none_any_count_spec; eassumption. Qed.

(** [all()] holds exactly when [count()] is [size()]. *)
Theorem all_iff_count_is_size (v : RuntimeBitset) :
  wf v ->
  exists b : bool,
    all v = Ret b v /\ (b = true <-> count v = Ret (m_size v) v).
Proof.
  intros Hwf. destruct (count_value v Hwf) as (l & Hl & Hlm & Hlen & Hcount).
  destruct (wf_shape v Hwf) as (l' & Hl' & Hms & _).
  destruct Hwf as (Hsize & _).
  exists (negb (existsb unfilled (zip l (mask_of (m_size v))))).
  split; [by apply all_run|].
  rewrite Hcount, Ret_inj, negb_true_iff.
  destruct (popcount_blocks_filled l (mask_of (m_size v)))
    as [_ <-]; [done|by apply mask_of_is_words|].
  by rewrite popcount_blocks_mask_of.
Qed.

(** ** Constructors *)

(** [getNumberBlocks] returns the least number of 64-bit blocks that
    hold [n] bits, for every size up to [2^64 - 64]. *)
Theorem getNumberBlocks_is_ceiling (n : Z) :
  1 <= n <= 2 ^ BLOCK_SIZE - BLOCK_SIZE ->
  exists k,
    getNumberBlocks n = Some k /\
    (k - 1) * BLOCK_SIZE < n <= k * BLOCK_SIZE.
Proof.
  intros Hn. exists (num_blocks n). split; [by apply getNumberBlocks_spec|].
  by destruct (num_blocks_bounds n Hn).
Qed.

Lemma getNumberBlocks_is_ceiling_witness :
  1 <= 65 <= 2 ^ BLOCK_SIZE - BLOCK_SIZE /\
  exists k,
    getNumberBlocks 65 = Some k /\
    (k - 1) * BLOCK_SIZE < 65 <= k * BLOCK_SIZE.
Proof.
  assert (1 <= 65 <= 2 ^ BLOCK_SIZE - BLOCK_SIZE) as H
    by (unfold BLOCK_SIZE; lia).
  split; [exact H|]. apply (getNumberBlocks_is_ceiling 65 H).
Defined.

(** For a size within 63 of the largest [std::size_t] the counting loop
    of [getNumberBlocks] never ends: its index wraps around before it
    reaches the size, so no number of iterations yields a result. *)
Theorem getNumberBlocks_never_ends (n : Z) (fuel : nat) :
  2 ^ BLOCK_SIZE - BLOCK_SIZE < n ->
  getNumberBlocks_loop fuel 0 n 0 = None.
Proof.
  intros Hn. apply getNumberBlocks_loop_wraps; [done| |done].
  unfold BLOCK_SIZE. lia.
Qed.

Lemma getNumberBlocks_never_ends_witness :
  2 ^ BLOCK_SIZE - BLOCK_SIZE < 2 ^ BLOCK_SIZE - 1 /\
  getNumberBlocks_loop 1000 0 (2 ^ BLOCK_SIZE - 1) 0 = None.
Proof.
  assert (2 ^ BLOCK_SIZE - BLOCK_SIZE < 2 ^ BLOCK_SIZE - 1) as H
    by (unfold BLOCK_SIZE; lia).
  split; [exact H|]. apply (getNumberBlocks_never_ends _ 1000 H).
Defined.

Lemma zero_blocks_masked (k : nat) ms :
  length ms = k -> zip_with Z.land (replicate k 0) ms = replicate k 0.
Proof.
  revert ms. induction k as [|k IH]; intros [|m ms] Hlen; try done.
  cbn. f_equal. apply IH. simpl in Hlen. lia.
Qed.

Lemma existsb_nonzero_zeros k : existsb nonzero (replicate k 0) = false.
Proof. induction k as [|k IH]; [done|]. cbn. by rewrite IH. Qed.

Lemma cleaned_wf t_size j :
  1 <= t_size <= 2 ^ BLOCK_SIZE - BLOCK_SIZE ->
  wf (with_bits (Some (replicate (Z.to_nat (num_blocks t_size)) 0))
        (built t_size j)).
Proof.
  intros Hsize. pose proof (num_blocks_bounds _ Hsize) as [Hb Hr].
  unfold wf, built. cbn [m_bits m_mask m_size m_blocks with_bits].
  repeat split; try done; try lia.
  - rewrite length_replicate. lia.
  - apply Forall_replicate. unfold is_word, BLOCK_SIZE. lia.
Qed.

(** [RuntimeBitset(t_size)], for a size from 1 to [2^64 - 64] and
    whatever the object and the allocated memory held before: the result
    satisfies the class invariant, has the requested size, the least
    number of blocks, every block 0, and [none()] is true, [any()] false
    and [count()] 0. *)
Theorem RuntimeBitset_size_zeroed (t_size : Z) (j : Junk) (v0 : RuntimeBitset) :
  1 <= t_size <= 2 ^ BLOCK_SIZE - BLOCK_SIZE ->
  exists v,
    RuntimeBitset_size t_size j v0 = Ret tt v /\
    wf v /\ m_size v = t_size /\
    (m_blocks v - 1) * BLOCK_SIZE < t_size <= m_blocks v * BLOCK_SIZE /\
    m_bits v = Some (replicate (Z.to_nat (m_blocks v)) 0) /\
    none v = Ret true v /\ any v = Ret false v /\ count v = Ret 0 v.
Proof.
  intros Hsize. pose proof (num_blocks_bounds _ Hsize) as [Hb Hr].
  set (k := Z.to_nat (num_blocks t_size)).
  set (v := with_bits (Some (replicate k 0)) (built t_size j)).
  assert (wf v) as Hwf by (by apply cleaned_wf).
  assert (length (mask_of t_size) = k) as Hlm by (by apply length_mask_of).
  exists v. split; [|split; [done|split; [done|split; [done|split; [done|]]]]].
  - unfold RuntimeBitset_size.
    rewrite (bind_ret _ _ _ _ _ (build_run t_size j v0 Hsize)).
    rewrite (clean_run (built t_size j) _ eq_refl)
      by (rewrite length_new_array; cbn; lia).
    by rewrite length_new_array.
  - assert (m_bits v = Some (replicate k 0)) as Hl by done.
    assert (m_mask v = Some (mask_of t_size)) as Hms by done.
    assert (Z.of_nat (length (replicate k 0)) = m_blocks v) as Hlen
      by (rewrite length_replicate; cbn; lia).
    assert (length (mask_of t_size) = length (replicate k 0)) as Hlm'
      by (by rewrite length_replicate).
    rewrite (none_run v _ _ Hl Hms Hlen Hlm'), (any_run v _ _ Hl Hms Hlen Hlm').
    rewrite zero_blocks_masked, existsb_nonzero_zeros by done.
    repeat split.
    destruct (none_any_count_spec v Hwf) as (b & Hany & _ & <-).
    rewrite (any_run v _ _ Hl Hms Hlen Hlm') in Hany.
    rewrite zero_blocks_masked, existsb_nonzero_zeros in Hany by done.
    by injection Hany.
Qed.

Lemma RuntimeBitset_size_zeroed_witness :
  1 <= 70 <= 2 ^ BLOCK_SIZE - BLOCK_SIZE /\
  exists v,
    RuntimeBitset_size 70 ones_junk bits8 = Ret tt v /\
    wf v /\ m_size v = 70 /\
    (m_blocks v - 1) * BLOCK_SIZE < 70 <= m_blocks v * BLOCK_SIZE /\
    m_bits v = Some (replicate (Z.to_nat (m_blocks v)) 0) /\
    none v = Ret true v /\ any v = Ret false v /\ count v = Ret 0 v.
Proof.
  assert (1 <= 70 <= 2 ^ BLOCK_SIZE - BLOCK_SIZE) as H
    by (unfold BLOCK_SIZE; lia).
  split; [exact H|]. apply (RuntimeBitset_size_zeroed 70 ones_junk bits8 H).
Defined.

(** A size of 0 is refused with [RuntimeBitsetInvalidSize] by both sized
    constructors, which leave the object untouched.  [buildFromString] on
    the empty string throws the same exception, but only after it has
    destroyed the receiver: the vector that [operator>>] was reading into
    is left with size 0 and no arrays. *)
Theorem size_zero_is_refused (j : Junk) (v0 : RuntimeBitset) (t_num : Z) :
  RuntimeBitset_size 0 j v0 = Throw RuntimeBitsetInvalidSize v0 /\
  RuntimeBitset_size_num 0 t_num j v0 = Throw RuntimeBitsetInvalidSize v0 /\
  buildFromString [] j v0 = Throw RuntimeBitsetInvalidSize raw /\
  RuntimeBitset_string [] j v0 = Throw RuntimeBitsetInvalidSize raw.
Proof.
  repeat split; try reflexivity.
  - unfold buildFromString. by rewrite (bind_ret _ _ _ _ _ (destroy_run v0)).
  - unfold RuntimeBitset_string, buildFromString.
    by rewrite (bind_ret _ _ _ _ _ (destroy_run v0)).
Qed.

(** ** Addressing *)

Lemma getMaskPosition_spec r :
  0 <= r < BLOCK_SIZE -> getMaskPosition r = Some (2 ^ r).
Proof.
  intros Hr. unfold getMaskPosition, shl. rewrite decide_True by done.
  rewrite Z.shiftl_1_l, wrap_small; [done|].
  unfold is_word. split; [apply Z.pow_nonneg; lia|].
  apply Z.pow_lt_mono_r; lia.
Qed.

Lemma getPosition_run v pos :
  0 <= pos < m_size v -> m_size v <= 2 ^ BLOCK_SIZE ->
  getPosition pos v = Ret (pos / BLOCK_SIZE, 2 ^ (pos mod BLOCK_SIZE)) v.
Proof.
  intros Hpos Hsize. unfold getPosition. rewrite bind_run. cbn [get].
  rewrite decide_False by lia.
  rewrite split_position_spec by lia.
  erewrite bind_ret by reflexivity. cbv beta iota.
  rewrite getMaskPosition_spec
    by (apply Z.mod_pos_bound; unfold BLOCK_SIZE; lia).
  reflexivity.
Qed.

Lemma getPosition_out_of_range v pos :
  pos >= m_size v -> getPosition pos v = Throw RuntimeBitsetOutOfRange v.
Proof.
  intros Hpos. unfold getPosition. rewrite bind_run. cbn [get].
  by rewrite decide_True.
Qed.

Lemma getPosition_spec (v : RuntimeBitset) (pos : Z) :
  wf v -> 0 <= pos < m_size v ->
  getPosition pos v = Ret (pos / BLOCK_SIZE, 2 ^ (pos mod BLOCK_SIZE)) v /\
  0 <= pos / BLOCK_SIZE < m_blocks v.
Proof.
  intros (Hsize & Hblocks & _) Hpos.
  pose proof (num_blocks_bounds _ Hsize) as [Hb Hr].
  split; [apply getPosition_run; unfold BLOCK_SIZE in *; lia|].
  rewrite Hblocks. split; [apply Z.div_pos; unfold BLOCK_SIZE; lia|].
  apply Z.div_lt_upper_bound; unfold BLOCK_SIZE in *; lia.
Qed.

(** The block and the single-bit mask of a position inside the vector:
    [getPosition] returns [pos / 64] and [2 ^ (pos mod 64)] and leaves
    the vector unchanged. *)
Theorem getPosition_locates (v : RuntimeBitset) (pos : Z) :
  wf v -> 0 <= pos < m_size v ->
  getPosition pos v = Ret (pos / BLOCK_SIZE, 2 ^ (pos mod BLOCK_SIZE)) v /\
  0 <= pos / BLOCK_SIZE < m_blocks v.
Proof. intros. eapply getPosition_spec; eassumption. Qed.

Lemma getPosition_locates_witness :
  wf bits65 /\ 0 <= 64 < m_size bits65 /\
  getPosition 64 bits65
    = Ret (64 / BLOCK_SIZE, 2 ^ (64 mod BLOCK_SIZE)) bits65 /\
  0 <= 64 / BLOCK_SIZE < m_blocks bits65.
Proof.
  assert (wf bits65) as Hwf.
  { unfold wf, bits65; cbn [m_bits m_mask m_size m_blocks].
    split; [unfold BLOCK_SIZE; lia|].
    split; [reflexivity|]. split; [reflexivity|]. split; [reflexivity|].
    repeat constructor; unfold is_word, BLOCK_SIZE; lia. }
  assert (0 <= 64 < m_size bits65) as Hpos by (cbn; lia).
  split; [exact Hwf|]. split; [exact Hpos|].
  apply (getPosition_locates bits65 64 Hwf Hpos).
Defined.

(** Every indexed operation on a position at or beyond the size throws
    [RuntimeBitsetOutOfRange] and leaves the vector as it was. *)
Theorem indexed_operations_out_of_range (v : RuntimeBitset) (pos : Z) :
  pos >= m_size v ->
  test pos v = Throw RuntimeBitsetOutOfRange v /\
  operator_index_const pos v = Throw RuntimeBitsetOutOfRange v /\
  set_pos pos v = Throw RuntimeBitsetOutOfRange v /\
  reset_pos pos v = Throw RuntimeBitsetOutOfRange v /\
  flip_pos pos v = Throw RuntimeBitsetOutOfRange v.
Proof.
  intros Hpos. pose proof (getPosition_out_of_range v pos Hpos) as H.
  unfold test, operator_index_const, getValueInPosition, set_pos, reset_pos,
    flip_pos.
  repeat split; by apply bind_throw.
Qed.

Lemma indexed_operations_out_of_range_witness :
  8 >= m_size bits8 /\
  test 8 bits8 = Throw RuntimeBitsetOutOfRange bits8 /\
  operator_index_const 8 bits8 = Throw RuntimeBitsetOutOfRange bits8 /\
  set_pos 8 bits8 = Throw RuntimeBitsetOutOfRange bits8 /\
  reset_pos 8 bits8 = Throw RuntimeBitsetOutOfRange bits8 /\
  flip_pos 8 bits8 = Throw RuntimeBitsetOutOfRange bits8.
Proof.
  assert (8 >= m_size bits8) as H by (cbn; lia).
  split; [exact H|]. apply (indexed_operations_out_of_range bits8 8 H).
Defined.

(** ** Reading and writing one bit *)

Lemma land_pow2 b r :
  0 <= r -> Z.land b (2 ^ r) = if Z.testbit b r then 2 ^ r else 0.
Proof.
  intros Hr. apply Z.bits_inj'. intros i Hi.
  rewrite Z.land_spec, Z.pow2_bits_eqb by done.
  destruct (Z.eqb_spec r i) as [->|Hne].
  - destruct (Z.testbit b i); [|by rewrite Z.bits_0].
    by rewrite Z.pow2_bits_true.
  - rewrite andb_false_r. destruct (Z.testbit b r); [|by rewrite Z.bits_0].
    by rewrite Z.pow2_bits_false.
Qed.

Lemma wf_block v l pos :
  wf v -> m_bits v = Some l -> 0 <= pos < m_size v ->
  exists b, l !! Z.to_nat (pos / BLOCK_SIZE) = Some b /\ is_word b /\
    (Z.to_nat (pos / BLOCK_SIZE) < length l)%nat.
Proof.
  intros Hwf Hl Hpos.
  destruct (getPosition_spec v pos Hwf Hpos) as [_ Hbp].
  destruct Hwf as (_ & _ & _ & Hbits). rewrite Hl in Hbits.
  destruct Hbits as [Hlen Hwords].
  destruct (lookup_lt_is_Some_2 l (Z.to_nat (pos / BLOCK_SIZE))) as [b Hb];
    [lia|].
  exists b. split; [done|]. split; [|lia].
  by apply (proj1 (Forall_lookup _ _) Hwords _ _ Hb).
Qed.

Lemma getValueInPosition_run v pos :
  wf v -> 0 <= pos < m_size v ->
  getValueInPosition pos v = Ret (bit_at v pos) v.
Proof.
  intros Hwf Hpos.
  destruct (wf_shape v Hwf) as (l & Hl & _).
  destruct (wf_block v l pos Hwf Hl Hpos) as (b & Hb & Hw & Hlt).
  destruct (getPosition_spec v pos Hwf Hpos) as [Hget Hbp].
  unfold getValueInPosition.
  rewrite (bind_ret _ _ _ _ _ Hget). cbv beta iota.
  replace (pos / BLOCK_SIZE) with (Z.of_nat (Z.to_nat (pos / BLOCK_SIZE)))
    at 1 by lia.
  rewrite (bind_ret _ _ _ _ _ (get_bits_run v l _ b Hl Hb)). cbv zeta.
  assert (0 <= pos mod BLOCK_SIZE < BLOCK_SIZE) as Hr
    by (apply Z.mod_pos_bound; unfold BLOCK_SIZE; lia).
  unfold bit_at. rewrite Hl, Hb. change (default 0 (Some b)) with b.
  rewrite Z.lor_0_r, land_pow2 by lia.
  destruct (Z.testbit b (pos mod BLOCK_SIZE)).
  - rewrite decide_False; [reflexivity|].
    assert (0 < 2 ^ (pos mod BLOCK_SIZE)) by (apply Z.pow_pos_nonneg; lia).
    lia.
  - rewrite decide_True; [reflexivity|done].
Qed.

(** [test(pos)] and the read-only [operator[]] return bit [pos mod 64]
    of block [pos / 64] and leave the vector unchanged. *)
Theorem test_reads_bit (v : RuntimeBitset) (pos : Z) :
  wf v -> 0 <= pos < m_size v ->
  test pos v = Ret (bit_at v pos) v /\
  operator_index_const pos v = Ret (bit_at v pos) v.
Proof. intros Hwf Hpos. split; by apply getValueInPosition_run. Qed.

Lemma test_reads_bit_witness :
  wf bits8 /\ 0 <= 2 < m_size bits8 /\
  test 2 bits8 = Ret (bit_at bits8 2) bits8 /\
  operator_index_const 2 bits8 = Ret (bit_at bits8 2) bits8.
Proof.
  assert (wf bits8) as Hwf.
  { unfold wf, bits8; cbn [m_bits m_mask m_size m_blocks].
    split; [unfold BLOCK_SIZE; lia|].
    split; [reflexivity|]. split; [reflexivity|]. split; [reflexivity|].
    repeat constructor; unfold is_word, BLOCK_SIZE; lia. }
  assert (0 <= 2 < m_size bits8) as Hpos by (cbn; lia).
  split; [exact Hwf|]. split; [exact Hpos|].
  apply (test_reads_bit bits8 2 Hwf Hpos).
Defined.

Lemma bit_at_update v l i x q :
  m_bits v = Some l -> (i < length l)%nat ->
  bit_at (with_bits (Some (<[i := x]> l)) v) q =
  if decide (Z.to_nat (q / BLOCK_SIZE) = i) then Z.testbit x (q mod BLOCK_SIZE)
  else bit_at v q.
Proof.
  intros Hl Hi. unfold bit_at. cbn [with_bits m_bits]. rewrite Hl.
  destruct (decide (Z.to_nat (q / BLOCK_SIZE) = i)) as [->|Hne].
  - by rewrite list_lookup_insert_eq.
  - by rewrite list_lookup_insert_ne.
Qed.

Lemma position_eq q pos :
  0 <= q -> 0 <= pos ->
  q = pos <->
  Z.to_nat (q / BLOCK_SIZE) = Z.to_nat (pos / BLOCK_SIZE) /\
  q mod BLOCK_SIZE = pos mod BLOCK_SIZE.
Proof.
  intros Hq Hpos. split; [by intros ->|]. intros [Hd Hm].
  assert (0 <= q / BLOCK_SIZE) by (apply Z.div_pos; unfold BLOCK_SIZE; lia).
  assert (0 <= pos / BLOCK_SIZE) by (apply Z.div_pos; unfold BLOCK_SIZE; lia).
  rewrite (Z.div_mod q BLOCK_SIZE), (Z.div_mod pos BLOCK_SIZE)
    by (unfold BLOCK_SIZE; lia).
  rewrite Hm. f_equal. f_equal. lia.
Qed.

Lemma with_bits_wf v l' :
  wf v -> Z.of_nat (length l') = m_blocks v -> Forall is_word l' ->
  wf (with_bits (Some l') v).
Proof.
  intros (Hsize & Hblocks & Hmask & _) Hlen Hwords.
  unfold wf. cbn [with_bits m_bits m_mask m_size m_blocks].
  split; [done|]. split; [done|]. split; [done|]. by split.
Qed.

(** Writing block [pos / 64] with a word [x] that differs from the old
    block in bit [pos mod 64] at most. *)
Lemma block_update_spec v l pos x (c : bool) :
  wf v -> m_bits v = Some l -> 0 <= pos < m_size v -> is_word x ->
  (forall i, 0 <= i < BLOCK_SIZE ->
     Z.testbit x i =
     if decide (i = pos mod BLOCK_SIZE) then c
     else Z.testbit (default 0 (l !! Z.to_nat (pos / BLOCK_SIZE))) i) ->
  let v' := with_bits (Some (<[Z.to_nat (pos / BLOCK_SIZE) := x]> l)) v in
  wf v' /\ m_size v' = m_size v /\
  forall q, 0 <= q < m_size v ->
    getValueInPosition q v'
    = Ret (if decide (q = pos) then c else bit_at v q) v'.
Proof.
  intros Hwf Hl Hpos Hx Hbits v'.
  destruct (wf_block v l pos Hwf Hl Hpos) as (b & Hb & Hw & Hlt).
  assert (wf v') as Hwf'.
  { apply with_bits_wf; [done| |].
    - rewrite length_insert. destruct Hwf as (_ & _ & _ & Hbits').
      rewrite Hl in Hbits'. by destruct Hbits'.
    - apply Forall_insert; [|done]. destruct Hwf as (_ & _ & _ & Hbits').
      rewrite Hl in Hbits'. by destruct Hbits'. }
  split; [done|]. split; [done|]. intros q Hq.
  rewrite (getValueInPosition_run v' q Hwf' Hq). f_equal.
  unfold v'. rewrite (bit_at_update v l _ x q Hl Hlt).
  assert (0 <= q mod BLOCK_SIZE < BLOCK_SIZE) as Hr
    by (apply Z.mod_pos_bound; unfold BLOCK_SIZE; lia).
  destruct (decide (Z.to_nat (q / BLOCK_SIZE) = Z.to_nat (pos / BLOCK_SIZE)))
    as [Hd|Hd].
  - rewrite (Hbits _ Hr).
    destruct (decide (q mod BLOCK_SIZE = pos mod BLOCK_SIZE)) as [Hm|Hm].
    + rewrite decide_True; [done|]. apply position_eq; (done || lia).
    + rewrite decide_False.
      * unfold bit_at. by rewrite Hl, Hd.
      * intros ->. by apply Hm.
  - rewrite decide_False; [done|]. intros ->. by apply Hd.
Qed.

Lemma pow2_is_word r : 0 <= r < BLOCK_SIZE -> is_word (2 ^ r).
Proof.
  intros Hr. unfold is_word. split; [apply Z.pow_nonneg; lia|].
  apply Z.pow_lt_mono_r; lia.
Qed.

Ltac position_setup v pos Hwf Hpos l b Hl Hb Hw Hlt Hget Hr :=
  destruct (wf_shape v Hwf) as (l & Hl & _);
  destruct (wf_block v l pos Hwf Hl Hpos) as (b & Hb & Hw & Hlt);
  destruct (getPosition_spec v pos Hwf Hpos) as [Hget ?];
  assert (0 <= pos mod BLOCK_SIZE < BLOCK_SIZE) as Hr
    by (apply Z.mod_pos_bound; unfold BLOCK_SIZE; lia).

Lemma set_pos_spec (v : RuntimeBitset) (pos : Z) :
  wf v -> 0 <= pos < m_size v ->
  exists v',
    set_pos pos v = Ret tt v' /\ wf v' /\ m_size v' = m_size v /\
    forall q, 0 <= q < m_size v ->
      test q v' = Ret (if decide (q = pos) then true else bit_at v q) v'.
Proof.
  intros Hwf Hpos. position_setup v pos Hwf Hpos l b Hl Hb Hw Hlt Hget Hr.
  eexists. split.
  - unfold set_pos. rewrite (bind_ret _ _ _ _ _ Hget). cbv beta iota.
    replace (pos / BLOCK_SIZE) with (Z.of_nat (Z.to_nat (pos / BLOCK_SIZE)))
      by lia.
    rewrite (bind_ret _ _ _ _ _ (get_bits_run v l _ b Hl Hb)).
    by apply set_bits_run.
  - apply (block_update_spec v l pos _ true Hwf Hl Hpos).
    + apply lor_is_word; [done|by apply pow2_is_word].
    + intros i Hi. rewrite Hb. change (default 0 (Some b)) with b.
      rewrite Z.lor_spec, Z.pow2_bits_eqb by lia.
      destruct (decide (i = pos mod BLOCK_SIZE)) as [->|Hne].
      * rewrite Z.eqb_refl. apply orb_true_r.
      * destruct (Z.eqb_spec (pos mod BLOCK_SIZE) i); [lia|apply orb_false_r].
Qed.

(** [set(pos)], for a position inside the vector: the invariant and the
    size are kept, bit [pos] reads as 1 afterwards and every other bit
    reads as before. *)
Theorem set_pos_sets_one_bit (v : RuntimeBitset) (pos : Z) :
  wf v -> 0 <= pos < m_size v ->
  exists v',
    set_pos pos v = Ret tt v' /\ wf v' /\ m_size v' = m_size v /\
    forall q, 0 <= q < m_size v ->
      test q v' = Ret (if decide (q = pos) then true else bit_at v q) v'.
Proof. intros. eapply set_pos_spec; eassumption. Qed.

Lemma reset_pos_spec (v : RuntimeBitset) (pos : Z) :
  wf v -> 0 <= pos < m_size v ->
  exists v',
    reset_pos pos v = Ret tt v' /\ wf v' /\ m_size v' = m_size v /\
    forall q, 0 <= q < m_size v ->
      test q v' = Ret (if decide (q = pos) then false else bit_at v q) v'.
Proof.
  intros Hwf Hpos. position_setup v pos Hwf Hpos l b Hl Hb Hw Hlt Hget Hr.
  eexists. split.
  - unfold reset_pos. rewrite (bind_ret _ _ _ _ _ Hget). cbv beta iota zeta.
    replace (pos / BLOCK_SIZE) with (Z.of_nat (Z.to_nat (pos / BLOCK_SIZE)))
      by lia.
    rewrite (bind_ret _ _ _ _ _ (get_bits_run v l _ b Hl Hb)).
    by apply set_bits_run.
  - apply (block_update_spec v l pos _ false Hwf Hl Hpos).
    + by apply land_is_word_l.
    + intros i Hi. rewrite Hb. change (default 0 (Some b)) with b.
      rewrite Z.land_spec, bit_not_testbit, Z.pow2_bits_eqb by lia.
      destruct (decide (i = pos mod BLOCK_SIZE)) as [->|Hne].
      * rewrite Z.eqb_refl. apply andb_false_r.
      * destruct (Z.eqb_spec (pos mod BLOCK_SIZE) i); [lia|apply andb_true_r].
Qed.

(** [reset(pos)], for a position inside the vector: the invariant and
    the size are kept, bit [pos] reads as 0 afterwards and every other
    bit reads as before. *)
Theorem reset_pos_clears_one_bit (v : RuntimeBitset) (pos : Z) :
  wf v -> 0 <= pos < m_size v ->
  exists v',
    reset_pos pos v = Ret tt v' /\ wf v' /\ m_size v' = m_size v /\
    forall q, 0 <= q < m_size v ->
      test q v' = Ret (if decide (q = pos) then false else bit_at v q) v'.
Proof. intros. eapply reset_pos_spec; eassumption. Qed.

Lemma flip_pos_spec (v : RuntimeBitset) (pos : Z) :
  wf v -> 0 <= pos < m_size v ->
  exists v',
    flip_pos pos v = Ret tt v' /\ wf v' /\ m_size v' = m_size v /\
    forall q, 0 <= q < m_size v ->
      test q v'
      = Ret (if decide (q = pos) then negb (bit_at v pos) else bit_at v q) v'.
Proof.
  intros Hwf Hpos. position_setup v pos Hwf Hpos l b Hl Hb Hw Hlt Hget Hr.
  eexists. split.
  - unfold flip_pos. rewrite (bind_ret _ _ _ _ _ Hget). cbv beta iota zeta.
    replace (pos / BLOCK_SIZE) with (Z.of_nat (Z.to_nat (pos / BLOCK_SIZE)))
      by lia.
    rewrite (bind_ret _ _ _ _ _ (get_bits_run v l _ b Hl Hb)).
    rewrite (bind_ret _ _ _ _ _ (get_bits_run v l _ b Hl Hb)).
    by apply set_bits_run.
  - apply (block_update_spec v l pos _ (negb (bit_at v pos)) Hwf Hl Hpos).
    + apply lor_is_word; [by apply land_is_word_l|].
      apply land_is_word_l, bit_not_is_word.
    + intros i Hi. rewrite Hb. change (default 0 (Some b)) with b.
      rewrite Z.lor_spec, !Z.land_spec, !bit_not_testbit, Z.pow2_bits_eqb
        by lia.
      unfold bit_at. rewrite Hl, Hb. change (default 0 (Some b)) with b.
      destruct (decide (i = pos mod BLOCK_SIZE)) as [->|Hne].
      * rewrite Z.eqb_refl. by destruct (Z.testbit b (pos mod BLOCK_SIZE)).
      * destruct (Z.eqb_spec (pos mod BLOCK_SIZE) i); [lia|].
        by destruct (Z.testbit b i).
Qed.

(** [flip(pos)], for a position inside the vector: the invariant and the
    size are kept, bit [pos] reads as its complement afterwards and
    every other bit reads as before. *)
Theorem flip_pos_inverts_one_bit (v : RuntimeBitset) (pos : Z) :
  wf v -> 0 <= pos < m_size v ->
  exists v',
    flip_pos pos v = Ret tt v' /\ wf v' /\ m_size v' = m_size v /\
    forall q, 0 <= q < m_size v ->
      test q v'
      = Ret (if decide (q = pos) then negb (bit_at v pos) else bit_at v q) v'.
Proof. intros. eapply flip_pos_spec; eassumption. Qed.

(** ** The whole-vector [flip()] *)

Lemma map_step {A} (f : A -> A) (l : list A) (k : nat) (b : A) :
  l !! k = Some b ->
  <[k := f b]> ((f <$> take k l) ++ drop k l)
  = (f <$> take (S k) l) ++ drop (S k) l.
Proof.
  intros Hb. pose proof (lookup_lt_Some _ _ _ Hb) as Hk.
  assert (length (f <$> take k l) = k) as Hlen
    by (rewrite length_fmap, length_take; lia).
  rewrite (take_S_r l k b Hb), fmap_app, <- app_assoc. cbn [fmap list_fmap app].
  rewrite (drop_S l b k Hb).
  replace k with (length (f <$> take k l) + 0)%nat at 1 by lia.
  by rewrite insert_app_r.
Qed.

Lemma map_bits_run v l (f : Z -> Z) :
  m_bits v = Some l ->
  for_range (length l) 0 1 (fun i => b ← get_bits i; set_bits i (f b)) v
  = Ret tt (with_bits (Some (f <$> l)) v).
Proof.
  intros Hl.
  destruct (for_range_run
              (fun k s => s = with_bits (Some ((f <$> take k l) ++ drop k l)) v)
              (length l) 0 1 (fun i => b ← get_bits i; set_bits i (f b)))
    with (s := v) as (s' & -> & ->).
  - intros k s Hk ->. replace (0 + Z.of_nat k * 1) with (Z.of_nat k) by lia.
    destruct (lookup_lt_is_Some_2 l k Hk) as [b Hb].
    eexists. split; [|reflexivity].
    erewrite bind_ret.
    2:{ eapply get_bits_run; [reflexivity|].
        rewrite lookup_app_r by (rewrite length_fmap, length_take; lia).
        rewrite length_fmap, length_take, lookup_drop.
        replace (k + (k - k `min` length l))%nat with k by lia. exact Hb. }
    erewrite set_bits_run; [|reflexivity|].
    + by rewrite with_bits_with_bits, map_step.
    + rewrite length_app, length_fmap, length_take, length_drop. lia.
  - rewrite drop_0. by destruct v; simpl in *; subst.
  - by rewrite firstn_all, drop_all, app_nil_r.
Qed.

Lemma flip_all_run v l :
  m_bits v = Some l -> Z.of_nat (length l) = m_blocks v ->
  flip_all v = Ret tt (with_bits (Some (bit_not <$> l)) v).
Proof.
  intros Hl Hn. unfold flip_all.
  rewrite (bind_ret blocks _ _ _ _ (blocks_run v)), <- Hn, Nat2Z.id.
  by apply map_bits_run.
Qed.

Lemma with_bits_same v l : m_bits v = Some l -> with_bits (Some l) v = v.
Proof. intros Hl. destruct v. simpl in *. by subst. Qed.

Lemma popcount_complement n x m :
  (Z.of_nat n <= BLOCK_SIZE) ->
  popcount n (Z.land (bit_not x) m) + popcount n (Z.land x m) = popcount n m.
Proof.
  intros Hn.
  assert (forall k a b m,
    (forall i, 0 <= i < Z.of_nat k -> Z.testbit a i = negb (Z.testbit b i)) ->
    popcount k (Z.land a m) + popcount k (Z.land b m) = popcount k m) as Hgen.
  { clear. induction k as [|k IH]; intros a b m Hab; [done|].
    rewrite !popcount_shift, !Z.shiftr_land, !Z.land_spec.
    rewrite (Hab 0) by lia.
    specialize (IH (Z.shiftr a 1) (Z.shiftr b 1) (Z.shiftr m 1)).
    rewrite <- IH.
    - destruct (Z.testbit b 0), (Z.testbit m 0); simpl; lia.
    - intros i Hi. rewrite !shiftr1_testbit by lia. apply Hab. lia. }
  apply Hgen. intros i Hi. apply bit_not_testbit. lia.
Qed.

Lemma popcount_blocks_complement l ms :
  length l = length ms ->
  popcount_blocks (zip_with Z.land (bit_not <$> l) ms)
  + popcount_blocks (zip_with Z.land l ms)
  = popcount_blocks ms.
Proof.
  revert ms. induction l as [|b l IH]; intros [|m ms] Hlen; try done.
  cbn [fmap list_fmap zip_with]. rewrite !popcount_blocks_cons.
  specialize (IH ms ltac:(simpl in Hlen; lia)).
  pose proof (popcount_complement (Z.to_nat BLOCK_SIZE) b m
                ltac:(unfold BLOCK_SIZE; lia)).
  cbn [fmap] in IH. lia.
Qed.

Lemma flip_all_spec (v : RuntimeBitset) :
  wf v ->
  exists v' n,
    flip_all v = Ret tt v' /\ wf v' /\ m_size v' = m_size v /\
    (forall q, 0 <= q < m_size v -> test q v' = Ret (negb (bit_at v q)) v') /\
    count v = Ret n v /\ count v' = Ret (m_size v - n) v' /\
    flip_all v' = Ret tt v.
Proof.
  intros Hwf.
  destruct (wf_shape v Hwf) as (l & Hl & Hms & Hlen & Hlm & Hn & Hwords).
  set (v' := with_bits (Some (bit_not <$> l)) v).
  assert (wf v') as Hwf'.
  { apply with_bits_wf; [done|by rewrite length_fmap|].
    apply Forall_fmap, Forall_true. intros x. apply bit_not_is_word. }
  destruct (count_value v Hwf) as (l1 & Hl1 & _ & _ & Hcount).
  destruct (count_value v' Hwf') as (l2 & Hl2 & _ & _ & Hcount').
  assert (l1 = l) as -> by congruence.
  assert (l2 = bit_not <$> l) as -> by (cbn in Hl2; congruence).
  exists v', (popcount_blocks (zip_with Z.land l (mask_of (m_size v)))).
  split; [by apply flip_all_run|]. split; [done|]. split; [done|].
  split; [|split; [done|split]].
  - intros q Hq. unfold test.
    rewrite (getValueInPosition_run v' q Hwf' Hq). f_equal.
    destruct (wf_block v l q Hwf Hl Hq) as (b & Hb & Hw & Hlt).
    unfold bit_at. cbn [v' with_bits m_bits]. rewrite Hl.
    rewrite list_lookup_fmap, Hb. cbn [fmap option_fmap option_map].
    change (default 0 (Some ?x)) with x.
    apply bit_not_testbit, Z.mod_pos_bound. unfold BLOCK_SIZE. lia.
  - rewrite Hcount'. f_equal. cbn [v' with_bits m_size].
    pose proof (popcount_blocks_complement l (mask_of (m_size v))
                  ltac:(lia)) as Hc.
    destruct Hwf as (Hsize & _).
    rewrite (popcount_blocks_mask_of _ Hsize) in Hc. lia.
  - rewrite (flip_all_run v' (bit_not <$> l))
      by (done || (rewrite length_fmap; done)).
    unfold v'. rewrite with_bits_with_bits, <- list_fmap_compose.
    assert ((bit_not ∘ bit_not) <$> l = l) as ->; [|by rewrite with_bits_same].
    rewrite <- (list_fmap_id l) at 2. apply list_fmap_ext.
    intros i x Hx. cbn. apply bit_not_involutive.
    by apply (proj1 (Forall_lookup _ _) Hwords _ _ Hx).
Qed.

(** [flip()] on a vector that satisfies the class invariant: every bit
    reads as its complement, [count()] becomes [size()] minus the old
    count, and a second [flip()] gives back exactly the vector one
    started from. *)
Theorem flip_all_complements (v : RuntimeBitset) :
  wf v ->
  exists v' n,
    flip_all v = Ret tt v' /\ wf v' /\ m_size v' = m_size v /\
    (forall q, 0 <= q < m_size v -> test q v' = Ret (negb (bit_at v q)) v') /\
    count v = Ret n v /\ count v' = Ret (m_size v - n) v' /\
    flip_all v' = Ret tt v.
Proof. intros. eapply flip_all_spec; eassumption. Qed.

(** ** [reset()] and the seeded constructor *)

Lemma bit_at_zeros v k q :
  bit_at (with_bits (Some (replicate k 0)) v) q = false.
Proof.
  unfold bit_at. cbn [with_bits m_bits].
  destruct (replicate k 0 !! Z.to_nat (q / BLOCK_SIZE)) as [x|] eqn:Hx.
  - apply lookup_replicate in Hx as [-> _]. apply Z.bits_0.
  - apply Z.bits_0.
Qed.

(** [reset()] on a vector that satisfies the class invariant: every
    block becomes 0, so every bit reads as 0, [none()] is true and
    [count()] is 0; the size is kept. *)
Theorem reset_all_clears (v : RuntimeBitset) :
  wf v ->
  exists v',
    reset_all v = Ret tt v' /\ wf v' /\ m_size v' = m_size v /\
    m_bits v' = Some (replicate (Z.to_nat (m_blocks v)) 0) /\
    (forall q, 0 <= q < m_size v -> test q v' = Ret false v') /\
    none v' = Ret true v' /\ count v' = Ret 0 v'.
Proof.
  intros Hwf.
  destruct (wf_shape v Hwf) as (l & Hl & Hms & Hlen & Hlm & Hn & Hwords).
  set (k := Z.to_nat (m_blocks v)).
  set (v' := with_bits (Some (replicate k 0)) v).
  assert (length l = k) as Hk by lia.
  assert (wf v') as Hwf'.
  { apply with_bits_wf; [done|rewrite length_replicate; lia|].
    apply Forall_replicate. unfold is_word, BLOCK_SIZE. lia. }
  assert (none v' = Ret true v') as Hnone.
  { rewrite (none_run v' (replicate k 0) (mask_of (m_size v)));
      [|done|done|rewrite length_replicate; cbn; lia
       |rewrite length_replicate; lia].
    by rewrite zero_blocks_masked, existsb_nonzero_zeros by lia. }
  exists v'. split; [|split; [done|split; [done|split; [done|split; [|split]]]]].
  - unfold reset_all. rewrite (clean_run v l Hl Hlen). by rewrite Hk.
  - intros q Hq. unfold test.
    rewrite (getValueInPosition_run v' q Hwf' Hq). unfold v'.
    by rewrite bit_at_zeros.
  - done.
  - destruct (none_any_count_spec v' Hwf') as (b & _ & Hn' & Hb).
    rewrite Hnone in Hn'. apply Hb. injection Hn' as Hn'.
    by destruct b.
Qed.

Lemma insert_head {A} (l : list A) (x : A) :
  (0 < length l)%nat -> <[0%nat := x]> l = x :: drop 1 l.
Proof. by destruct l; [simpl; lia|]. Qed.

(** [RuntimeBitset(t_size, t_num)], for a size from 1 to [2^64 - 64] and
    a 64-bit seed: block 0 is the seed, every other block keeps what the
    allocation held, the invariant holds, and [to_ullong()]/[to_ulong()]
    return the seed reduced modulo [2 ^ t_size] when the size is at most
    64 and the seed itself otherwise. *)
Theorem RuntimeBitset_size_num_seeds_block_zero (t_size t_num : Z) (j : Junk)
    (v0 : RuntimeBitset) :
  1 <= t_size <= 2 ^ BLOCK_SIZE - BLOCK_SIZE -> is_word t_num ->
  exists v,
    RuntimeBitset_size_num t_size t_num j v0 = Ret tt v /\
    wf v /\ m_size v = t_size /\
    m_bits v
    = Some (t_num :: drop 1 (new_array (junk_bits j) (num_blocks t_size))) /\
    to_ullong v = Ret (t_num mod 2 ^ Z.min t_size BLOCK_SIZE) v /\
    to_ulong v = Ret (t_num mod 2 ^ Z.min t_size BLOCK_SIZE) v.
Proof.
  intros Hsize Hnum. pose proof (num_blocks_bounds _ Hsize) as [Hb Hr].
  set (l := new_array (junk_bits j) (num_blocks t_size)).
  assert (0 < length l)%nat as Hlen
    by (unfold l; rewrite length_new_array; lia).
  set (v := with_bits (Some (t_num :: drop 1 l)) (built t_size j)).
  assert (length (t_num :: drop 1 l) = length l) as Hlen'
    by (cbn; rewrite length_drop; lia).
  assert (wf v) as Hwf.
  { apply with_bits_wf; [by apply built_wf| |].
    - rewrite Hlen'. unfold l. rewrite length_new_array. cbn. lia.
    - constructor; [done|]. apply Forall_drop, new_array_words. }
  assert (exists m ms, mask_of t_size = m :: ms /\
            Z.land t_num m = t_num mod 2 ^ Z.min t_size BLOCK_SIZE)
    as (m & ms & Hmask & Hland).
  { unfold mask_of.
    destruct (decide (num_blocks t_size = 1)) as [H1|H1].
    - rewrite H1. cbn [Z.sub Z.to_nat replicate app].
      eexists _, _. split; [reflexivity|].
      rewrite Z.land_ones by (unfold BLOCK_SIZE in *; lia).
      f_equal. f_equal. unfold BLOCK_SIZE in *. lia.
    - replace (Z.to_nat (num_blocks t_size - 1))
        with (S (Z.to_nat (num_blocks t_size - 2))) by lia.
      cbn [replicate app]. eexists _, _. split; [reflexivity|].
      rewrite ALL_BITS_ONE_eq, Z.land_ones by (unfold BLOCK_SIZE; lia).
      f_equal. f_equal. unfold BLOCK_SIZE in *. lia. }
  assert (to_ullong v = Ret (t_num mod 2 ^ Z.min t_size BLOCK_SIZE) v) as Hull.
  { unfold to_ullong.
    rewrite (bind_ret _ _ _ _ _
               (get_bits_run v _ 0 t_num eq_refl eq_refl)).
    assert (m_mask v = Some (m :: ms)) as Hm by (cbn; by rewrite Hmask).
    rewrite (bind_ret _ _ _ _ _ (get_mask_run v _ 0 m Hm eq_refl)).
    by rewrite <- Hland. }
  exists v. split; [|done].
  unfold RuntimeBitset_size_num.
  rewrite (bind_ret _ _ _ _ _ (build_run t_size j v0 Hsize)).
  change 0 with (Z.of_nat 0).
  rewrite (set_bits_run (built t_size j) l 0 t_num eq_refl Hlen).
  by rewrite insert_head.
Qed.

(** ** Two objects in the store *)

Lemma on_run {A} (a : nat) (m : M RuntimeBitset A) (σ : store) v :
  σ !! a = Some v ->
  on a m σ =
  match m v with
  | Ret x v' => Ret x (<[a := v']> σ)
  | Throw e v' => Throw e (<[a := v']> σ)
  | Undefined => Undefined
  end.
Proof. intros Ha. unfold on. by rewrite Ha. Qed.

(** A read of the object at [a] leaves the store as it is. *)
Lemma on_read {A} (a : nat) (m : M RuntimeBitset A) (σ : store) v x :
  σ !! a = Some v -> m v = Ret x v -> on a m σ = Ret x σ.
Proof.
  intros Ha Hm. rewrite (on_ret a m σ v x v Ha Hm). by rewrite insert_id.
Qed.

Lemma fresh_lookup (σ : store) : σ !! fresh (dom σ) = None.
Proof. apply not_elem_of_dom, is_fresh. Qed.

Lemma fresh_ne (σ : store) a v : σ !! a = Some v -> fresh (dom σ) ≠ a.
Proof. intros Ha Heq. rewrite <- Heq, fresh_lookup in Ha. done. Qed.

Lemma take_drop_step {A} (l lj : list A) (k : nat) (b : A) :
  l !! k = Some b -> (k < length lj)%nat ->
  <[k := b]> (take k l ++ drop k lj) = take (S k) l ++ drop (S k) lj.
Proof.
  intros Hb Hk. pose proof (lookup_lt_Some _ _ _ Hb) as Hkl.
  assert (length (take k l) = k) as Hlen by (rewrite length_take; lia).
  destruct (lookup_lt_is_Some_2 lj k Hk) as [c Hc].
  rewrite (take_S_r l k b Hb), <- app_assoc, (drop_S lj c k Hc).
  replace k with (length (take k l) + 0)%nat at 1 by lia.
  by rewrite insert_app_r.
Qed.

(** The loop of [copy]: block by block from the object at [src] into
    the object at [dst]. *)
Lemma copy_loop_run (dst src : nat) (σ : store) vs vd l lj :
  dst ≠ src -> σ !! src = Some vs -> σ !! dst = Some vd ->
  m_bits vs = Some l -> m_bits vd = Some lj -> length l = length lj ->
  for_range (length l) 0 1
    (fun i => blockToCopy ← on src (get_bits i);
              on dst (set_bits i blockToCopy)) σ
  = Ret tt (<[dst := with_bits (Some l) vd]> σ).
Proof.
  intros Hne Hs Hd Hl Hlj Hlen.
  destruct (for_range_run
    (fun k (s : store) =>
       s = <[dst := with_bits (Some (take k l ++ drop k lj)) vd]> σ)
    (length l) 0 1
    (fun i => blockToCopy ← on src (get_bits i);
              on dst (set_bits i blockToCopy))) with (s := σ)
    as (s' & -> & ->).
  - intros k s Hk ->. replace (0 + Z.of_nat k * 1) with (Z.of_nat k) by lia.
    destruct (lookup_lt_is_Some_2 l k Hk) as [b Hb].
    eexists. split; [|reflexivity].
    erewrite bind_ret.
    2:{ eapply on_read; [by rewrite lookup_insert_ne|].
        by apply (get_bits_run vs l k b). }
    erewrite on_ret; [|apply lookup_insert_eq|].
    2:{ eapply set_bits_run; [reflexivity|].
        rewrite length_app, length_take, length_drop. lia. }
    rewrite insert_insert_eq, with_bits_with_bits.
    by rewrite take_drop_step by (done || lia).
  - rewrite drop_0. cbn [take app]. rewrite with_bits_same by done.
    by rewrite insert_id.
  - rewrite firstn_all, Hlen, drop_all, app_nil_r. done.
Qed.

Lemma copy_spec (dst src : nat) (j : Junk) (σ : store)
    (vd vs : RuntimeBitset) :
  σ !! dst = Some vd -> σ !! src = Some vs -> dst ≠ src -> wf vs ->
  copy dst src j σ = Ret tt (<[dst := vs]> σ) /\
  copy_assign dst src j σ = Ret tt (<[dst := vs]> σ) /\
  copy_construct dst src j σ = Ret tt (<[dst := vs]> σ).
Proof.
  intros Hd Hs Hne Hwf.
  assert (copy dst src j σ = Ret tt (<[dst := vs]> σ)) as H; [|done].
  destruct (wf_shape vs Hwf) as (l & Hl & Hms & Hlen & Hlm & Hn & Hwords).
  destruct Hwf as (Hsize & Hblocks & _).
  unfold copy.
  rewrite (bind_ret _ _ _ _ _ (on_ret dst destroy σ vd tt raw Hd (destroy_run vd))).
  erewrite bind_ret; [|apply (on_size src _ vs); by rewrite lookup_insert_ne].
  erewrite bind_ret.
  2:{ eapply on_ret; [apply lookup_insert_eq|by apply build_run]. }
  rewrite insert_insert_eq.
  erewrite bind_ret; [|eapply on_read; [apply lookup_insert_eq|reflexivity]].
  cbn [built m_blocks]. rewrite <- Hblocks, <- Hlen, Nat2Z.id.
  rewrite (copy_loop_run dst src _ vs (built (m_size vs) j) l
             (new_array (junk_bits j) (num_blocks (m_size vs))));
    [|done|by rewrite lookup_insert_ne|apply lookup_insert_eq|done|done|].
  - rewrite insert_insert_eq. f_equal. f_equal.
    destruct vs. unfold with_bits, built. simpl in *. by subst.
  - rewrite length_new_array. lia.
Qed.

(** [copy] between two different objects, the source satisfying the
    class invariant: the destination becomes equal to the source, mask
    and every bit of every block included, and nothing else changes.
    This is the copy constructor and the copy assignment. *)
Theorem copy_makes_equal (dst src : nat) (j : Junk) (σ : store)
    (vd vs : RuntimeBitset) :
  σ !! dst = Some vd -> σ !! src = Some vs -> dst ≠ src -> wf vs ->
  copy dst src j σ = Ret tt (<[dst := vs]> σ) /\
  copy_assign dst src j σ = Ret tt (<[dst := vs]> σ) /\
  copy_construct dst src j σ = Ret tt (<[dst := vs]> σ).
Proof. intros. eapply copy_spec; eassumption. Qed.

(** ** Moving *)

Lemma one_bit_in_range : 1 <= 1 <= 2 ^ BLOCK_SIZE - BLOCK_SIZE.
Proof. unfold BLOCK_SIZE. lia. Qed.

Ltac store_read H :=
  erewrite bind_ret; [|eapply on_read; [eapply H|reflexivity]].

Ltac store_write H :=
  erewrite bind_ret; [|eapply on_ret; [eapply H|reflexivity]].

Lemma move_spec (dst src : nat) (j : Junk) (σ : store)
    (vd vs : RuntimeBitset) :
  σ !! dst = Some vd -> σ !! src = Some vs -> dst ≠ src ->
  move dst src j σ = Ret tt (<[src := built 1 j]> (<[dst := vs]> σ)) /\
  move_assign dst src j σ = Ret tt (<[src := built 1 j]> (<[dst := vs]> σ)) /\
  move_construct dst src j σ
  = Ret tt (<[src := built 1 j]> (<[dst := vs]> σ)) /\
  wf (built 1 j) /\ m_size (built 1 j) = 1.
Proof.
  intros Hd Hs Hne.
  assert (move dst src j σ = Ret tt (<[src := built 1 j]> (<[dst := vs]> σ)))
    as H; [|repeat split; try done; apply built_wf, one_bit_in_range].
  unfold move.
  rewrite (bind_ret _ _ _ _ _ (on_ret dst destroy σ vd tt raw Hd (destroy_run vd))).
  assert (forall x, <[dst := x]> σ !! src = Some vs) as Hsrc
    by (intros x; by rewrite lookup_insert_ne).
  assert (forall x, <[dst := x]> σ !! dst = Some x) as Hdst
    by (intros x; apply lookup_insert_eq).
  store_read Hsrc.
  do 4 (store_read Hdst; store_write Hdst; rewrite insert_insert_eq).
  assert (forall x y, <[src := y]> (<[dst := x]> σ) !! src = Some y) as Hsrc'
    by (intros x y; apply lookup_insert_eq).
  store_read Hsrc. store_write Hsrc.
  do 3 (store_read Hsrc'; store_write Hsrc';
        rewrite insert_insert_eq).
  erewrite on_ret;
    [|apply lookup_insert_eq|apply (build_run 1 j _ one_bit_in_range)].
  rewrite insert_insert_eq. do 3 f_equal. by destruct vs.
Qed.

(** [move] between two different objects: the destination takes over
    the arrays, the size and the block count of the source, whatever it
    held; the source is rebuilt as a 1-bit vector whose block is what
    the allocation held (it is not cleared).  This is the move
    constructor and the move assignment. *)
Theorem move_transfers (dst src : nat) (j : Junk) (σ : store)
    (vd vs : RuntimeBitset) :
  σ !! dst = Some vd -> σ !! src = Some vs -> dst ≠ src ->
  move dst src j σ = Ret tt (<[src := built 1 j]> (<[dst := vs]> σ)) /\
  move_assign dst src j σ = Ret tt (<[src := built 1 j]> (<[dst := vs]> σ)) /\
  move_construct dst src j σ
  = Ret tt (<[src := built 1 j]> (<[dst := vs]> σ)) /\
  wf (built 1 j) /\ m_size (built 1 j) = 1.
Proof. intros. eapply move_spec; eassumption. Qed.

(** Moving an object onto itself does not keep it: it ends as the 1-bit
    vector that [build(1)] leaves, and nothing is thrown. *)
Theorem move_onto_itself (a : nat) (j : Junk) (σ : store) (v : RuntimeBitset) :
  σ !! a = Some v ->
  move a a j σ = Ret tt (<[a := built 1 j]> σ) /\
  move_assign a a j σ = Ret tt (<[a := built 1 j]> σ).
Proof.
  intros Ha.
  assert (move a a j σ = Ret tt (<[a := built 1 j]> σ)) as H; [|done].
  unfold move.
  rewrite (bind_ret _ _ _ _ _ (on_ret a destroy σ v tt raw Ha (destroy_run v))).
  assert (forall x, <[a := x]> σ !! a = Some x) as Hdst
    by (intros x; apply lookup_insert_eq).
  store_read Hdst.
  do 8 (store_read Hdst; store_write Hdst; rewrite insert_insert_eq).
  erewrite on_ret;
    [|apply lookup_insert_eq|apply (build_run 1 j _ one_bit_in_range)].
  by rewrite insert_insert_eq.
Qed.

(** ** Logic operators on operands of the same size *)

Lemma RuntimeBitset_size_run t_size j v0 :
  1 <= t_size <= 2 ^ BLOCK_SIZE - BLOCK_SIZE ->
  RuntimeBitset_size t_size j v0
  = Ret tt (with_bits (Some (replicate (Z.to_nat (num_blocks t_size)) 0))
              (built t_size j)).
Proof.
  intros Hsize. pose proof (num_blocks_bounds _ Hsize) as [Hb Hr].
  unfold RuntimeBitset_size.
  rewrite (bind_ret _ _ _ _ _ (build_run t_size j v0 Hsize)).
  rewrite (clean_run (built t_size j) _ eq_refl)
    by (rewrite length_new_array; cbn; lia).
  by rewrite length_new_array.
Qed.

(** The loop of the binary operators: block by block into the local
    object at [aux]. *)
Lemma binary_loop_run op (aux a b : nat) (σ : store) va vb vx la lb lj :
  aux ≠ a -> aux ≠ b ->
  σ !! a = Some va -> σ !! b = Some vb -> σ !! aux = Some vx ->
  m_bits va = Some la -> m_bits vb = Some lb -> m_bits vx = Some lj ->
  length la = length lj -> length lb = length lj ->
  for_range (length lj) 0 1
    (fun i => x ← on a (get_bits i); y ← on b (get_bits i);
              on aux (set_bits i (op x y))) σ
  = Ret tt (<[aux := with_bits (Some (zip_with op la lb)) vx]> σ).
Proof.
  intros Hna Hnb Ha Hb Hx Hla Hlb Hlj Hlena Hlenb.
  set (L := zip_with op la lb).
  assert (length L = length lj) as HL
    by (unfold L; rewrite length_zip_with; lia).
  destruct (for_range_run
    (fun k (s : store) =>
       s = <[aux := with_bits (Some (take k L ++ drop k lj)) vx]> σ)
    (length lj) 0 1
    (fun i => x ← on a (get_bits i); y ← on b (get_bits i);
              on aux (set_bits i (op x y)))) with (s := σ)
    as (s' & -> & ->).
  - intros k s Hk ->. replace (0 + Z.of_nat k * 1) with (Z.of_nat k) by lia.
    destruct (lookup_lt_is_Some_2 la k ltac:(lia)) as [x Hxk].
    destruct (lookup_lt_is_Some_2 lb k ltac:(lia)) as [y Hyk].
    eexists. split; [|reflexivity].
    erewrite bind_ret.
    2:{ eapply on_read; [by rewrite lookup_insert_ne|].
        by apply (get_bits_run va la k x). }
    erewrite bind_ret.
    2:{ eapply on_read; [by rewrite lookup_insert_ne|].
        by apply (get_bits_run vb lb k y). }
    erewrite on_ret; [|apply lookup_insert_eq|].
    2:{ eapply set_bits_run; [reflexivity|].
        rewrite length_app, length_take, length_drop. lia. }
    rewrite insert_insert_eq, with_bits_with_bits.
    rewrite take_drop_step; [done| |lia].
    unfold L. by rewrite lookup_zip_with, Hxk, Hyk.
  - rewrite drop_0. cbn [take app]. rewrite with_bits_same by done.
    by rewrite insert_id.
  - rewrite drop_all, <- HL, firstn_all, app_nil_r. done.
Qed.

Lemma wf_facts v :
  wf v ->
  exists l,
    m_bits v = Some l /\ length l = Z.to_nat (num_blocks (m_size v)) /\
    Forall is_word l /\
    v = with_bits (Some l) (built (m_size v) zero_junk).
Proof.
  intros Hwf. destruct (wf_shape v Hwf) as (l & Hl & Hms & Hlen & _ & _ & Hw).
  destruct Hwf as (_ & Hblocks & _).
  exists l. split; [done|]. split; [lia|]. split; [done|].
  destruct v. unfold with_bits, built. simpl in *. by subst.
Qed.

Lemma binary_operator_run op (a b : nat) (j : Junk) (σ : store) va vb la lb :
  σ !! a = Some va -> σ !! b = Some vb -> wf va -> wf vb ->
  m_size va = m_size vb -> m_bits va = Some la -> m_bits vb = Some lb ->
  binary_operator op a b j σ
  = Ret (with_bits (Some (zip_with op la lb)) va) σ.
Proof.
  intros Ha Hb Hwa Hwb Hsz Hla Hlb.
  destruct (wf_facts va Hwa) as (la' & Hla' & Hlena & _ & Hva).
  destruct (wf_facts vb Hwb) as (lb' & Hlb' & Hlenb & _ & _).
  assert (la' = la) as -> by congruence.
  assert (lb' = lb) as -> by congruence.
  rewrite <- Hsz in Hlenb.
  destruct Hwa as (Hsize & Hblocks & Hmask & _).
  unfold binary_operator.
  rewrite (bind_ret _ _ _ _ _ (on_size _ _ _ Ha)).
  rewrite (bind_ret _ _ _ _ _ (on_size _ _ _ Hb)).
  rewrite decide_False by (intros H; by apply H).
  rewrite (bind_ret _ _ _ _ _ (on_size _ _ _ Ha)).
  unfold with_local.
  set (aux := fresh (dom σ)).
  assert (aux ≠ a) as Hna by (by eapply fresh_ne).
  assert (aux ≠ b) as Hnb by (by eapply fresh_ne).
  set (k := Z.to_nat (num_blocks (m_size va))).
  set (vz := with_bits (Some (replicate k 0)) (built (m_size va) j)).
  erewrite bind_ret.
  2:{ eapply on_ret; [apply lookup_insert_eq|by apply RuntimeBitset_size_run]. }
  rewrite insert_insert_eq. fold k. fold vz.
  erewrite bind_ret; [|eapply on_read; [apply lookup_insert_eq|reflexivity]].
  pose proof (num_blocks_bounds _ Hsize) as [Hnb' _].
  replace (Z.to_nat (m_blocks vz)) with (length (replicate k 0))
    by (rewrite length_replicate; cbn; lia).
  erewrite bind_ret.
  2:{ apply (binary_loop_run op aux a b _ va vb vz la lb (replicate k 0));
        try done; try (by rewrite lookup_insert_ne);
        try apply lookup_insert_eq; rewrite length_replicate; lia. }
  rewrite insert_insert_eq. unfold value_of.
  erewrite on_read; [|apply lookup_insert_eq|reflexivity].
  rewrite delete_insert_id by apply fresh_lookup.
  f_equal. unfold vz, with_bits, built. cbn [m_bits m_mask m_size m_blocks].
  by rewrite Hmask, Hblocks.
Qed.

Lemma zip_with_words (op : Z -> Z -> Z) la lb :
  (forall x y, is_word x -> is_word y -> is_word (op x y)) ->
  Forall is_word la -> Forall is_word lb -> Forall is_word (zip_with op la lb).
Proof.
  intros Hop Ha. revert lb. induction Ha as [|x la Hx _ IH]; intros lb Hb;
    [constructor|].
  destruct Hb as [|y lb Hy Hb]; [constructor|].
  cbn. constructor; [by apply Hop|by apply IH].
Qed.

Lemma bit_at_zip_with (op : Z -> Z -> Z) (bop : bool -> bool -> bool)
    va vb la lb q :
  (forall x y i, Z.testbit (op x y) i = bop (Z.testbit x i) (Z.testbit y i)) ->
  m_bits va = Some la -> m_bits vb = Some lb ->
  (Z.to_nat (q / BLOCK_SIZE) < length la)%nat -> length la = length lb ->
  bit_at (with_bits (Some (zip_with op la lb)) va) q
  = bop (bit_at va q) (bit_at vb q).
Proof.
  intros Hop Hla Hlb Hq Hlen. unfold bit_at. cbn [with_bits m_bits].
  rewrite Hla, Hlb, lookup_zip_with.
  destruct (lookup_lt_is_Some_2 la _ Hq) as [x ->].
  destruct (lookup_lt_is_Some_2 lb (Z.to_nat (q / BLOCK_SIZE)) ltac:(lia))
    as [y ->].
  cbn. apply Hop.
Qed.

(** The result of a binary operator on two vectors of the same size. *)
Lemma binary_result op bop (va vb : RuntimeBitset) la lb :
  (forall x y, is_word x -> is_word y -> is_word (op x y)) ->
  (forall x y i, Z.testbit (op x y) i = bop (Z.testbit x i) (Z.testbit y i)) ->
  wf va -> wf vb -> m_size va = m_size vb ->
  m_bits va = Some la -> m_bits vb = Some lb ->
  let r := with_bits (Some (zip_with op la lb)) va in
  wf r /\ m_size r = m_size va /\
  forall q, 0 <= q < m_size va ->
    test q r = Ret (bop (bit_at va q) (bit_at vb q)) r.
Proof.
  intros Hw Hop Hwa Hwb Hsz Hla Hlb r.
  destruct (wf_facts va Hwa) as (la' & Hla' & Hlena & Hwordsa & _).
  destruct (wf_facts vb Hwb) as (lb' & Hlb' & Hlenb & Hwordsb & _).
  assert (la' = la) as -> by congruence.
  assert (lb' = lb) as -> by congruence.
  assert (wf r) as Hwr.
  { apply with_bits_wf; [done| |by apply zip_with_words].
    rewrite length_zip_with. destruct Hwa as (Hsize & Hbl & _).
    pose proof (num_blocks_bounds _ Hsize). rewrite <- Hsz in Hlenb.
    cbn [m_blocks with_bits]. lia. }
  split; [done|]. split; [done|]. intros q Hq. unfold test.
  rewrite (getValueInPosition_run r q Hwr Hq). f_equal.
  destruct (wf_block va la q Hwa Hla Hq) as (x & _ & _ & Hlt).
  apply bit_at_zip_with; try done. rewrite <- Hsz in Hlenb. lia.
Qed.

(** [a & b], [a | b] and [a ^ b] on two vectors of the same size, which
    may be one and the same object: each returns a new vector of that
    size that satisfies the invariant and whose bit at every position is
    the conjunction, disjunction or exclusive or of the operands' bits;
    the store, hence both operands, is unchanged. *)
Theorem binary_operators_bitwise (a b : nat) (j : Junk) (σ : store)
    (va vb : RuntimeBitset) :
  σ !! a = Some va -> σ !! b = Some vb -> wf va -> wf vb ->
  m_size va = m_size vb ->
  exists r_and r_or r_xor,
    operator_and a b j σ = Ret r_and σ /\
    operator_or a b j σ = Ret r_or σ /\
    operator_xor a b j σ = Ret r_xor σ /\
    wf r_and /\ wf r_or /\ wf r_xor /\
    m_size r_and = m_size va /\ m_size r_or = m_size va /\
    m_size r_xor = m_size va /\
    forall q, 0 <= q < m_size va ->
      test q r_and = Ret (bit_at va q && bit_at vb q) r_and /\
      test q r_or = Ret (bit_at va q || bit_at vb q) r_or /\
      test q r_xor = Ret (xorb (bit_at va q) (bit_at vb q)) r_xor.
Proof.
  intros Ha Hb Hwa Hwb Hsz.
  destruct (wf_facts va Hwa) as (la & Hla & _).
  destruct (wf_facts vb Hwb) as (lb & Hlb & _).
  destruct (binary_result Z.land andb va vb la lb) as (W1 & S1 & T1);
    try done; [intros; by apply land_is_word|apply Z.land_spec|].
  destruct (binary_result Z.lor orb va vb la lb) as (W2 & S2 & T2);
    try done; [intros; by apply lor_is_word|apply Z.lor_spec|].
  destruct (binary_result Z.lxor xorb va vb la lb) as (W3 & S3 & T3);
    try done; [intros; by apply lxor_is_word|apply Z.lxor_spec|].
  eexists _, _, _.
  split; [by apply (binary_operator_run Z.land a b j σ va vb la lb)|].
  split; [by apply (binary_operator_run Z.lor a b j σ va vb la lb)|].
  split; [by apply (binary_operator_run Z.lxor a b j σ va vb la lb)|].
  repeat (split; [done|]). intros q Hq. auto.
Qed.

(** [a &= b], [a |= b] and [a ^= b] on two vectors of the same size,
    which may be one and the same object: the receiver becomes the
    vector that the binary operator returns, and nothing else in the
    store changes. *)
Theorem compound_assignments_store_result (a b : nat) (j j' : Junk)
    (σ : store) (va vb : RuntimeBitset) :
  σ !! a = Some va -> σ !! b = Some vb -> wf va -> wf vb ->
  m_size va = m_size vb ->
  exists r_and r_or r_xor,
    operator_and a b j σ = Ret r_and σ /\
    operator_or a b j σ = Ret r_or σ /\
    operator_xor a b j σ = Ret r_xor σ /\
    operator_and_assign a b j j' σ = Ret tt (<[a := r_and]> σ) /\
    operator_or_assign a b j j' σ = Ret tt (<[a := r_or]> σ) /\
    operator_xor_assign a b j j' σ = Ret tt (<[a := r_xor]> σ).
Proof.
  intros Ha Hb Hwa Hwb Hsz.
  destruct (wf_facts va Hwa) as (la & Hla & _).
  destruct (wf_facts vb Hwb) as (lb & Hlb & _).
  assert (forall op,
    compound_assign op a b j j' σ
    = Ret tt (<[a := with_bits (Some (zip_with op la lb)) va]> σ)) as Hc.
  { intros op. unfold compound_assign.
    rewrite (bind_ret _ _ _ _ _
               (binary_operator_run op a b j σ va vb la lb
                  Ha Hb Hwa Hwb Hsz Hla Hlb)).
    unfold with_local. set (t := fresh (dom σ)).
    assert (t ≠ a) as Hne by (by eapply fresh_ne).
    destruct (move_spec a t j' (<[t := with_bits (Some (zip_with op la lb)) va]> σ)
                va (with_bits (Some (zip_with op la lb)) va))
      as (_ & -> & _);
      [by rewrite lookup_insert_ne|apply lookup_insert_eq|done|].
    f_equal. rewrite delete_insert_eq.
    rewrite delete_insert_ne, delete_insert_eq by done.
    by rewrite delete_id by apply fresh_lookup. }
  eexists _, _, _.
  split; [by apply (binary_operator_run Z.land a b j σ va vb la lb)|].
  split; [by apply (binary_operator_run Z.lor a b j σ va vb la lb)|].
  split; [by apply (binary_operator_run Z.lxor a b j σ va vb la lb)|].
  repeat split; apply Hc.
Qed.

(** ** [operator~] and [Reference] *)

Lemma map_bits_store_run (a : nat) (σ : store) v l (f : Z -> Z) :
  σ !! a = Some v -> m_bits v = Some l ->
  for_range (length l) 0 1
    (fun i => b ← on a (get_bits i); on a (set_bits i (f b))) σ
  = Ret tt (<[a := with_bits (Some (f <$> l)) v]> σ).
Proof.
  intros Ha Hl.
  destruct (for_range_run
    (fun k (s : store) =>
       s = <[a := with_bits (Some ((f <$> take k l) ++ drop k l)) v]> σ)
    (length l) 0 1
    (fun i => b ← on a (get_bits i); on a (set_bits i (f b))))
    with (s := σ) as (s' & -> & ->).
  - intros k s Hk ->. replace (0 + Z.of_nat k * 1) with (Z.of_nat k) by lia.
    destruct (lookup_lt_is_Some_2 l k Hk) as [b Hb].
    eexists. split; [|reflexivity].
    erewrite bind_ret.
    2:{ eapply on_read; [apply lookup_insert_eq|].
        eapply get_bits_run; [reflexivity|].
        rewrite lookup_app_r by (rewrite length_fmap, length_take; lia).
        rewrite length_fmap, length_take, lookup_drop.
        replace (k + (k - k `min` length l))%nat with k by lia. exact Hb. }
    erewrite on_ret; [|apply lookup_insert_eq|].
    2:{ eapply set_bits_run; [reflexivity|].
        rewrite length_app, length_fmap, length_take, length_drop. lia. }
    by rewrite insert_insert_eq, with_bits_with_bits, map_step.
  - rewrite drop_0. cbn [take fmap list_fmap app].
    rewrite with_bits_same by done. by rewrite insert_id.
  - by rewrite firstn_all, drop_all, app_nil_r.
Qed.

(** [~a] changes its operand: the object at [a] is flipped in place,
    exactly as by [flip()], and the value returned is a copy of the
    flipped object. *)
Theorem operator_not_flips_its_operand (a : nat) (j : Junk) (σ : store)
    (v : RuntimeBitset) :
  σ !! a = Some v -> wf v ->
  exists v',
    flip_all v = Ret tt v' /\
    operator_not a j σ = Ret v' (<[a := v']> σ).
Proof.
  intros Ha Hwf.
  destruct (flip_all_spec v Hwf) as (v' & n & Hflip & Hwf' & _).
  destruct (wf_shape v Hwf) as (l & Hl & _ & Hlen & _).
  exists v'. split; [done|].
  rewrite (flip_all_run v l Hl Hlen) in Hflip. injection Hflip as <-.
  unfold operator_not.
  erewrite bind_ret; [|eapply on_read; [exact Ha|reflexivity]].
  rewrite <- Hlen, Nat2Z.id.
  rewrite (bind_ret _ _ _ _ _ (map_bits_store_run a σ v l bit_not Ha Hl)).
  unfold with_local.
  set (σ1 := <[a := with_bits (Some (bit_not <$> l)) v]> σ).
  set (r := fresh (dom σ1)).
  assert (r ≠ a) as Hne by (eapply fresh_ne; apply lookup_insert_eq).
  destruct (copy_spec r a j (<[r := raw]> σ1) raw
              (with_bits (Some (bit_not <$> l)) v)) as (Hcopy & _);
    [apply lookup_insert_eq| | done | done |].
  { rewrite lookup_insert_ne by done. apply lookup_insert_eq. }
  rewrite (bind_ret _ _ _ _ _ Hcopy). unfold value_of.
  erewrite on_read; [|apply lookup_insert_eq|reflexivity].
  rewrite insert_insert_eq, delete_insert_id by apply fresh_lookup.
  done.
Qed.

(** [v[pos]] on a non-const vector checks the position before it makes
    the reference: at or beyond the size it throws
    [RuntimeBitsetOutOfRange], otherwise it returns the reference; the
    store is unchanged in both cases. *)
Theorem operator_index_checks_range (a : nat) (pos : Z) (σ : store)
    (v : RuntimeBitset) :
  σ !! a = Some v ->
  operator_index a pos σ =
  if decide (pos >= m_size v) then Throw RuntimeBitsetOutOfRange σ
  else Ret {| m_position := pos; m_bitset := a |} σ.
Proof.
  intros Ha. unfold operator_index.
  rewrite (bind_ret _ _ _ _ _ (on_size _ _ _ Ha)).
  by destruct (decide (pos >= m_size v)).
Qed.

(** Writing through a reference and reading back: after
    [v[pos] = value] the reference converts to [value], [~v[pos]] is its
    negation and leaves the vector alone, and a reference to any other
    position converts to what that bit was before. *)
Theorem Reference_assign_then_read (a : nat) (pos : Z) (value : bool)
    (σ : store) (v : RuntimeBitset) :
  σ !! a = Some v -> wf v -> 0 <= pos < m_size v ->
  let r := {| m_position := pos; m_bitset := a |} in
  exists σ',
    operator_index a pos σ = Ret r σ /\
    Reference_assign r value σ = Ret tt σ' /\
    Reference_bool r σ' = Ret value σ' /\
    Reference_not r σ' = Ret (negb value) σ' /\
    forall q, 0 <= q < m_size v -> q ≠ pos ->
      Reference_bool {| m_position := q; m_bitset := a |} σ'
      = Ret (bit_at v q) σ'.
Proof.
  intros Ha Hwf Hpos r. subst r.
  assert (exists v',
    (if decide (value = true) then set_pos pos else reset_pos pos) v
      = Ret tt v' /\
    forall q, 0 <= q < m_size v ->
      getValueInPosition q v'
      = Ret (if decide (q = pos) then value else bit_at v q) v')
    as (v' & Hassign & Hread).
  { destruct value.
    - destruct (set_pos_spec v pos Hwf Hpos) as (v' & H1 & _ & _ & H2).
      exists v'. by rewrite decide_True.
    - destruct (reset_pos_spec v pos Hwf Hpos)
        as (v' & H1 & _ & _ & H2).
      exists v'. by rewrite decide_False. }
  assert (forall q, 0 <= q < m_size v ->
    Reference_bool {| m_position := q; m_bitset := a |} (<[a := v']> σ)
    = Ret (if decide (q = pos) then value else bit_at v q) (<[a := v']> σ))
    as Hbool.
  { intros q Hq. unfold Reference_bool. cbn [m_bitset m_position].
    eapply on_read; [apply lookup_insert_eq|by apply Hread]. }
  exists (<[a := v']> σ). split; [|split; [|split; [|split]]].
  - rewrite (operator_index_checks_range a pos σ v Ha).
    by rewrite decide_False by lia.
  - unfold Reference_assign. cbn [m_bitset m_position].
    destruct (decide (value = true)); by apply (on_ret a _ σ v tt v' Ha).
  - rewrite (Hbool pos Hpos). by rewrite decide_True.
  - unfold Reference_not.
    fold (Reference_bool {| m_position := pos; m_bitset := a |}).
    rewrite (bind_ret _ _ _ _ _ (Hbool pos Hpos)). by rewrite decide_True.
  - intros q Hq Hne. rewrite (Hbool q Hq). by rewrite decide_False.
Qed.

(** [v[pos].flip()] inverts the bit the reference stands for. *)
Theorem Reference_flip_inverts (a : nat) (pos : Z) (σ : store)
    (v : RuntimeBitset) :
  σ !! a = Some v -> wf v -> 0 <= pos < m_size v ->
  let r := {| m_position := pos; m_bitset := a |} in
  exists σ',
    Reference_bool r σ = Ret (bit_at v pos) σ /\
    Reference_flip r σ = Ret tt σ' /\
    Reference_bool r σ' = Ret (negb (bit_at v pos)) σ'.
Proof.
  intros Ha Hwf Hpos r. subst r.
  destruct (flip_pos_spec v pos Hwf Hpos)
    as (v' & Hflip & Hwf' & _ & Hread).
  exists (<[a := v']> σ). split; [|split].
  - unfold Reference_bool. cbn [m_bitset m_position].
    eapply on_read; [exact Ha|by apply getValueInPosition_run].
  - unfold Reference_flip. cbn [m_bitset m_position].
    by apply (on_ret a _ σ v tt v' Ha).
  - unfold Reference_bool. cbn [m_bitset m_position].
    eapply on_read; [apply lookup_insert_eq|].
    specialize (Hread pos Hpos). unfold test in Hread.
    by rewrite decide_True in Hread.
Qed.

(** ** The text form *)

Lemma digit_append (buffer : list ascii) (x : Z) :
  (if decide (x mod 2 ≠ 0) then buffer ++ [chr1] else buffer ++ [chr0])
  = buffer ++ [digit (Z.testbit x 0)].
Proof.
  rewrite Z.bit0_odd.
  destruct (decide (x mod 2 ≠ 0)) as [H|H]; rewrite odd_mod2 in H.
  - by rewrite H.
  - apply not_true_is_false in H. by rewrite H.
Qed.

Lemma to_string_block_spec n b k (L : nat) buffer :
  0 <= k -> (L <= n)%nat ->
  to_string_block n (Z.shiftr b k) (Z.ones (Z.of_nat L)) buffer
  = buffer ++ ((fun i : nat => digit (Z.testbit b (k + Z.of_nat i))) <$> seq 0 L).
Proof.
  revert k L buffer. induction n as [|n IH]; intros k L buffer Hk HL.
  - assert (L = 0%nat) as -> by lia. by rewrite app_nil_r.
  - cbn [to_string_block]. rewrite Z.shiftr_shiftr by lia.
    destruct L as [|L].
    + change (Z.ones (Z.of_nat 0)) with 0. rewrite Z.shiftr_0_l.
      rewrite decide_False by (intros H; by apply H).
      exact (IH (k + 1) 0%nat buffer ltac:(lia) ltac:(lia)).
    + rewrite ones_shiftr by lia.
      replace (Z.of_nat (S L) - 1) with (Z.of_nat L) by lia.
      rewrite decide_True.
      2:{ rewrite odd_mod2, <- Z.bit0_odd, Z.testbit_ones_nonneg by lia.
          by apply Z.ltb_lt; lia. }
      rewrite digit_append, IH by lia.
      rewrite Z.shiftr_spec, Z.add_0_l by lia.
      rewrite <- app_assoc. f_equal. cbn [seq fmap list_fmap app].
      f_equal; [by rewrite Z.add_0_r|].
      rewrite <- fmap_S_seq, <- list_fmap_compose.
      apply list_fmap_ext. intros i x _. cbn. do 2 f_equal. lia.
Qed.

Lemma masked_block_string b (L : nat) :
  (L <= Z.to_nat BLOCK_SIZE)%nat ->
  to_string_block (Z.to_nat BLOCK_SIZE) (Z.land b (Z.ones (Z.of_nat L)))
    (Z.ones (Z.of_nat L)) []
  = digits_of_block b L.
Proof.
  intros HL.
  rewrite <- (Z.shiftr_0_r (Z.land b _)).
  rewrite to_string_block_spec by (done || lia).
  cbn [app]. unfold digits_of_block. apply list_fmap_ext.
  intros i x Hx. apply lookup_seq in Hx as [-> Hi].
  rewrite Z.add_0_l, Z.land_spec, Z.testbit_ones_nonneg by lia.
  replace (Z.of_nat (0 + i) <? Z.of_nat L) with true
    by (symmetry; apply Z.ltb_lt; lia).
  by rewrite andb_true_r.
Qed.

Lemma fold_reverse_concat {X} (g : X -> list ascii) (L : list X) :
  fold_left (fun (s : list ascii) x => s ++ reverse (g x)) (reverse L) []
  = reverse (concat (g <$> L)).
Proof.
  induction L as [|x L IH]; [done|].
  rewrite reverse_cons, fold_left_app. cbn [fold_left fmap list_fmap concat].
  by rewrite IH, reverse_app.
Qed.

Lemma full_blocks_strings lf :
  (fun xm : Z * Z => to_string_block (Z.to_nat BLOCK_SIZE) xm.1 xm.2 [])
    <$> zip (zip_with Z.land lf (replicate (length lf) ALL_BITS_ONE))
            (replicate (length lf) ALL_BITS_ONE)
  = (fun b => digits_of_block b (Z.to_nat BLOCK_SIZE)) <$> lf.
Proof.
  induction lf as [|b lf IH]; [done|].
  cbn [length replicate zip_with fmap list_fmap fst snd]. f_equal; [|exact IH].
  rewrite ALL_BITS_ONE_eq.
  change BLOCK_SIZE with (Z.of_nat (Z.to_nat BLOCK_SIZE)) at 2 3.
  by apply masked_block_string.
Qed.

(** Digit [p] of the blocks laid end to end. *)
Lemma flatten_digits lf bl (n : nat) :
  (n <= 64)%nat ->
  concat ((fun b => digits_of_block b 64) <$> lf) ++ digits_of_block bl n
  = (fun p : nat =>
       digit (Z.testbit (default 0 ((lf ++ [bl]) !! (p / 64)%nat))
                (Z.of_nat (p mod 64))))
      <$> seq 0 (64 * length lf + n).
Proof.
  intros Hn. induction lf as [|b lf IH].
  - cbn [fmap list_fmap concat app length]. rewrite Nat.mul_0_r, Nat.add_0_l.
    unfold digits_of_block. apply list_fmap_ext.
    intros i p Hp. apply lookup_seq in Hp as [-> Hi]. cbn [Nat.add].
    rewrite Nat.div_small, Nat.mod_small by lia. done.
  - cbn [fmap list_fmap concat length]. rewrite <- app_assoc, IH.
    replace (64 * S (length lf) + n)%nat
      with (64 + (64 * length lf + n))%nat by lia.
    rewrite (seq_app 64 (64 * length lf + n) 0), fmap_app.
    assert (digits_of_block b 64
            = (fun p : nat =>
                 digit (Z.testbit
                          (default 0 (((b :: lf) ++ [bl]) !! (p / 64)%nat))
                          (Z.of_nat (p mod 64)))) <$> seq 0 64) as ->.
    { unfold digits_of_block. apply list_fmap_ext.
      intros i p Hp. apply lookup_seq in Hp as [-> Hi]. cbn [Nat.add].
      rewrite Nat.div_small, Nat.mod_small by lia. done. }
    f_equal. change (0 + 64)%nat with (64 + 0)%nat.
    rewrite <- (fmap_add_seq 64 0), <- list_fmap_compose.
    apply list_fmap_ext. intros i p _. cbn [compose].
    replace (64 + p)%nat with (p + 1 * 64)%nat by lia.
    rewrite Nat.div_add, Nat.Div0.mod_add by lia.
    by rewrite Nat.add_1_r.
Qed.

Lemma bit_at_nat v l (p : nat) :
  m_bits v = Some l ->
  bit_at v (Z.of_nat p)
  = Z.testbit (default 0 (l !! (p / 64)%nat)) (Z.of_nat (p mod 64)).
Proof.
  intros Hl. unfold bit_at, BLOCK_SIZE. rewrite Hl.
  change 64 with (Z.of_nat 64).
  by rewrite <- Nat2Z.inj_div, <- Nat2Z.inj_mod, Nat2Z.id.
Qed.

Lemma to_string_spec v :
  wf v -> to_string v = Ret (reverse (digit <$> bits_of v)) v.
Proof.
  intros Hwf.
  destruct (wf_shape v Hwf) as (l & Hl & Hms & Hlen & Hlm & Hn & _).
  destruct Hwf as (Hsize & Hblocks & _).
  pose proof (num_blocks_bounds _ Hsize) as [Hb Hr].
  rewrite (to_string_run v l _ Hl Hms Hlen Hlm)
    by (unfold BLOCK_SIZE in *; simpl in *; lia).
  rewrite (fold_reverse_concat
             (fun xm : Z * Z =>
                to_string_block (Z.to_nat BLOCK_SIZE) xm.1 xm.2 [])).
  do 2 f_equal.
  destruct l as [|bl lf _] using rev_ind; [simpl in Hlen; lia|].
  rewrite length_app in Hlen. cbn [length] in Hlen.
  assert (Z.to_nat (num_blocks (m_size v) - 1) = length lf) as Hlf by lia.
  set (n := Z.to_nat (m_size v - (num_blocks (m_size v) - 1) * BLOCK_SIZE)).
  assert (n <= 64)%nat as Hn64 by (unfold n, BLOCK_SIZE in *; lia).
  unfold mask_of. rewrite Hlf.
  replace (m_size v - (num_blocks (m_size v) - 1) * BLOCK_SIZE)
    with (Z.of_nat n) by (unfold n, BLOCK_SIZE in *; lia).
  rewrite zip_with_app by (by rewrite length_replicate).
  rewrite (zip_with_app pair)
    by (by rewrite length_zip_with, length_replicate, Nat.min_id).
  rewrite fmap_app, full_blocks_strings, concat_app.
  cbn [zip_with fmap list_fmap fst snd concat]. rewrite app_nil_r.
  rewrite masked_block_string by (unfold BLOCK_SIZE; lia).
  change (Z.to_nat BLOCK_SIZE) with 64%nat. rewrite (flatten_digits lf bl n Hn64).
  unfold bits_of. rewrite <- list_fmap_compose.
  replace (Z.to_nat (m_size v)) with (64 * length lf + n)%nat
    by (unfold n, BLOCK_SIZE in *; lia).
  apply list_fmap_ext. intros i p _. cbn [compose].
  by rewrite (bit_at_nat v (lf ++ [bl]) p Hl).
Qed.

Lemma length_bits_of v : length (bits_of v) = Z.to_nat (m_size v).
Proof. unfold bits_of. by rewrite length_fmap, length_seq. Qed.

Lemma bits_of_lookup v (p : nat) :
  (p < Z.to_nat (m_size v))%nat ->
  bits_of v !! p = Some (bit_at v (Z.of_nat p)).
Proof.
  intros Hp. unfold bits_of. rewrite list_lookup_fmap.
  by rewrite (proj2 (lookup_seq 0 _ p p) (conj eq_refl Hp)).
Qed.

(** [to_string()] on a vector that satisfies the class invariant leaves
    it unchanged and returns [size()] characters, most significant bit
    first: the character at index [i] is ['1'] if bit [size - 1 - i] is
    set and ['0'] otherwise. *)
Theorem to_string_digits (v : RuntimeBitset) :
  wf v ->
  exists s : list ascii,
    to_string v = Ret s v /\ Z.of_nat (length s) = m_size v /\
    forall i, 0 <= i < m_size v ->
      s !! Z.to_nat i = Some (digit (bit_at v (m_size v - 1 - i))).
Proof.
  intros Hwf. exists (reverse (digit <$> bits_of v)).
  split; [by apply to_string_spec|].
  destruct Hwf as (Hsize & _).
  split; [rewrite length_reverse, length_fmap, length_bits_of; lia|].
  intros i Hi.
  rewrite reverse_lookup by (rewrite length_fmap, length_bits_of; lia).
  rewrite length_fmap, length_bits_of, list_lookup_fmap.
  rewrite bits_of_lookup by lia. cbn. do 3 f_equal. lia.
Qed.

Lemma to_string_digits_witness :
  wf bits8 /\
  exists s : list ascii,
    to_string bits8 = Ret s bits8 /\ Z.of_nat (length s) = m_size bits8 /\
    forall i, 0 <= i < m_size bits8 ->
      s !! Z.to_nat i = Some (digit (bit_at bits8 (m_size bits8 - 1 - i))).
Proof.
  assert (wf bits8) as Hwf.
  { unfold wf, bits8; cbn [m_bits m_mask m_size m_blocks].
    split; [unfold BLOCK_SIZE; lia|].
    split; [reflexivity|]. split; [reflexivity|]. split; [reflexivity|].
    repeat constructor; unfold is_word, BLOCK_SIZE; lia. }
  split; [exact Hwf|]. apply (to_string_digits bits8 Hwf).
Defined.

(** ** Building from a string *)

Lemma set_pos_bits v pos :
  wf v -> 0 <= pos < m_size v ->
  exists v',
    set_pos pos v = Ret tt v' /\ wf v' /\ m_size v' = m_size v /\
    forall q, 0 <= q < m_size v ->
      bit_at v' q = if decide (q = pos) then true else bit_at v q.
Proof.
  intros Hwf Hpos.
  destruct (set_pos_spec v pos Hwf Hpos) as (v' & Hset & Hwf' & Hsz & Hread).
  exists v'. repeat (split; [done|]). intros q Hq.
  specialize (Hread q Hq). unfold test in Hread.
  rewrite (getValueInPosition_run v' q Hwf') in Hread by lia.
  by injection Hread.
Qed.

Lemma string_index_run (s : list ascii) (k : nat) c (v : RuntimeBitset) :
  s !! k = Some c ->
  defined (St := RuntimeBitset) (s !! Z.to_nat (Z.of_nat k)) v = Ret c v.
Proof. intros Hc. by rewrite Nat2Z.id, Hc. Qed.

Lemma buildFromString_loop (s : list ascii) (j : Junk) :
  Forall is_digit s ->
  1 <= Z.of_nat (length s) <= 2 ^ BLOCK_SIZE - BLOCK_SIZE ->
  exists v,
    for_range (length s) 0 1
      (fun i =>
         c ← defined (s !! Z.to_nat i);
         if decide (c = chr1)
         then set_pos (wrap (wrap (Z.of_nat (length s) - 1) - i))
         else if decide (c = chr0) then mret tt
         else throw RuntimeBitsetUnknownChar)
      (built (Z.of_nat (length s)) j) = Ret tt v /\
    read_prefix s j (length s) v.
Proof.
  intros Hdigits Hlen. set (len := Z.of_nat (length s)) in *.
  apply (for_range_run (read_prefix s j)).
  - intros k v Hk (Hwf & Hsz & Hbits). fold len in Hsz, Hbits.
    replace (0 + Z.of_nat k * 1) with (Z.of_nat k) by lia.
    destruct (lookup_lt_is_Some_2 s k Hk) as [c Hc].
    rewrite (bind_ret _ _ _ _ _ (string_index_run s k c v Hc)).
    rewrite (wrap_small (len - 1)) by (unfold is_word, BLOCK_SIZE in *; lia).
    rewrite (wrap_small (len - 1 - Z.of_nat k))
      by (unfold is_word, BLOCK_SIZE in *; lia).
    assert (is_digit c) as Hd
      by (by apply (proj1 (Forall_lookup _ _) Hdigits k c)).
    destruct (decide (c = chr1)) as [->|Hne1].
    + destruct (set_pos_bits v (len - 1 - Z.of_nat k) Hwf ltac:(lia))
        as (v' & Hset & Hwf' & Hsz' & Hbits').
      exists v'. split; [done|]. split; [done|]. split; [lia|].
      fold len. intros q Hq. rewrite Hbits' by lia.
      destruct (decide (q = len - 1 - Z.of_nat k)) as [->|Hq'].
      * replace (Z.to_nat (len - 1 - (len - 1 - Z.of_nat k))) with k by lia.
        rewrite Hc, !bool_decide_true by (done || lia).
        by rewrite orb_true_r.
      * rewrite Hbits by done. do 2 f_equal. apply bool_decide_ext. lia.
    + destruct Hd as [Hd|Hd]; [subst c|done]. rewrite decide_True by done.
      exists v. split; [done|]. split; [done|]. split; [done|].
      fold len. intros q Hq. rewrite Hbits by done. f_equal.
      destruct (decide (q = len - 1 - Z.of_nat k)) as [->|Hq'].
      * replace (Z.to_nat (len - 1 - (len - 1 - Z.of_nat k))) with k by lia.
        rewrite Hc. rewrite (bool_decide_false (Some chr0 = Some chr1)) by done.
        by rewrite !andb_false_r.
      * f_equal. apply bool_decide_ext. lia.
  - split; [by apply built_wf|]. split; [done|]. fold len.
    intros q Hq. rewrite bool_decide_false by lia. by rewrite orb_false_r.
Qed.

Lemma buildFromString_run (s : list ascii) (j : Junk) (v0 : RuntimeBitset) :
  Forall is_digit s ->
  1 <= Z.of_nat (length s) <= 2 ^ BLOCK_SIZE - BLOCK_SIZE ->
  exists v,
    buildFromString s j v0 = Ret tt v /\ wf v /\
    m_size v = Z.of_nat (length s) /\
    forall q, 0 <= q < Z.of_nat (length s) ->
      bit_at v q
      = bit_at (built (Z.of_nat (length s)) j) q
        || bool_decide (s !! Z.to_nat (Z.of_nat (length s) - 1 - q)
                        = Some chr1).
Proof.
  intros Hdigits Hlen.
  destruct (buildFromString_loop s j Hdigits Hlen)
    as (v & Hloop & Hwf & Hsz & Hbits).
  exists v. split; [|split; [done|split; [done|]]].
  - unfold buildFromString.
    rewrite (bind_ret _ _ _ _ _ (destroy_run v0)).
    by rewrite (bind_ret _ _ _ _ _ (build_run _ j raw Hlen)).
  - intros q Hq. rewrite Hbits by done.
    rewrite (bool_decide_true (_ <= q)) by lia. done.
Qed.

(** [buildFromString] and the string constructor on a string of ['0']
    and ['1'] characters of length 1 to [2^64 - 64]: the result has the
    length of the string as its size and satisfies the invariant;
    [test(q)] is true when the character at index [size - 1 - q] is
    ['1'], and otherwise returns the bit that the uninitialised
    allocation held at [q], since the blocks are never cleared. *)
Theorem buildFromString_sets_ones (s : list ascii) (j : Junk)
    (v0 : RuntimeBitset) :
  Forall is_digit s ->
  1 <= Z.of_nat (length s) <= 2 ^ BLOCK_SIZE - BLOCK_SIZE ->
  exists v,
    buildFromString s j v0 = Ret tt v /\
    RuntimeBitset_string s j v0 = Ret tt v /\
    wf v /\ m_size v = Z.of_nat (length s) /\
    forall q, 0 <= q < Z.of_nat (length s) ->
      test q v
      = Ret (bit_at (built (Z.of_nat (length s)) j) q
             || bool_decide (s !! Z.to_nat (Z.of_nat (length s) - 1 - q)
                             = Some chr1)) v.
Proof.
  intros Hdigits Hlen.
  destruct (buildFromString_run s j v0 Hdigits Hlen)
    as (v & Hrun & Hwf & Hsz & Hbits).
  exists v. repeat (split; [done|]). intros q Hq. unfold test.
  rewrite (getValueInPosition_run v q Hwf) by lia. by rewrite Hbits.
Qed.

Lemma new_array_zeroed j n : zeroed j -> new_array (junk_bits j) n = replicate (Z.to_nat n) 0.
Proof.
  intros Hz. unfold new_array. generalize 0%nat at 1.
  induction (Z.to_nat n) as [|k IH]; intros start; [done|].
  cbn [seq map replicate]. by rewrite Hz, IH.
Qed.

Lemma built_zeroed_bit j n q : zeroed j -> bit_at (built n j) q = false.
Proof.
  intros Hz. unfold built. rewrite (new_array_zeroed j _ Hz).
  apply (bit_at_zeros {| m_bits := None; m_mask := Some (mask_of n);
                         m_size := n; m_blocks := num_blocks n |}).
Qed.

Lemma digit_of_digit c : is_digit c -> digit (bool_decide (Some c = Some chr1)) = c.
Proof. by intros [-> | ->]. Qed.

Lemma digits_are_digits (bs : list bool) : Forall is_digit (digit <$> bs).
Proof.
  apply Forall_fmap, Forall_true. intros []; [by right|by left].
Qed.

Lemma text_lookup v i :
  1 <= m_size v -> 0 <= i < m_size v ->
  reverse (digit <$> bits_of v) !! Z.to_nat i
  = Some (digit (bit_at v (m_size v - 1 - i))).
Proof.
  intros Hsize Hi.
  rewrite reverse_lookup by (rewrite length_fmap, length_bits_of; lia).
  rewrite length_fmap, length_bits_of, list_lookup_fmap.
  rewrite bits_of_lookup by lia. cbn. do 3 f_equal. lia.
Qed.

(** Where the allocation finds zeroed memory, building a vector from a
    string of ['0'] and ['1'] characters and printing it gives the
    string back. *)
Theorem string_to_vector_to_string (s : list ascii) (j : Junk)
    (v0 : RuntimeBitset) :
  Forall is_digit s ->
  1 <= Z.of_nat (length s) <= 2 ^ BLOCK_SIZE - BLOCK_SIZE ->
  zeroed j ->
  exists v,
    RuntimeBitset_string s j v0 = Ret tt v /\ to_string v = Ret s v.
Proof.
  intros Hdigits Hlen Hz.
  destruct (buildFromString_run s j v0 Hdigits Hlen)
    as (v & Hrun & Hwf & Hsz & Hbits).
  exists v. split; [done|]. rewrite (to_string_spec v Hwf). f_equal.
  apply list_eq. intros i.
  destruct (decide (i < length s)%nat) as [Hi|Hi].
  - rewrite reverse_lookup by (rewrite length_fmap, length_bits_of; lia).
    rewrite length_fmap, length_bits_of, list_lookup_fmap.
    rewrite bits_of_lookup by lia.
    destruct (lookup_lt_is_Some_2 s i Hi) as [c Hc].
    rewrite Hc. cbn [fmap option_fmap option_map]. f_equal.
    rewrite Hbits, built_zeroed_bit by (done || lia). cbn [orb].
    replace (Z.to_nat (Z.of_nat (length s) - 1
                       - Z.of_nat (Z.to_nat (m_size v) - S i)))
      with i by lia.
    rewrite Hc. apply digit_of_digit.
    by apply (proj1 (Forall_lookup _ _) Hdigits i c).
  - rewrite (lookup_ge_None_2 s) by lia. apply lookup_ge_None_2.
    rewrite length_reverse, length_fmap, length_bits_of. lia.
Qed.

Lemma string_to_vector_to_string_witness :
  Forall is_digit (str "10110100") /\
  1 <= Z.of_nat (length (str "10110100")) <= 2 ^ BLOCK_SIZE - BLOCK_SIZE /\
  zeroed zero_junk /\
  exists v,
    RuntimeBitset_string (str "10110100") zero_junk raw = Ret tt v /\
    to_string v = Ret (str "10110100") v.
Proof.
  assert (Forall is_digit (str "10110100")) as H1
    by (repeat constructor; (by left) || (by right)).
  assert (1 <= Z.of_nat (length (str "10110100"))
          <= 2 ^ BLOCK_SIZE - BLOCK_SIZE) as H2
    by (cbn; unfold BLOCK_SIZE; lia).
  assert (zeroed zero_junk) as H3 by (intros i; reflexivity).
  split; [exact H1|]. split; [exact H2|]. split; [exact H3|].
  apply (string_to_vector_to_string (str "10110100") zero_junk raw H1 H2 H3).
Defined.

(** Where the allocation finds zeroed memory, printing a vector that
    satisfies the invariant and building a vector from the string gives
    a vector of the same size with the same bit at every position. *)
Theorem vector_to_string_to_vector (v : RuntimeBitset) (j : Junk)
    (v0 : RuntimeBitset) :
  wf v -> zeroed j ->
  exists (s : list ascii) (v' : RuntimeBitset),
    to_string v = Ret s v /\ RuntimeBitset_string s j v0 = Ret tt v' /\
    wf v' /\ m_size v' = m_size v /\
    forall q, 0 <= q < m_size v ->
      test q v' = Ret (bit_at v q) v' /\ test q v = Ret (bit_at v q) v.
Proof.
  intros Hwf Hz. pose proof Hwf as (Hsize & _).
  set (s := reverse (digit <$> bits_of v)).
  assert (length s = Z.to_nat (m_size v)) as Hls
    by (unfold s; by rewrite length_reverse, length_fmap, length_bits_of).
  assert (Forall is_digit s) as Hdigits.
  { unfold s. apply Forall_reverse, digits_are_digits. }
  destruct (buildFromString_run s j v0 Hdigits ltac:(lia))
    as (v' & Hrun & Hwf' & Hsz & Hbits).
  exists s, v'. split; [by apply to_string_spec|]. split; [done|].
  split; [done|]. split; [lia|]. intros q Hq. unfold test.
  rewrite (getValueInPosition_run v q Hwf Hq).
  rewrite (getValueInPosition_run v' q Hwf') by lia.
  split; [|done]. f_equal.
  rewrite Hbits, built_zeroed_bit by (done || lia). cbn [orb].
  replace (Z.of_nat (length s)) with (m_size v) by lia.
  unfold s. rewrite (text_lookup v (m_size v - 1 - q)) by lia.
  replace (m_size v - 1 - (m_size v - 1 - q)) with q by lia.
  by destruct (bit_at v q).
Qed.

Lemma vector_to_string_to_vector_witness :
  wf bits65 /\ zeroed zero_junk /\
  exists (s : list ascii) (v' : RuntimeBitset),
    to_string bits65 = Ret s bits65 /\
    RuntimeBitset_string s zero_junk raw = Ret tt v' /\
    wf v' /\ m_size v' = m_size bits65 /\
    forall q, 0 <= q < m_size bits65 ->
      test q v' = Ret (bit_at bits65 q) v' /\
      test q bits65 = Ret (bit_at bits65 q) bits65.
Proof.
  assert (wf bits65) as Hwf.
  { unfold wf, bits65; cbn [m_bits m_mask m_size m_blocks].
    split; [unfold BLOCK_SIZE; lia|].
    split; [reflexivity|]. split; [reflexivity|]. split; [reflexivity|].
    repeat constructor; unfold is_word, BLOCK_SIZE; lia. }
  assert (zeroed zero_junk) as Hz by (intros i; reflexivity).
  split; [exact Hwf|]. split; [exact Hz|].
  apply (vector_to_string_to_vector bits65 zero_junk raw Hwf Hz).
Defined.

Lemma set_pos_keeps v pos :
  wf v -> 0 <= pos < m_size v ->
  exists v', set_pos pos v = Ret tt v' /\ wf v' /\ m_size v' = m_size v.
Proof.
  intros Hwf Hpos.
  destruct (set_pos_spec v pos Hwf Hpos) as (v' & H1 & H2 & H3 & _).
  by exists v'.
Qed.

(** [buildFromString] and the string constructor on a string with a
    character other than ['0'] and ['1'] throw
    [RuntimeBitsetUnknownChar], but only after the receiver has been
    destroyed and rebuilt with the length of the string as its size:
    the vector that was there before is lost. *)
Theorem buildFromString_unknown_character (s : list ascii) (j : Junk)
    (v0 : RuntimeBitset) :
  ~ Forall is_digit s ->
  1 <= Z.of_nat (length s) <= 2 ^ BLOCK_SIZE - BLOCK_SIZE ->
  exists v,
    buildFromString s j v0 = Throw RuntimeBitsetUnknownChar v /\
    RuntimeBitset_string s j v0 = Throw RuntimeBitsetUnknownChar v /\
    wf v /\ m_size v = Z.of_nat (length s).
Proof.
  intros Hbad Hlen. set (len := Z.of_nat (length s)) in *.
  assert (exists v, buildFromString s j v0 = Throw RuntimeBitsetUnknownChar v /\
                    wf v /\ m_size v = len) as (v & H1 & H2 & H3);
    [|by exists v].
  unfold buildFromString. fold len.
  rewrite (bind_ret _ _ _ _ _ (destroy_run v0)).
  rewrite (bind_ret _ _ _ _ _ (build_run _ j raw Hlen)).
  pose proof (sat_for_range_idx
    (fun k v => wf v /\ m_size v = len /\ Forall is_digit (take k s))
    (fun e v => e = RuntimeBitsetUnknownChar /\ wf v /\ m_size v = len)
    False (length s) 0 1
    (fun i =>
       c ← defined (s !! Z.to_nat i);
       if decide (c = chr1) then set_pos (wrap (wrap (len - 1) - i))
       else if decide (c = chr0) then mret tt
       else throw RuntimeBitsetUnknownChar)) as Hsat.
  specialize (Hsat ltac:(
    intros k v Hk (Hwf & Hsz & Hpre);
    replace (0 + Z.of_nat k * 1) with (Z.of_nat k) by lia;
    destruct (lookup_lt_is_Some_2 s k Hk) as [c Hc];
    rewrite (bind_ret _ _ _ _ _ (string_index_run s k c v Hc));
    rewrite (wrap_small (len - 1)) by (unfold is_word, BLOCK_SIZE in *; lia);
    rewrite (wrap_small (len - 1 - Z.of_nat k))
      by (unfold is_word, BLOCK_SIZE in *; lia);
    rewrite (take_S_r s k c Hc);
    destruct (decide (c = chr1)) as [->|Hne1];
    [destruct (set_pos_keeps v (len - 1 - Z.of_nat k) Hwf ltac:(lia))
       as (v' & -> & Hwf' & Hsz');
     cbn [sat]; split; [done|]; split; [lia|];
     apply Forall_app; split; [done|]; apply Forall_singleton; by right
    |destruct (decide (c = chr0)) as [->|Hne0];
     [cbn [sat]; split; [done|]; split; [done|];
      apply Forall_app; split; [done|]; apply Forall_singleton; by left
     |cbn [sat]; done]])).
  specialize (Hsat (built len j)
    ltac:(split; [by apply built_wf|]; split; [done|]; constructor)).
  destruct (for_range (length s) 0 1 _ (built len j)) as [[] v|e v|];
    cbn [sat] in Hsat.
  - exfalso. apply Hbad. destruct Hsat as (_ & _ & Hall).
    by rewrite firstn_all in Hall.
  - destruct Hsat as (-> & Hwf & Hsz). by exists v.
  - done.
Qed.

Lemma buildFromString_unknown_character_witness :
  ~ Forall is_digit (str "10x01") /\
  1 <= Z.of_nat (length (str "10x01")) <= 2 ^ BLOCK_SIZE - BLOCK_SIZE /\
  exists v,
    buildFromString (str "10x01") ones_junk bits65
    = Throw RuntimeBitsetUnknownChar v /\
    RuntimeBitset_string (str "10x01") ones_junk bits65
    = Throw RuntimeBitsetUnknownChar v /\
    wf v /\ m_size v = Z.of_nat (length (str "10x01")).
Proof.
  assert (~ Forall is_digit (str "10x01")) as H1.
  { intros H. apply (proj1 (Forall_lookup _ _)) with (i := 2%nat) (x := "x"%char)
      in H; [|reflexivity].
    destruct H as [H|H]; discriminate H. }
  assert (1 <= Z.of_nat (length (str "10x01"))
          <= 2 ^ BLOCK_SIZE - BLOCK_SIZE) as H2
    by (cbn; unfold BLOCK_SIZE; lia).
  split; [exact H1|]. split; [exact H2|].
  apply (buildFromString_unknown_character (str "10x01") ones_junk bits65 H1 H2).
Defined.

Lemma buildFromString_sets_ones_witness :
  Forall is_digit (str "101") /\
  1 <= Z.of_nat (length (str "101")) <= 2 ^ BLOCK_SIZE - BLOCK_SIZE /\
  exists v,
    buildFromString (str "101") ones_junk bits8 = Ret tt v /\
    RuntimeBitset_string (str "101") ones_junk bits8 = Ret tt v /\
    wf v /\ m_size v = Z.of_nat (length (str "101")) /\
    forall q, 0 <= q < Z.of_nat (length (str "101")) ->
      test q v
      = Ret (bit_at (built (Z.of_nat (length (str "101"))) ones_junk) q
             || bool_decide
                  (str "101" !! Z.to_nat (Z.of_nat (length (str "101")) - 1 - q)
                   = Some chr1)) v.
Proof.
  assert (Forall is_digit (str "101")) as H1
    by (repeat constructor; (by left) || (by right)).
  assert (1 <= Z.of_nat (length (str "101"))
          <= 2 ^ BLOCK_SIZE - BLOCK_SIZE) as H2
    by (cbn; unfold BLOCK_SIZE; lia).
  split; [exact H1|]. split; [exact H2|].
  apply (buildFromString_sets_ones (str "101") ones_junk bits8 H1 H2).
Defined.

(** ** Lists given by their entries *)

Lemma length_tabulate F n : length (tabulate F n) = n.
Proof. unfold tabulate. by rewrite length_fmap, length_seq. Qed.

Lemma lookup_tabulate F n t : (t < n)%nat -> tabulate F n !! t = Some (F t).
Proof.
  intros Ht. unfold tabulate. rewrite list_lookup_fmap.
  by rewrite (proj2 (lookup_seq 0 n t t) (conj eq_refl Ht)).
Qed.

Lemma tabulate_ext F G n :
  (forall t, (t < n)%nat -> F t = G t) -> tabulate F n = tabulate G n.
Proof.
  intros H. unfold tabulate. apply list_fmap_ext.
  intros i t Ht. apply lookup_seq in Ht as [-> Hi]. by apply H.
Qed.

Lemma insert_tabulate F n i x :
  (i < n)%nat -> <[i := x]> (tabulate F n) = tabulate (upd F i x) n.
Proof.
  intros Hi. apply list_eq. intros t.
  destruct (decide (t < n)%nat) as [Ht|Ht].
  - rewrite (lookup_tabulate (upd F i x)) by done. unfold upd.
    destruct (decide (t = i)) as [->|Hne].
    + by rewrite list_lookup_insert_eq by (by rewrite length_tabulate).
    + rewrite list_lookup_insert_ne by done. by apply lookup_tabulate.
  - rewrite !(lookup_ge_None_2 _ t);
      rewrite ?length_insert, ?length_tabulate; (done || lia).
Qed.

Lemma list_as_tabulate l : l = tabulate (entry l) (length l).
Proof.
  apply list_eq. intros t. destruct (decide (t < length l)%nat) as [Ht|Ht].
  - rewrite lookup_tabulate by done. unfold entry.
    destruct (lookup_lt_is_Some_2 l t Ht) as [x ->]. done.
  - rewrite !(lookup_ge_None_2 _ t); rewrite ?length_tabulate; (done || lia).
Qed.

Lemma entry_tabulate F n t : (t < n)%nat -> entry (tabulate F n) t = F t.
Proof. intros Ht. unfold entry. by rewrite lookup_tabulate. Qed.

Lemma get_bits_tab v F n (i : nat) :
  m_bits v = Some (tabulate F n) -> (i < n)%nat ->
  get_bits (Z.of_nat i) v = Ret (F i) v.
Proof. intros Hl Hi. eapply get_bits_run; [done|by apply lookup_tabulate]. Qed.

Lemma set_bits_tab v F n (i : nat) x :
  m_bits v = Some (tabulate F n) -> (i < n)%nat ->
  set_bits (Z.of_nat i) x v
  = Ret tt (with_bits (Some (tabulate (upd F i x) n)) v).
Proof.
  intros Hl Hi.
  rewrite (set_bits_run v _ i x Hl) by (by rewrite length_tabulate).
  by rewrite insert_tabulate.
Qed.

Lemma get_mask_entry v ms (i : nat) :
  m_mask v = Some ms -> (i < length ms)%nat ->
  get_mask (Z.of_nat i) v = Ret (entry ms i) v.
Proof.
  intros Hms Hi. destruct (lookup_lt_is_Some_2 ms i Hi) as [m Hm].
  rewrite (get_mask_run v ms i m Hms Hm). unfold entry. by rewrite Hm.
Qed.

Lemma to_ll_wrap z :
  - 2 ^ (BLOCK_SIZE - 1) <= z < 2 ^ (BLOCK_SIZE - 1) -> to_ll (wrap z) = z.
Proof.
  unfold to_ll, wrap, BLOCK_SIZE. intros Hz.
  change (2 ^ (64 - 1)) with 9223372036854775808 in *.
  change (2 ^ 64) with 18446744073709551616.
  destruct (decide (0 <= z)).
  - rewrite Z.mod_small by lia. rewrite decide_True; lia.
  - replace (z mod 18446744073709551616) with (z + 18446744073709551616).
    + rewrite decide_False; lia.
    + apply (Z.mod_unique_pos _ _ (-1)); lia.
Qed.

(** ** Moving whole blocks *)

Lemma bind_assoc {St A B C} (m : M St A) (f : A -> M St B) (g : B -> M St C)
    (s : St) :
  ((m ≫= f) ≫= g) s = (m ≫= (fun a => f a ≫= g)) s.
Proof. rewrite !bind_run. by destruct (m s). Qed.

Lemma bind_mret {St A B} (a : A) (k : A -> M St B) (s : St) :
  (mret a ≫= k) s = k a s.
Proof. reflexivity. Qed.

Lemma defined_some {St A} (o : option A) (a : A) (s : St) :
  o = Some a -> defined o s = Ret a s.
Proof. by intros ->. Qed.

(** Reads and writes of a vector whose blocks are given entry by entry. *)
Lemma start_tab v l : m_bits v = Some l ->
  v = with_bits (Some (tabulate (entry l) (length l))) v.
Proof. intros Hl. rewrite <- list_as_tabulate. symmetry. by apply with_bits_same. Qed.

Lemma get_tab v F B (i : nat) :
  (i < B)%nat ->
  get_bits (Z.of_nat i) (with_bits (Some (tabulate F B)) v)
  = Ret (F i) (with_bits (Some (tabulate F B)) v).
Proof. intros Hi. by apply (get_bits_tab _ F B i). Qed.

Lemma set_tab v F B (i : nat) x :
  (i < B)%nat ->
  set_bits (Z.of_nat i) x (with_bits (Some (tabulate F B)) v)
  = Ret tt (with_bits (Some (tabulate (upd F i x) B)) v).
Proof. intros Hi. by rewrite (set_bits_tab _ F B i x). Qed.

Lemma mask_tab v F B ms (i : nat) :
  m_mask v = Some ms -> (i < length ms)%nat ->
  get_mask (Z.of_nat i) (with_bits (Some (tabulate F B)) v)
  = Ret (entry ms i) (with_bits (Some (tabulate F B)) v).
Proof. intros Hms Hi. by apply get_mask_entry. Qed.

Lemma blocks_tab v a : blocks (with_bits a v) = Ret (m_blocks v) (with_bits a v).
Proof. reflexivity. Qed.

Lemma ret_tab_ext F G B v :
  (forall t, (t < B)%nat -> F t = G t) ->
  Ret tt (with_bits (Some (tabulate F B)) v)
  = Ret tt (with_bits (Some (tabulate G B)) v).
Proof. intros H. by rewrite (tabulate_ext F G B H). Qed.

Lemma small_facts :
  2 ^ (BLOCK_SIZE - 6) = 288230376151711744 /\
  2 ^ (BLOCK_SIZE - 1) = 9223372036854775808 /\
  2 ^ BLOCK_SIZE = 18446744073709551616.
Proof. by vm_compute. Qed.

(** One statement of a loop body: run [m], whose outcome is [lem]. *)
Tactic Notation "run_step" open_constr(lem) :=
  first [ erewrite (bind_ret _ _ _ _ _ lem)
        | rewrite bind_assoc; erewrite (bind_ret _ _ _ _ _ lem) ];
  cbv beta.

(** Entry by entry comparison of two tabulated lists. *)
Ltac tab_cases :=
  repeat case_decide; try lia; try done; try (repeat f_equal; lia).

Ltac loop_invariant I :=
  match goal with
  | |- for_range ?n ?i ?st ?body ?s0 = _ =>
      let s' := fresh "s'" in
      let Hrun := fresh "Hrun" in
      destruct (for_range_run I n i st body) with (s := s0)
        as (s' & Hrun & ->); [ | | exact Hrun]
  end.

Lemma shiftBlocksLeft_tab v Y ms (B Q : nat) :
  m_mask v = Some ms -> length ms = B -> m_blocks v = Z.of_nat B ->
  (1 <= B)%nat -> Z.of_nat B < 2 ^ (BLOCK_SIZE - 6) ->
  (1 <= Q)%nat -> Z.of_nat Q < 2 ^ (BLOCK_SIZE - 6) ->
  shiftBlocksLeft (Z.of_nat Q) (with_bits (Some (tabulate Y B)) v)
  = Ret tt (with_bits (Some (tabulate (after_left Y ms B Q B) B)) v).
Proof.
  intros Hms HlenM HB HBpos HBs HQ HQs.
  destruct small_facts as (E58 & E63 & E64). rewrite E58 in *.
  unfold shiftBlocksLeft.
  rewrite (bind_ret _ _ _ _ _ (blocks_tab v _)), HB. cbv zeta.
  rewrite (to_ll_wrap (Z.of_nat B - 1)) by (rewrite E63; lia).
  replace (Z.to_nat (Z.of_nat B - 1 + 1)) with B by lia.
  loop_invariant
    (fun j s => s = with_bits (Some (tabulate (after_left Y ms B Q j) B)) v).
  - intros j s Hj ->. cbv beta.
    remember (B - 1 - j)%nat as i eqn:Ei.
    replace (Z.of_nat B - 1 + Z.of_nat j * -1) with (Z.of_nat i) by lia.
    assert (i < B)%nat as Hi by lia.
    exists (with_bits (Some (tabulate (after_left Y ms B Q (S j)) B)) v).
    split; [|done].
    rewrite (bind_ret _ _ _ _ _ (blocks_tab v _)), HB.
    rewrite (to_ll_wrap (Z.of_nat i + Z.of_nat Q)) by (rewrite E63; lia).
    rewrite (to_ll_small (Z.of_nat B)) by (rewrite E63; lia).
    replace (Z.of_nat i + Z.of_nat Q) with (Z.of_nat (i + Q)) by lia.
    destruct (decide (Z.of_nat (i + Q) < Z.of_nat B)) as [Hin|Hout].
    + run_step (get_tab v _ B i Hi).
      run_step (mask_tab v _ B ms i Hms ltac:(lia)).
      run_step (set_tab v _ B (i + Q) (Z.land _ _) ltac:(lia)).
      rewrite (set_tab v _ B i 0 Hi).
      apply ret_tab_ext. intros t Ht. unfold upd, after_left, masked.
      tab_cases.
    + rewrite bind_mret. rewrite (set_tab v _ B i 0 Hi).
      apply ret_tab_ext. intros t Ht. unfold upd, after_left.
      tab_cases.
  - rewrite (tabulate_ext (after_left Y ms B Q 0) Y); [done|].
    intros t Ht. unfold after_left. rewrite decide_True by lia. done.
Qed.

Lemma shiftBlocksRight_tab v Y ms (B Q : nat) :
  m_mask v = Some ms -> length ms = B -> m_blocks v = Z.of_nat B ->
  (1 <= B)%nat -> Z.of_nat B < 2 ^ (BLOCK_SIZE - 6) ->
  (1 <= Q)%nat -> Z.of_nat Q < 2 ^ (BLOCK_SIZE - 6) ->
  shiftBlocksRight (Z.of_nat Q) (with_bits (Some (tabulate Y B)) v)
  = Ret tt (with_bits (Some (tabulate (after_right Y ms Q B) B)) v).
Proof.
  intros Hms HlenM HB HBpos HBs HQ HQs.
  destruct small_facts as (E58 & E63 & E64). rewrite E58 in *.
  unfold shiftBlocksRight.
  rewrite (bind_ret _ _ _ _ _ (blocks_tab v _)), HB, Nat2Z.id.
  loop_invariant
    (fun j s => s = with_bits (Some (tabulate (after_right Y ms Q j) B)) v).
  - intros j s Hj ->. cbv beta.
    replace (0 + Z.of_nat j * 1) with (Z.of_nat j) by lia.
    cbv zeta.
    exists (with_bits (Some (tabulate (after_right Y ms Q (S j)) B)) v).
    split; [|done].
    rewrite (to_ll_wrap (Z.of_nat j - Z.of_nat Q)) by (rewrite E63; lia).
    destruct (decide (Z.of_nat j - Z.of_nat Q >= 0)) as [Hin|Hout].
    + replace (Z.of_nat j - Z.of_nat Q) with (Z.of_nat (j - Q)) by lia.
      run_step (get_tab v _ B j Hj).
      run_step (mask_tab v _ B ms j Hms ltac:(lia)).
      run_step (set_tab v _ B (j - Q) (Z.land _ _) ltac:(lia)).
      rewrite (set_tab v _ B j 0 Hj).
      apply ret_tab_ext. intros t Ht. unfold upd, after_right, masked.
      tab_cases.
    + rewrite bind_mret. rewrite (set_tab v _ B j 0 Hj).
      apply ret_tab_ext. intros t Ht. unfold upd, after_right.
      tab_cases.
  - reflexivity.
Qed.

(** ** Shifting inside the blocks *)

Lemma shr_some x s : 0 <= s < BLOCK_SIZE -> shr x s = Some (Z.shiftr x s).
Proof. intros Hs. unfold shr. by rewrite decide_True. Qed.

Lemma shl_some x s :
  0 <= s < BLOCK_SIZE -> shl x s = Some (wrap (Z.shiftl x s)).
Proof. intros Hs. unfold shl. by rewrite decide_True. Qed.

Lemma wrap_complement r :
  0 < r < BLOCK_SIZE -> wrap (BLOCK_SIZE - r) = BLOCK_SIZE - r.
Proof.
  intros Hr. apply wrap_small. unfold is_word.
  destruct small_facts as (_ & _ & ->). unfold BLOCK_SIZE in *. lia.
Qed.

Lemma split_shift k :
  0 <= k < 2 ^ BLOCK_SIZE -> k mod BLOCK_SIZE ≠ 0 ->
  0 <= k / BLOCK_SIZE < 2 ^ (BLOCK_SIZE - 6) /\
  0 < k mod BLOCK_SIZE < BLOCK_SIZE.
Proof.
  destruct small_facts as (-> & _ & ->). unfold BLOCK_SIZE. intros Hk Hr.
  pose proof (Z.div_mod k 64 ltac:(lia)).
  pose proof (Z.mod_pos_bound k 64 ltac:(lia)). lia.
Qed.

Lemma bitwiseLeft_tab v Y ms (B : nat) k :
  m_mask v = Some ms -> length ms = B -> m_blocks v = Z.of_nat B ->
  (1 <= B)%nat -> Z.of_nat B < 2 ^ (BLOCK_SIZE - 6) ->
  0 <= k < 2 ^ BLOCK_SIZE -> k mod BLOCK_SIZE ≠ 0 ->
  bitwiseLeft k (with_bits (Some (tabulate Y B)) v)
  = Ret tt (with_bits
      (Some (tabulate
         (carried_left (moved_left Y ms B k) ms (k mod BLOCK_SIZE) B B) B)) v).
Proof.
  intros Hms HlenM HB HBpos HBs Hk Hrem.
  destruct (split_shift k Hk Hrem) as [HQ Hr].
  destruct small_facts as (E58 & E63 & E64).
  assert (0 <= BLOCK_SIZE - k mod BLOCK_SIZE < BLOCK_SIZE) as Hc
    by (unfold BLOCK_SIZE in *; lia).
  assert (0 <= k mod BLOCK_SIZE < BLOCK_SIZE) as Hr' by lia.
  unfold bitwiseLeft.
  run_step (defined_some _ _ _ (split_position_spec k Hk)).
  set (r := k mod BLOCK_SIZE) in *. unfold moved_left.
  match goal with
  | |- (_ ≫= ?K) _ = _ =>
      enough (forall Y0,
        K tt (with_bits (Some (tabulate Y0 B)) v)
        = Ret tt (with_bits (Some (tabulate (carried_left Y0 ms r B B) B)) v))
        as Hloop
  end.
  { destruct (decide (k / BLOCK_SIZE > 0)) as [Hpos|Hzero].
    - replace (k / BLOCK_SIZE) with (Z.of_nat (Z.to_nat (k / BLOCK_SIZE)))
        at 1 by lia.
      rewrite (bind_ret _ _ _ _ _
                 (shiftBlocksLeft_tab v Y ms B (Z.to_nat (k / BLOCK_SIZE))
                    Hms HlenM HB HBpos HBs
                    ltac:(lia) ltac:(lia))).
      apply Hloop.
    - rewrite bind_mret. apply Hloop. }
  intros Y0. cbv beta.
  rewrite (bind_ret _ _ _ _ _ (blocks_tab v _)), HB. cbv zeta.
  rewrite (to_ll_wrap (Z.of_nat B - 1)) by (rewrite E58 in HBs; rewrite E63; lia).
  replace (Z.to_nat (Z.of_nat B - 1 + 1)) with B by lia.
  rewrite (wrap_complement r Hr).
  loop_invariant
    (fun j s => s = with_bits (Some (tabulate (carried_left Y0 ms r B j) B)) v).
  - intros j s Hj ->. cbv beta.
    remember (B - 1 - j)%nat as i eqn:Ei.
    replace (Z.of_nat B - 1 + Z.of_nat j * -1) with (Z.of_nat i) by lia.
    assert (i < B)%nat as Hi by lia.
    assert (carried_left Y0 ms r B j i = Y0 i) as Hci
      by (unfold carried_left; rewrite decide_True by lia; done).
    exists (with_bits (Some (tabulate (carried_left Y0 ms r B (S j)) B)) v).
    split; [|done].
    run_step (get_tab v _ B i Hi). rewrite Hci.
    run_step (mask_tab v _ B ms i Hms ltac:(lia)).
    run_step (defined_some _ _ _
                (shr_some _ _ Hc)).
    run_step (get_tab v _ B i Hi). rewrite Hci.
    run_step (mask_tab v _ B ms i Hms ltac:(lia)).
    run_step (defined_some _ _ _ (shl_some _ _ Hr')).
    run_step (set_tab v _ B i _ Hi).
    rewrite (bind_ret _ _ _ _ _ (blocks_tab v _)), HB.
    rewrite (to_ll_small (Z.of_nat B)) by (rewrite E58 in HBs; rewrite E63; lia).
    destruct (decide (Z.of_nat i + 1 < Z.of_nat B)) as [Hin|Hout].
    + replace (Z.of_nat i + 1) with (Z.of_nat (S i)) by lia.
      run_step (get_tab v _ B (S i) ltac:(lia)).
      rewrite (set_tab v _ B (S i) _ ltac:(lia)).
      apply ret_tab_ext. intros t Ht. unfold upd, carried_left, masked.
      tab_cases.
    + change (mret tt) with (@Ret RuntimeBitset unit tt).
      apply ret_tab_ext. intros t Ht. unfold upd, carried_left, masked.
      tab_cases.
  - rewrite (tabulate_ext (carried_left Y0 ms r B 0) Y0); [done|].
    intros t Ht. unfold carried_left. rewrite decide_True by lia. done.
Qed.

Lemma bitwiseRight_tab v Y ms (B : nat) k :
  m_mask v = Some ms -> length ms = B -> m_blocks v = Z.of_nat B ->
  (1 <= B)%nat -> Z.of_nat B < 2 ^ (BLOCK_SIZE - 6) ->
  0 <= k < 2 ^ BLOCK_SIZE -> k mod BLOCK_SIZE ≠ 0 ->
  bitwiseRight k (with_bits (Some (tabulate Y B)) v)
  = Ret tt (with_bits
      (Some (tabulate
         (carried_right (moved_right Y ms B k) ms (k mod BLOCK_SIZE) B) B)) v).
Proof.
  intros Hms HlenM HB HBpos HBs Hk Hrem.
  destruct (split_shift k Hk Hrem) as [HQ Hr].
  destruct small_facts as (E58 & E63 & E64).
  assert (0 <= BLOCK_SIZE - k mod BLOCK_SIZE < BLOCK_SIZE) as Hc
    by (unfold BLOCK_SIZE in *; lia).
  assert (0 <= k mod BLOCK_SIZE < BLOCK_SIZE) as Hr' by lia.
  unfold bitwiseRight.
  run_step (defined_some _ _ _ (split_position_spec k Hk)).
  set (r := k mod BLOCK_SIZE) in *. unfold moved_right.
  match goal with
  | |- (_ ≫= ?K) _ = _ =>
      enough (forall Y0,
        K tt (with_bits (Some (tabulate Y0 B)) v)
        = Ret tt (with_bits (Some (tabulate (carried_right Y0 ms r B) B)) v))
        as Hloop
  end.
  { destruct (decide (k / BLOCK_SIZE > 0)) as [Hpos|Hzero].
    - replace (k / BLOCK_SIZE) with (Z.of_nat (Z.to_nat (k / BLOCK_SIZE)))
        at 1 by lia.
      rewrite (bind_ret _ _ _ _ _
                 (shiftBlocksRight_tab v Y ms B (Z.to_nat (k / BLOCK_SIZE))
                    Hms HlenM HB HBpos HBs
                    ltac:(lia) ltac:(lia))).
      apply Hloop.
    - rewrite bind_mret. apply Hloop. }
  intros Y0. cbv beta.
  rewrite (bind_ret _ _ _ _ _ (blocks_tab v _)), HB.
  rewrite (to_ll_small (Z.of_nat B)) by (rewrite E58 in HBs; rewrite E63; lia).
  rewrite Nat2Z.id.
  rewrite (wrap_complement r Hr).
  loop_invariant
    (fun j s => s = with_bits (Some (tabulate (carried_right Y0 ms r j) B)) v).
  - intros j s Hj ->. cbv beta.
    replace (0 + Z.of_nat j * 1) with (Z.of_nat j) by lia.
    assert (carried_right Y0 ms r j j = Y0 j) as Hci
      by (unfold carried_right; rewrite decide_True by lia; done).
    exists (with_bits (Some (tabulate (carried_right Y0 ms r (S j)) B)) v).
    split; [|done].
    run_step (get_tab v _ B j Hj). rewrite Hci.
    run_step (mask_tab v _ B ms j Hms ltac:(lia)).
    run_step (defined_some _ _ _
                (shl_some _ _ Hc)).
    run_step (get_tab v _ B j Hj). rewrite Hci.
    run_step (mask_tab v _ B ms j Hms ltac:(lia)).
    run_step (defined_some _ _ _ (shr_some _ _ Hr')).
    run_step (set_tab v _ B j _ Hj).
    destruct (decide (Z.of_nat j - 1 >= 0)) as [Hin|Hout].
    + replace (Z.of_nat j - 1) with (Z.of_nat (j - 1)) by lia.
      run_step (get_tab v _ B (j - 1) ltac:(lia)).
      rewrite (set_tab v _ B (j - 1) _ ltac:(lia)).
      apply ret_tab_ext. intros t Ht. unfold upd, carried_right, masked.
      tab_cases.
    + change (mret tt) with (@Ret RuntimeBitset unit tt).
      apply ret_tab_ext. intros t Ht. unfold upd, carried_right, masked.
      tab_cases.
  - reflexivity.
Qed.

(** ** The bits after a shift *)

Lemma div_mod_block a b :
  0 <= b < BLOCK_SIZE ->
  (BLOCK_SIZE * a + b) / BLOCK_SIZE = a /\
  (BLOCK_SIZE * a + b) mod BLOCK_SIZE = b.
Proof.
  unfold BLOCK_SIZE. intros Hb. split.
  - symmetry. apply (Z.div_unique _ 64 a b); lia.
  - symmetry. apply (Z.mod_unique _ 64 a b); lia.
Qed.

Lemma testbit_wrap z i :
  0 <= i < BLOCK_SIZE -> Z.testbit (wrap z) i = Z.testbit z i.
Proof. intros Hi. unfold wrap. apply Z.mod_pow2_bits_low. lia. Qed.

Lemma shiftr_is_word x s : is_word x -> 0 <= s -> is_word (Z.shiftr x s).
Proof.
  unfold is_word. intros Hx Hs. rewrite Z.shiftr_div_pow2 by done.
  assert (0 < 2 ^ s) by (apply Z.pow_pos_nonneg; lia).
  split; [apply Z.div_pos; lia|].
  apply Z.le_lt_trans with x; [|lia]. apply Z.div_le_upper_bound; [lia|]. nia.
Qed.

(** Bit [i] of block [t] of the mask: set when position [64 t + i] is
    inside the vector. *)
Lemma mask_bit N (t : nat) i :
  1 <= N <= 2 ^ BLOCK_SIZE - BLOCK_SIZE ->
  (t < Z.to_nat (num_blocks N))%nat -> 0 <= i < BLOCK_SIZE ->
  Z.testbit (entry (mask_of N) t) i
  = bool_decide (BLOCK_SIZE * Z.of_nat t + i < N).
Proof.
  intros HN Ht Hi. pose proof (num_blocks_bounds N HN) as [Hb Hr].
  unfold entry, mask_of.
  destruct (decide (t < Z.to_nat (num_blocks N - 1))%nat) as [Hlow|Hlast].
  - rewrite lookup_app_l by (rewrite length_replicate; lia).
    rewrite lookup_replicate_2 by lia.
    change (default 0 (Some ALL_BITS_ONE)) with ALL_BITS_ONE.
    rewrite ALL_BITS_ONE_eq, Z.ones_spec_low by lia.
    symmetry. apply bool_decide_eq_true. unfold BLOCK_SIZE in *. lia.
  - rewrite lookup_app_r by (rewrite length_replicate; lia).
    rewrite length_replicate.
    replace (t - Z.to_nat (num_blocks N - 1))%nat with 0%nat by lia.
    change (default 0 ([?x] !! 0%nat)) with x.
    destruct (decide (i < N - (num_blocks N - 1) * BLOCK_SIZE)) as [Hin|Hout].
    + rewrite Z.ones_spec_low by lia.
      symmetry. apply bool_decide_eq_true. unfold BLOCK_SIZE in *. lia.
    + rewrite Z.ones_spec_high by (unfold BLOCK_SIZE in *; lia).
      symmetry. apply bool_decide_eq_false. unfold BLOCK_SIZE in *. lia.
Qed.

Lemma mask_entry_word N (t : nat) :
  1 <= N <= 2 ^ BLOCK_SIZE - BLOCK_SIZE ->
  (t < Z.to_nat (num_blocks N))%nat -> is_word (entry (mask_of N) t).
Proof.
  intros HN Ht. unfold entry.
  destruct (lookup_lt_is_Some_2 (mask_of N) t) as [m Hm];
    [rewrite length_mask_of by done; lia|].
  rewrite Hm. eapply (Forall_lookup_1 _ _ _ _ (mask_of_is_words N HN) Hm).
Qed.

Lemma masked_word N Y (t : nat) :
  1 <= N <= 2 ^ BLOCK_SIZE - BLOCK_SIZE ->
  (t < Z.to_nat (num_blocks N))%nat -> is_word (masked Y (mask_of N) t).
Proof. intros HN Ht. apply land_is_word. by apply mask_entry_word. Qed.

Ltac bool_cases :=
  repeat case_bool_decide; try lia;
  repeat match goal with |- context [Z.testbit ?x ?i] => destruct (Z.testbit x i) end;
  try done; try lia.

(** Bit [j] of block [t], under its mask, after the blocks have moved. *)
Lemma masked_left_bit N l k (t : nat) j :
  1 <= N <= 2 ^ BLOCK_SIZE - BLOCK_SIZE -> 0 <= k ->
  (t < Z.to_nat (num_blocks N))%nat -> 0 <= j < BLOCK_SIZE ->
  Z.testbit
    (masked (moved_left (entry l) (mask_of N) (Z.to_nat (num_blocks N)) k)
       (mask_of N) t) j
  = bool_decide (k / BLOCK_SIZE <= Z.of_nat t)
    && Z.testbit (entry l (t - Z.to_nat (k / BLOCK_SIZE))) j
    && bool_decide (BLOCK_SIZE * Z.of_nat t + j < N).
Proof.
  intros HN Hk Ht Hj.
  assert (0 <= k / BLOCK_SIZE) as HQ
    by (apply Z.div_pos; unfold BLOCK_SIZE; lia).
  unfold masked at 1. rewrite Z.land_spec, mask_bit by done.
  unfold moved_left. destruct (decide (k / BLOCK_SIZE > 0)) as [Hpos|Hzero].
  - unfold after_left. rewrite Nat.sub_diag, decide_False by lia.
    destruct (decide (0 + Z.to_nat (k / BLOCK_SIZE) <= t)%nat) as [Hin|Hout].
    + unfold masked. rewrite Z.land_spec, mask_bit by (done || lia).
      unfold BLOCK_SIZE in *. bool_cases.
    + rewrite Z.bits_0.
      rewrite (bool_decide_eq_false_2 (k / BLOCK_SIZE <= Z.of_nat t)) by lia.
      done.
  - replace (Z.to_nat (k / BLOCK_SIZE)) with 0%nat by lia.
    rewrite Nat.sub_0_r.
    rewrite (bool_decide_eq_true_2 (k / BLOCK_SIZE <= Z.of_nat t)) by lia.
    done.
Qed.

Lemma masked_right_bit N l k (t : nat) j :
  1 <= N <= 2 ^ BLOCK_SIZE - BLOCK_SIZE -> 0 <= k ->
  (t < Z.to_nat (num_blocks N))%nat -> 0 <= j < BLOCK_SIZE ->
  Z.testbit
    (masked (moved_right (entry l) (mask_of N) (Z.to_nat (num_blocks N)) k)
       (mask_of N) t) j
  = bool_decide (BLOCK_SIZE * (Z.of_nat t + k / BLOCK_SIZE) + j < N)
    && Z.testbit (entry l (t + Z.to_nat (k / BLOCK_SIZE))) j.
Proof.
  intros HN Hk Ht Hj. pose proof (num_blocks_bounds N HN) as [Hb Hr].
  assert (0 <= k / BLOCK_SIZE) as HQ
    by (apply Z.div_pos; unfold BLOCK_SIZE; lia).
  unfold masked at 1. rewrite Z.land_spec, mask_bit by done.
  unfold moved_right. destruct (decide (k / BLOCK_SIZE > 0)) as [Hpos|Hzero].
  - unfold after_right. rewrite decide_False by lia.
    destruct (decide (t + Z.to_nat (k / BLOCK_SIZE)
                      < Z.to_nat (num_blocks N))%nat) as [Hin|Hout].
    + unfold masked. rewrite Z.land_spec, mask_bit by (done || lia).
      replace (Z.of_nat (t + Z.to_nat (k / BLOCK_SIZE)))
        with (Z.of_nat t + k / BLOCK_SIZE) by lia.
      unfold BLOCK_SIZE in *. bool_cases.
    + rewrite Z.bits_0.
      rewrite (bool_decide_eq_false_2
                 (BLOCK_SIZE * (Z.of_nat t + k / BLOCK_SIZE) + j < N));
        [done|].
      unfold BLOCK_SIZE in *. lia.
  - replace (k / BLOCK_SIZE) with 0 by lia.
    rewrite Nat.add_0_r, Z.add_0_r. apply andb_comm.
Qed.

(** Bit [q] of the blocks that [bitwiseLeft k] leaves. *)
Lemma carried_left_bit N l k q :
  1 <= N <= 2 ^ BLOCK_SIZE - BLOCK_SIZE ->
  0 <= k < 2 ^ BLOCK_SIZE -> k mod BLOCK_SIZE ≠ 0 -> 0 <= q < N ->
  Z.testbit
    (carried_left
       (moved_left (entry l) (mask_of N) (Z.to_nat (num_blocks N)) k)
       (mask_of N) (k mod BLOCK_SIZE)
       (Z.to_nat (num_blocks N)) (Z.to_nat (num_blocks N))
       (Z.to_nat (q / BLOCK_SIZE)))
    (q mod BLOCK_SIZE)
  = bool_decide (k <= q)
    && Z.testbit (entry l (Z.to_nat ((q - k) / BLOCK_SIZE)))
         ((q - k) mod BLOCK_SIZE).
Proof.
  intros HN Hk Hrem Hq. pose proof (num_blocks_bounds N HN) as [Hb Hr].
  destruct (split_shift k Hk Hrem) as [HQ Hrr].
  pose proof (Z.div_mod k BLOCK_SIZE ltac:(unfold BLOCK_SIZE; lia)) as Ek.
  pose proof (Z.div_mod q BLOCK_SIZE ltac:(unfold BLOCK_SIZE; lia)) as Eq.
  pose proof (Z.mod_pos_bound q BLOCK_SIZE ltac:(unfold BLOCK_SIZE; lia)) as Hi.
  assert (0 <= q / BLOCK_SIZE) as Ht0
    by (apply Z.div_pos; unfold BLOCK_SIZE; lia).
  remember (k / BLOCK_SIZE) as Q eqn:EQ.
  remember (k mod BLOCK_SIZE) as r eqn:Er.
  remember (q mod BLOCK_SIZE) as i eqn:Ei.
  remember (Z.to_nat (q / BLOCK_SIZE)) as t eqn:Et.
  assert (q / BLOCK_SIZE = Z.of_nat t) as Etz by lia.
  rewrite Etz in Eq. clear Etz Et Ht0.
  assert (t < Z.to_nat (num_blocks N))%nat as Ht
    by (unfold BLOCK_SIZE in *; lia).
  unfold carried_left. rewrite Nat.sub_diag, decide_False by lia.
  destruct (decide (r <= i)) as [Hhigh|Hlow].
  - (* the bit comes from the same block *)
    assert (Z.testbit
              (wrap (Z.shiftl
                 (masked (moved_left (entry l) (mask_of N)
                            (Z.to_nat (num_blocks N)) k) (mask_of N) t) r)) i
            = bool_decide (k <= q)
              && Z.testbit (entry l (Z.to_nat ((q - k) / BLOCK_SIZE)))
                   ((q - k) mod BLOCK_SIZE)) as Hsame.
    { rewrite testbit_wrap, Z.shiftl_spec by lia.
      rewrite masked_left_bit by (done || lia). rewrite <- EQ.
      replace (q - k) with (BLOCK_SIZE * (Z.of_nat t - Q) + (i - r)) by lia.
      destruct (div_mod_block (Z.of_nat t - Q) (i - r) ltac:(lia)) as [-> ->].
      replace (Z.to_nat (Z.of_nat t - Q)) with (t - Z.to_nat Q)%nat by lia.
      unfold BLOCK_SIZE in *. bool_cases. }
    destruct (decide (t = 0)%nat) as [Hz|Hnz]; [done|].
    rewrite Z.lor_spec, Hsame, Z.shiftr_spec by lia.
    rewrite (word_testbit_high _ (i + (BLOCK_SIZE - r)))
      by (first [apply masked_word; [done|lia] | lia]).
    apply orb_false_r.
  - (* the bit comes from the block below *)
    assert (Z.testbit
              (wrap (Z.shiftl
                 (masked (moved_left (entry l) (mask_of N)
                            (Z.to_nat (num_blocks N)) k) (mask_of N) t) r)) i
            = false) as Hnone.
    { rewrite testbit_wrap, Z.shiftl_spec by lia.
      apply Z.testbit_neg_r. lia. }
    destruct (decide (t = 0)%nat) as [Hz|Hnz].
    + rewrite Hnone, bool_decide_eq_false_2; [done|]. subst t.
      unfold BLOCK_SIZE in *. lia.
    + rewrite Z.lor_spec, Hnone, Z.shiftr_spec by lia. cbn [orb].
      rewrite masked_left_bit by (done || lia). rewrite <- EQ.
      replace (q - k)
        with (BLOCK_SIZE * (Z.of_nat t - 1 - Q) + (i + (BLOCK_SIZE - r)))
        by (unfold BLOCK_SIZE in *; lia).
      destruct (div_mod_block (Z.of_nat t - 1 - Q) (i + (BLOCK_SIZE - r))
                  ltac:(lia)) as [-> ->].
      replace (Z.to_nat (Z.of_nat t - 1 - Q))
        with (t - 1 - Z.to_nat Q)%nat by lia.
      unfold BLOCK_SIZE in *. bool_cases.
Qed.

(** Bit [q] of the blocks that [bitwiseRight k] leaves. *)
Lemma carried_right_bit N l k q :
  1 <= N <= 2 ^ BLOCK_SIZE - BLOCK_SIZE ->
  0 <= k < 2 ^ BLOCK_SIZE -> k mod BLOCK_SIZE ≠ 0 -> 0 <= q < N ->
  Z.testbit
    (carried_right
       (moved_right (entry l) (mask_of N) (Z.to_nat (num_blocks N)) k)
       (mask_of N) (k mod BLOCK_SIZE) (Z.to_nat (num_blocks N))
       (Z.to_nat (q / BLOCK_SIZE)))
    (q mod BLOCK_SIZE)
  = bool_decide (q + k < N)
    && Z.testbit (entry l (Z.to_nat ((q + k) / BLOCK_SIZE)))
         ((q + k) mod BLOCK_SIZE).
Proof.
  intros HN Hk Hrem Hq. pose proof (num_blocks_bounds N HN) as [Hb Hr].
  destruct (split_shift k Hk Hrem) as [HQ Hrr].
  pose proof (Z.div_mod k BLOCK_SIZE ltac:(unfold BLOCK_SIZE; lia)) as Ek.
  pose proof (Z.div_mod q BLOCK_SIZE ltac:(unfold BLOCK_SIZE; lia)) as Eq.
  pose proof (Z.mod_pos_bound q BLOCK_SIZE ltac:(unfold BLOCK_SIZE; lia)) as Hi.
  assert (0 <= q / BLOCK_SIZE) as Ht0
    by (apply Z.div_pos; unfold BLOCK_SIZE; lia).
  remember (k / BLOCK_SIZE) as Q eqn:EQ.
  remember (k mod BLOCK_SIZE) as r eqn:Er.
  remember (q mod BLOCK_SIZE) as i eqn:Ei.
  remember (Z.to_nat (q / BLOCK_SIZE)) as t eqn:Et.
  assert (q / BLOCK_SIZE = Z.of_nat t) as Etz by lia.
  rewrite Etz in Eq. clear Etz Et Ht0.
  assert (t < Z.to_nat (num_blocks N))%nat as Ht
    by (unfold BLOCK_SIZE in *; lia).
  unfold carried_right. rewrite decide_False by lia.
  destruct (decide (i + r < BLOCK_SIZE)) as [Hlow|Hhigh].
  - (* the bit comes from the same block *)
    assert (Z.testbit
              (Z.shiftr
                 (masked (moved_right (entry l) (mask_of N)
                            (Z.to_nat (num_blocks N)) k) (mask_of N) t) r) i
            = bool_decide (q + k < N)
              && Z.testbit (entry l (Z.to_nat ((q + k) / BLOCK_SIZE)))
                   ((q + k) mod BLOCK_SIZE)) as Hsame.
    { rewrite Z.shiftr_spec by lia.
      rewrite masked_right_bit by (done || lia). rewrite <- EQ.
      replace (q + k) with (BLOCK_SIZE * (Z.of_nat t + Q) + (i + r)) by lia.
      destruct (div_mod_block (Z.of_nat t + Q) (i + r) ltac:(lia)) as [-> ->].
      replace (Z.to_nat (Z.of_nat t + Q)) with (t + Z.to_nat Q)%nat by lia.
      done. }
    destruct (decide (S t = Z.to_nat (num_blocks N))) as [Hz|Hnz]; [done|].
    rewrite Z.lor_spec, Hsame, testbit_wrap, Z.shiftl_spec by lia.
    rewrite (Z.testbit_neg_r _ (i - (BLOCK_SIZE - r))) by lia.
    apply orb_false_r.
  - (* the bit comes from the block above *)
    assert (Z.testbit
              (Z.shiftr
                 (masked (moved_right (entry l) (mask_of N)
                            (Z.to_nat (num_blocks N)) k) (mask_of N) t) r) i
            = false) as Hnone.
    { rewrite Z.shiftr_spec by lia.
      apply word_testbit_high; [apply masked_word; [done|lia]|lia]. }
    destruct (decide (S t = Z.to_nat (num_blocks N))) as [Hz|Hnz].
    + rewrite Hnone, bool_decide_eq_false_2; [done|].
      unfold BLOCK_SIZE in *. lia.
    + rewrite Z.lor_spec, Hnone, testbit_wrap, Z.shiftl_spec by lia.
      cbn [orb].
      rewrite masked_right_bit by (done || lia). rewrite <- EQ.
      replace (q + k)
        with (BLOCK_SIZE * (Z.of_nat (t + 1) + Q) + (i - (BLOCK_SIZE - r)))
        by (unfold BLOCK_SIZE in *; lia).
      destruct (div_mod_block (Z.of_nat (t + 1) + Q) (i - (BLOCK_SIZE - r))
                  ltac:(lia)) as [-> ->].
      replace (Z.to_nat (Z.of_nat (t + 1) + Q))
        with (t + 1 + Z.to_nat Q)%nat by lia.
      done.
Qed.

(** ** Shifts by a distance that is not a multiple of the block size *)

Lemma tabulate_words F n :
  (forall t, (t < n)%nat -> is_word (F t)) -> Forall is_word (tabulate F n).
Proof.
  intros H. unfold tabulate. apply Forall_fmap, Forall_forall.
  intros t Ht%elem_of_seq. apply H. lia.
Qed.

Lemma block_of_position N q :
  1 <= N <= 2 ^ BLOCK_SIZE - BLOCK_SIZE -> 0 <= q < N ->
  (Z.to_nat (q / BLOCK_SIZE) < Z.to_nat (num_blocks N))%nat.
Proof.
  intros HN Hq. pose proof (num_blocks_bounds N HN) as [Hb Hr].
  assert (0 <= q / BLOCK_SIZE) by (apply Z.div_pos; unfold BLOCK_SIZE; lia).
  assert (q / BLOCK_SIZE < num_blocks N)
    by (apply Z.div_lt_upper_bound; unfold BLOCK_SIZE in *; lia).
  lia.
Qed.

Lemma bitwiseLeft_spec v k :
  wf v -> 0 <= k < 2 ^ BLOCK_SIZE -> k mod BLOCK_SIZE ≠ 0 ->
  exists v',
    bitwiseLeft k v = Ret tt v' /\ wf v' /\ m_size v' = m_size v /\
    forall q, 0 <= q < m_size v ->
      bit_at v' q = bool_decide (k <= q) && bit_at v (q - k).
Proof.
  intros Hwf Hk Hrem.
  destruct (wf_shape v Hwf) as (l & Hl & Hms & Hlen & Hlm & Hn & Hwords).
  pose proof Hwf as (Hsize & Hblocks & _).
  pose proof (num_blocks_bounds _ Hsize) as [Hb Hr].
  destruct (split_shift k Hk Hrem) as [HQ Hrr].
  assert (length l = Z.to_nat (num_blocks (m_size v))) as HB by lia.
  pose proof (bitwiseLeft_tab v (entry l) (mask_of (m_size v)) (length l) k
                Hms Hlm ltac:(lia) ltac:(lia) ltac:(lia) Hk Hrem) as Hrun.
  rewrite <- (start_tab v l Hl) in Hrun. rewrite HB in Hrun.
  eexists. split; [exact Hrun|]. split; [|split; [done|]].
  - unfold wf. cbn [with_bits m_size m_blocks m_mask m_bits].
    split; [done|]. split; [done|]. split; [done|].
    split; [rewrite length_tabulate; lia|].
    apply tabulate_words. intros t Ht. unfold carried_left.
    repeat case_decide; try lia; [apply wrap_is_word|].
    apply lor_is_word; [apply wrap_is_word|].
    apply shiftr_is_word; [apply masked_word; [done|lia]|lia].
  - intros q Hq. pose proof (block_of_position _ _ Hsize Hq) as Ht.
    unfold bit_at. cbn [with_bits m_bits]. rewrite Hl.
    rewrite lookup_tabulate by done.
    apply (carried_left_bit (m_size v) l k q Hsize Hk Hrem Hq).
Qed.

Lemma bitwiseRight_spec v k :
  wf v -> 0 <= k < 2 ^ BLOCK_SIZE -> k mod BLOCK_SIZE ≠ 0 ->
  exists v',
    bitwiseRight k v = Ret tt v' /\ wf v' /\ m_size v' = m_size v /\
    forall q, 0 <= q < m_size v ->
      bit_at v' q = bool_decide (q + k < m_size v) && bit_at v (q + k).
Proof.
  intros Hwf Hk Hrem.
  destruct (wf_shape v Hwf) as (l & Hl & Hms & Hlen & Hlm & Hn & Hwords).
  pose proof Hwf as (Hsize & Hblocks & _).
  pose proof (num_blocks_bounds _ Hsize) as [Hb Hr].
  destruct (split_shift k Hk Hrem) as [HQ Hrr].
  assert (length l = Z.to_nat (num_blocks (m_size v))) as HB by lia.
  pose proof (bitwiseRight_tab v (entry l) (mask_of (m_size v)) (length l) k
                Hms Hlm ltac:(lia) ltac:(lia) ltac:(lia) Hk Hrem) as Hrun.
  rewrite <- (start_tab v l Hl) in Hrun. rewrite HB in Hrun.
  eexists. split; [exact Hrun|]. split; [|split; [done|]].
  - unfold wf. cbn [with_bits m_size m_blocks m_mask m_bits].
    split; [done|]. split; [done|]. split; [done|].
    split; [rewrite length_tabulate; lia|].
    apply tabulate_words. intros t Ht. unfold carried_right.
    repeat case_decide; try lia;
      [apply shiftr_is_word; [apply masked_word; [done|lia]|lia]|].
    apply lor_is_word; [|apply wrap_is_word].
    apply shiftr_is_word; [apply masked_word; [done|lia]|lia].
  - intros q Hq. pose proof (block_of_position _ _ Hsize Hq) as Ht.
    unfold bit_at. cbn [with_bits m_bits]. rewrite Hl.
    rewrite lookup_tabulate by done.
    apply (carried_right_bit (m_size v) l k q Hsize Hk Hrem Hq).
Qed.

(** [operator<<] and [operator>>]: the shift runs on a local copy, which
    is returned; the local is gone afterwards and the store is as
    before. *)
Lemma shift_operator_run (shift : M RuntimeBitset unit) (this : nat)
    (j : Junk) (σ : store) v v' :
  σ !! this = Some v -> wf v -> shift v = Ret tt v' ->
  with_local raw
    (fun aux => copy aux this j;; on aux shift;; value_of aux) σ
  = Ret v' σ.
Proof.
  intros Hthis Hwf Hshift. unfold with_local.
  set (aux := fresh (dom σ)).
  assert (aux ≠ this) as Hne by (by eapply fresh_ne).
  rewrite (bind_ret _ _ _ _ _
             (proj1 (copy_spec aux this j (<[aux := raw]> σ) raw v
                       (lookup_insert_eq _ _ _)
                       ltac:(by rewrite lookup_insert_ne) Hne Hwf))).
  rewrite insert_insert_eq.
  rewrite (bind_ret _ _ _ _ _
             (on_ret aux shift _ v tt v' (lookup_insert_eq _ _ _) Hshift)).
  rewrite insert_insert_eq. unfold value_of.
  erewrite on_read; [|apply lookup_insert_eq|reflexivity].
  by rewrite delete_insert_id by apply fresh_lookup.
Qed.

(** [bitwiseLeft k], [operator<<=] and [operator<<] for a distance [k]
    that is not a multiple of the block size, on a vector satisfying the
    class invariant: the shift ends normally, keeps the invariant and
    the size, and bit [q] of the result is bit [q - k] of the operand
    for [k <= q], and 0 for the positions below [k].  [operator<<]
    returns that result and leaves the store, hence its operand, as it
    was. *)
Theorem shift_left_moves_bits_up (v : RuntimeBitset) (k : Z) :
  wf v -> 0 <= k < 2 ^ BLOCK_SIZE -> k mod BLOCK_SIZE ≠ 0 ->
  exists v',
    bitwiseLeft k v = Ret tt v' /\ shl_assign k v = Ret tt v' /\
    (forall (this : nat) (j : Junk) (σ : store),
       σ !! this = Some v -> operator_shl this k j σ = Ret v' σ) /\
    wf v' /\ m_size v' = m_size v /\
    forall q, 0 <= q < m_size v ->
      test q v' = Ret (bool_decide (k <= q) && bit_at v (q - k)) v'.
Proof.
  intros Hwf Hk Hrem.
  destruct (bitwiseLeft_spec v k Hwf Hk Hrem) as (v' & Hrun & Hwf' & Hsz & Hbits).
  exists v'. split; [done|]. split; [done|].
  split; [intros this j σ Hthis; by apply (shift_operator_run _ this j σ v v')|].
  split; [done|]. split; [done|].
  intros q Hq. unfold test.
  rewrite getValueInPosition_run by (done || lia). by rewrite Hbits.
Qed.

(** [bitwiseRight k], [operator>>=] and [operator>>] for a distance [k]
    that is not a multiple of the block size, on a vector satisfying the
    class invariant: the shift ends normally, keeps the invariant and
    the size, and bit [q] of the result is bit [q + k] of the operand
    when [q + k] is inside the vector, and 0 otherwise.  [operator>>]
    returns that result and leaves the store, hence its operand, as it
    was. *)
Theorem shift_right_moves_bits_down (v : RuntimeBitset) (k : Z) :
  wf v -> 0 <= k < 2 ^ BLOCK_SIZE -> k mod BLOCK_SIZE ≠ 0 ->
  exists v',
    bitwiseRight k v = Ret tt v' /\ shr_assign k v = Ret tt v' /\
    (forall (this : nat) (j : Junk) (σ : store),
       σ !! this = Some v -> operator_shr this k j σ = Ret v' σ) /\
    wf v' /\ m_size v' = m_size v /\
    forall q, 0 <= q < m_size v ->
      test q v'
      = Ret (bool_decide (q + k < m_size v) && bit_at v (q + k)) v'.
Proof.
  intros Hwf Hk Hrem.
  destruct (bitwiseRight_spec v k Hwf Hk Hrem) as (v' & Hrun & Hwf' & Hsz & Hbits).
  exists v'. split; [done|]. split; [done|].
  split; [intros this j σ Hthis; by apply (shift_operator_run _ this j σ v v')|].
  split; [done|]. split; [done|].
  intros q Hq. unfold test.
  rewrite getValueInPosition_run by (done || lia). by rewrite Hbits.
Qed.

(** ** Shifts by the length of the vector or more *)











(** Both sample machines leave the word 0 as 0. *)
Lemma draining_keeps_zero : keeps_zero draining.
Proof. by intros k. Qed.








(** ** Instances of the theorems above *)

Lemma binary_operators_size_mismatch_witness :
  operator_and 0 1 zero_junk two_objects
    = Throw RuntimeBitsetSizeDismatch two_objects /\
  operator_or 0 1 zero_junk two_objects
    = Throw RuntimeBitsetSizeDismatch two_objects /\
  operator_xor 0 1 zero_junk two_objects
    = Throw RuntimeBitsetSizeDismatch two_objects.
Proof.
  apply (binary_operators_size_mismatch 0 1 zero_junk two_objects bits8 bits65);
    [reflexivity | reflexivity | simpl; lia].
Defined.

Lemma compound_assignments_size_mismatch_witness :
  operator_and_assign 0 1 zero_junk zero_junk two_objects
    = Throw RuntimeBitsetSizeDismatch two_objects /\
  operator_or_assign 0 1 zero_junk zero_junk two_objects
    = Throw RuntimeBitsetSizeDismatch two_objects /\
  operator_xor_assign 0 1 zero_junk zero_junk two_objects
    = Throw RuntimeBitsetSizeDismatch two_objects.
Proof.
  apply (compound_assignments_size_mismatch 0 1 zero_junk zero_junk
           two_objects bits8 bits65);
    [reflexivity | reflexivity | simpl; lia].
Defined.

Lemma copy_assign_self_witness :
  exists σ',
    copy_assign 0 0 zero_junk two_objects = Throw RuntimeBitsetInvalidSize σ' /\
    σ' !! 0%nat = Some {| m_bits := None; m_mask := None;
                          m_size := 0; m_blocks := 0 |} /\
    (m_size bits8 ≠ 0 -> σ' !! 0%nat ≠ Some bits8).
Proof.
  apply (copy_assign_self 0 zero_junk two_objects bits8). reflexivity.
Defined.

(** ** Further instances *)

Ltac sample_wf :=
  unfold wf; try unfold bits8; try unfold bits65;
  cbn [m_bits m_mask m_size m_blocks];
  split; [unfold BLOCK_SIZE; lia|];
  split; [reflexivity|]; split; [reflexivity|]; split; [reflexivity|];
  repeat constructor; unfold is_word, BLOCK_SIZE; lia.

Lemma bits8_in_range : 0 <= 2 < m_size bits8.
Proof. cbn. lia. Defined.

Lemma bits65_in_range : 0 <= 64 < m_size bits65.
Proof. cbn. lia. Defined.

Lemma set_pos_sets_one_bit_witness :
  wf bits65 /\ 0 <= 64 < m_size bits65 /\
  exists v',
    set_pos 64 bits65 = Ret tt v' /\ wf v' /\ m_size v' = m_size bits65 /\
    forall q, 0 <= q < m_size bits65 ->
      test q v' = Ret (if decide (q = 64) then true else bit_at bits65 q) v'.
Proof.
  assert (wf bits65) as Hwf by sample_wf.
  split; [exact Hwf|]. split; [exact bits65_in_range|].
  apply (set_pos_sets_one_bit bits65 64 Hwf bits65_in_range).
Defined.

Lemma reset_pos_clears_one_bit_witness :
  wf bits8 /\ 0 <= 2 < m_size bits8 /\
  exists v',
    reset_pos 2 bits8 = Ret tt v' /\ wf v' /\ m_size v' = m_size bits8 /\
    forall q, 0 <= q < m_size bits8 ->
      test q v' = Ret (if decide (q = 2) then false else bit_at bits8 q) v'.
Proof.
  assert (wf bits8) as Hwf by sample_wf.
  split; [exact Hwf|]. split; [exact bits8_in_range|].
  apply (reset_pos_clears_one_bit bits8 2 Hwf bits8_in_range).
Defined.

Lemma flip_pos_inverts_one_bit_witness :
  wf bits8 /\ 0 <= 2 < m_size bits8 /\
  exists v',
    flip_pos 2 bits8 = Ret tt v' /\ wf v' /\ m_size v' = m_size bits8 /\
    forall q, 0 <= q < m_size bits8 ->
      test q v'
      = Ret (if decide (q = 2) then negb (bit_at bits8 2)
             else bit_at bits8 q) v'.
Proof.
  assert (wf bits8) as Hwf by sample_wf.
  split; [exact Hwf|]. split; [exact bits8_in_range|].
  apply (flip_pos_inverts_one_bit bits8 2 Hwf bits8_in_range).
Defined.

Lemma flip_all_complements_witness :
  wf bits65 /\
  exists v' n,
    flip_all bits65 = Ret tt v' /\ wf v' /\ m_size v' = m_size bits65 /\
    (forall q, 0 <= q < m_size bits65 ->
       test q v' = Ret (negb (bit_at bits65 q)) v') /\
    count bits65 = Ret n bits65 /\ count v' = Ret (m_size bits65 - n) v' /\
    flip_all v' = Ret tt bits65.
Proof.
  assert (wf bits65) as Hwf by sample_wf.
  split; [exact Hwf|]. apply (flip_all_complements bits65 Hwf).
Defined.

Lemma any_none_count_witness :
  wf bits8 /\
  exists b : bool,
    any bits8 = Ret b bits8 /\ none bits8 = Ret (negb b) bits8 /\
    (b = false <-> count bits8 = Ret 0 bits8).
Proof.
  assert (wf bits8) as Hwf by sample_wf.
  split; [exact Hwf|]. apply (any_none_count bits8 Hwf).
Defined.

Lemma all_iff_count_is_size_witness :
  wf bits65 /\
  exists b : bool,
    all bits65 = Ret b bits65 /\
    (b = true <-> count bits65 = Ret (m_size bits65) bits65).
Proof.
  assert (wf bits65) as Hwf by sample_wf.
  split; [exact Hwf|]. apply (all_iff_count_is_size bits65 Hwf).
Defined.

Lemma reset_all_clears_witness :
  wf bits65 /\
  exists v',
    reset_all bits65 = Ret tt v' /\ wf v' /\ m_size v' = m_size bits65 /\
    m_bits v' = Some (replicate (Z.to_nat (m_blocks bits65)) 0) /\
    (forall q, 0 <= q < m_size bits65 -> test q v' = Ret false v') /\
    none v' = Ret true v' /\ count v' = Ret 0 v'.
Proof.
  assert (wf bits65) as Hwf by sample_wf.
  split; [exact Hwf|]. apply (reset_all_clears bits65 Hwf).
Defined.

Lemma RuntimeBitset_size_num_seeds_block_zero_witness :
  1 <= 70 <= 2 ^ BLOCK_SIZE - BLOCK_SIZE /\ is_word 180 /\
  exists v,
    RuntimeBitset_size_num 70 180 ones_junk raw = Ret tt v /\
    wf v /\ m_size v = 70 /\
    m_bits v
    = Some (180 :: drop 1 (new_array (junk_bits ones_junk) (num_blocks 70))) /\
    to_ullong v = Ret (180 mod 2 ^ Z.min 70 BLOCK_SIZE) v /\
    to_ulong v = Ret (180 mod 2 ^ Z.min 70 BLOCK_SIZE) v.
Proof.
  assert (1 <= 70 <= 2 ^ BLOCK_SIZE - BLOCK_SIZE) as H1
    by (unfold BLOCK_SIZE; lia).
  assert (is_word 180) as H2 by (unfold is_word, BLOCK_SIZE; lia).
  split; [exact H1|]. split; [exact H2|].
  apply (RuntimeBitset_size_num_seeds_block_zero 70 180 ones_junk raw H1 H2).
Defined.

Lemma two_objects_0 : two_objects !! 0%nat = Some bits8.
Proof. reflexivity. Defined.

Lemma two_objects_1 : two_objects !! 1%nat = Some bits65.
Proof. reflexivity. Defined.

Lemma copy_makes_equal_witness :
  two_objects !! 0%nat = Some bits8 /\ two_objects !! 1%nat = Some bits65 /\
  0%nat ≠ 1%nat /\ wf bits65 /\
  copy 0 1 ones_junk two_objects = Ret tt (<[0%nat := bits65]> two_objects) /\
  copy_assign 0 1 ones_junk two_objects
  = Ret tt (<[0%nat := bits65]> two_objects) /\
  copy_construct 0 1 ones_junk two_objects
  = Ret tt (<[0%nat := bits65]> two_objects).
Proof.
  assert (wf bits65) as Hwf by sample_wf.
  assert (0%nat ≠ 1%nat) as Hne by lia.
  split; [exact two_objects_0|]. split; [exact two_objects_1|].
  split; [exact Hne|]. split; [exact Hwf|].
  apply (copy_makes_equal 0 1 ones_junk two_objects bits8 bits65
           two_objects_0 two_objects_1 Hne Hwf).
Defined.

Lemma move_transfers_witness :
  two_objects !! 0%nat = Some bits8 /\ two_objects !! 1%nat = Some bits65 /\
  0%nat ≠ 1%nat /\
  move 0 1 ones_junk two_objects
  = Ret tt (<[1%nat := built 1 ones_junk]> (<[0%nat := bits65]> two_objects)) /\
  move_assign 0 1 ones_junk two_objects
  = Ret tt (<[1%nat := built 1 ones_junk]> (<[0%nat := bits65]> two_objects)) /\
  move_construct 0 1 ones_junk two_objects
  = Ret tt (<[1%nat := built 1 ones_junk]> (<[0%nat := bits65]> two_objects)) /\
  wf (built 1 ones_junk) /\ m_size (built 1 ones_junk) = 1.
Proof.
  assert (0%nat ≠ 1%nat) as Hne by lia.
  split; [exact two_objects_0|]. split; [exact two_objects_1|].
  split; [exact Hne|].
  apply (move_transfers 0 1 ones_junk two_objects bits8 bits65
           two_objects_0 two_objects_1 Hne).
Defined.

Lemma move_onto_itself_witness :
  two_objects !! 0%nat = Some bits8 /\
  move 0 0 ones_junk two_objects
  = Ret tt (<[0%nat := built 1 ones_junk]> two_objects) /\
  move_assign 0 0 ones_junk two_objects
  = Ret tt (<[0%nat := built 1 ones_junk]> two_objects).
Proof.
  split; [exact two_objects_0|].
  apply (move_onto_itself 0 ones_junk two_objects bits8 two_objects_0).
Defined.

Ltac sample_wf8b :=
  unfold wf, bits8b; cbn [m_bits m_mask m_size m_blocks];
  split; [unfold BLOCK_SIZE; lia|];
  split; [reflexivity|]; split; [reflexivity|]; split; [reflexivity|];
  repeat constructor; unfold is_word, BLOCK_SIZE; lia.

Lemma same_size_0 : same_size_objects !! 0%nat = Some bits8.
Proof. reflexivity. Defined.

Lemma same_size_1 : same_size_objects !! 1%nat = Some bits8b.
Proof. reflexivity. Defined.

Lemma binary_operators_bitwise_witness :
  same_size_objects !! 0%nat = Some bits8 /\
  same_size_objects !! 1%nat = Some bits8b /\
  wf bits8 /\ wf bits8b /\ m_size bits8 = m_size bits8b /\
  exists r_and r_or r_xor,
    operator_and 0 1 ones_junk same_size_objects = Ret r_and same_size_objects /\
    operator_or 0 1 ones_junk same_size_objects = Ret r_or same_size_objects /\
    operator_xor 0 1 ones_junk same_size_objects = Ret r_xor same_size_objects /\
    wf r_and /\ wf r_or /\ wf r_xor /\
    m_size r_and = m_size bits8 /\ m_size r_or = m_size bits8 /\
    m_size r_xor = m_size bits8 /\
    forall q, 0 <= q < m_size bits8 ->
      test q r_and = Ret (bit_at bits8 q && bit_at bits8b q) r_and /\
      test q r_or = Ret (bit_at bits8 q || bit_at bits8b q) r_or /\
      test q r_xor = Ret (xorb (bit_at bits8 q) (bit_at bits8b q)) r_xor.
Proof.
  assert (wf bits8) as Hwa by sample_wf.
  assert (wf bits8b) as Hwb by sample_wf8b.
  assert (m_size bits8 = m_size bits8b) as Hsz by reflexivity.
  split; [exact same_size_0|]. split; [exact same_size_1|].
  split; [exact Hwa|]. split; [exact Hwb|]. split; [exact Hsz|].
  apply (binary_operators_bitwise 0 1 ones_junk same_size_objects bits8 bits8b
           same_size_0 same_size_1 Hwa Hwb Hsz).
Defined.

Lemma compound_assignments_store_result_witness :
  same_size_objects !! 0%nat = Some bits8 /\
  same_size_objects !! 1%nat = Some bits8b /\
  wf bits8 /\ wf bits8b /\ m_size bits8 = m_size bits8b /\
  exists r_and r_or r_xor,
    operator_and 0 1 ones_junk same_size_objects = Ret r_and same_size_objects /\
    operator_or 0 1 ones_junk same_size_objects = Ret r_or same_size_objects /\
    operator_xor 0 1 ones_junk same_size_objects = Ret r_xor same_size_objects /\
    operator_and_assign 0 1 ones_junk zero_junk same_size_objects
    = Ret tt (<[0%nat := r_and]> same_size_objects) /\
    operator_or_assign 0 1 ones_junk zero_junk same_size_objects
    = Ret tt (<[0%nat := r_or]> same_size_objects) /\
    operator_xor_assign 0 1 ones_junk zero_junk same_size_objects
    = Ret tt (<[0%nat := r_xor]> same_size_objects).
Proof.
  assert (wf bits8) as Hwa by sample_wf.
  assert (wf bits8b) as Hwb by sample_wf8b.
  assert (m_size bits8 = m_size bits8b) as Hsz by reflexivity.
  split; [exact same_size_0|]. split; [exact same_size_1|].
  split; [exact Hwa|]. split; [exact Hwb|]. split; [exact Hsz|].
  apply (compound_assignments_store_result 0 1 ones_junk zero_junk
           same_size_objects bits8 bits8b same_size_0 same_size_1 Hwa Hwb Hsz).
Defined.

Lemma operator_not_flips_its_operand_witness :
  two_objects !! 1%nat = Some bits65 /\ wf bits65 /\
  exists v',
    flip_all bits65 = Ret tt v' /\
    operator_not 1 ones_junk two_objects = Ret v' (<[1%nat := v']> two_objects).
Proof.
  assert (wf bits65) as Hwf by sample_wf.
  split; [exact two_objects_1|]. split; [exact Hwf|].
  apply (operator_not_flips_its_operand 1 ones_junk two_objects bits65
           two_objects_1 Hwf).
Defined.

Lemma Reference_assign_then_read_witness :
  two_objects !! 1%nat = Some bits65 /\ wf bits65 /\
  0 <= 64 < m_size bits65 /\
  exists σ',
    operator_index 1 64 two_objects
    = Ret {| m_position := 64; m_bitset := 1 |} two_objects /\
    Reference_assign {| m_position := 64; m_bitset := 1 |} true two_objects
    = Ret tt σ' /\
    Reference_bool {| m_position := 64; m_bitset := 1 |} σ' = Ret true σ' /\
    Reference_not {| m_position := 64; m_bitset := 1 |} σ'
    = Ret (negb true) σ' /\
    forall q, 0 <= q < m_size bits65 -> q ≠ 64 ->
      Reference_bool {| m_position := q; m_bitset := 1 |} σ'
      = Ret (bit_at bits65 q) σ'.
Proof.
  assert (wf bits65) as Hwf by sample_wf.
  split; [exact two_objects_1|]. split; [exact Hwf|].
  split; [exact bits65_in_range|].
  apply (Reference_assign_then_read 1 64 true two_objects bits65
           two_objects_1 Hwf bits65_in_range).
Defined.

Lemma Reference_flip_inverts_witness :
  two_objects !! 1%nat = Some bits65 /\ wf bits65 /\
  0 <= 64 < m_size bits65 /\
  exists σ',
    Reference_bool {| m_position := 64; m_bitset := 1 |} two_objects
    = Ret (bit_at bits65 64) two_objects /\
    Reference_flip {| m_position := 64; m_bitset := 1 |} two_objects
    = Ret tt σ' /\
    Reference_bool {| m_position := 64; m_bitset := 1 |} σ'
    = Ret (negb (bit_at bits65 64)) σ'.
Proof.
  assert (wf bits65) as Hwf by sample_wf.
  split; [exact two_objects_1|]. split; [exact Hwf|].
  split; [exact bits65_in_range|].
  apply (Reference_flip_inverts 1 64 two_objects bits65
           two_objects_1 Hwf bits65_in_range).
Defined.

Lemma shift_left_moves_bits_up_witness :
  wf bits65 /\ 0 <= 3 < 2 ^ BLOCK_SIZE /\ 3 mod BLOCK_SIZE ≠ 0 /\
  exists v',
    bitwiseLeft 3 bits65 = Ret tt v' /\ shl_assign 3 bits65 = Ret tt v' /\
    (forall (this : nat) (j : Junk) (σ : store),
       σ !! this = Some bits65 -> operator_shl this 3 j σ = Ret v' σ) /\
    wf v' /\ m_size v' = m_size bits65 /\
    forall q, 0 <= q < m_size bits65 ->
      test q v' = Ret (bool_decide (3 <= q) && bit_at bits65 (q - 3)) v'.
Proof.
  assert (wf bits65) as Hwf by sample_wf.
  assert (0 <= 3 < 2 ^ BLOCK_SIZE) as Hk by (unfold BLOCK_SIZE; lia).
  assert (3 mod BLOCK_SIZE ≠ 0) as Hrem by (by vm_compute).
  split; [exact Hwf|]. split; [exact Hk|]. split; [exact Hrem|].
  apply (shift_left_moves_bits_up bits65 3 Hwf Hk Hrem).
Defined.

Lemma shift_right_moves_bits_down_witness :
  wf bits8 /\ 0 <= 2 < 2 ^ BLOCK_SIZE /\ 2 mod BLOCK_SIZE ≠ 0 /\
  exists v',
    bitwiseRight 2 bits8 = Ret tt v' /\ shr_assign 2 bits8 = Ret tt v' /\
    (forall (this : nat) (j : Junk) (σ : store),
       σ !! this = Some bits8 -> operator_shr this 2 j σ = Ret v' σ) /\
    wf v' /\ m_size v' = m_size bits8 /\
    forall q, 0 <= q < m_size bits8 ->
      test q v'
      = Ret (bool_decide (q + 2 < m_size bits8) && bit_at bits8 (q + 2)) v'.
Proof.
  assert (wf bits8) as Hwf by sample_wf.
  assert (0 <= 2 < 2 ^ BLOCK_SIZE) as Hk by (unfold BLOCK_SIZE; lia).
  assert (2 mod BLOCK_SIZE ≠ 0) as Hrem by (by vm_compute).
  split; [exact Hwf|]. split; [exact Hk|]. split; [exact Hrem|].
  apply (shift_right_moves_bits_down bits8 2 Hwf Hk Hrem).
Defined.


